(** * mongodb-to-postgresql-migration: the schema and dependency core

    A shallow embedding of the TypeScript sources (the DDL parser, the
    dependency resolver, the identifier and type utilities, the document
    analyzer and the migration engine) together with the properties the
    specification states about them. *)

From Stdlib Require Import String Ascii List ZArith NArith Bool Lia Permutation Arith Sorted.
Import ListNotations.

(** * Part I: the embedding *)

(** ** JavaScript values shared by every module *)

(** A JavaScript string is its sequence of UTF-16 code units. *)
Definition code_unit := N.
Definition jsstring := list code_unit.

(** String literals of the sources, written with their ASCII text. *)
Definition js (s : string) : jsstring := map N_of_ascii (list_ascii_of_string s).

(** [a === b] on strings. *)
Fixpoint jsstring_eqb (a b : jsstring) : bool :=
  match a, b with
  | [], [] => true
  | x :: a', y :: b' => N.eqb x y && jsstring_eqb a' b'
  | _, _ => false
  end.

(** [array.includes(x)] on an array of strings. *)
Definition includes (l : list jsstring) (x : jsstring) : bool :=
  existsb (jsstring_eqb x) l.

(** A JavaScript number holding a count: an integer, or [NaN] (what arithmetic
    on [undefined] gives). *)
Inductive jsnum : Type :=
| Num (z : Z)
| NaN.

(** A thrown [Error]: its [name] and its [message]. *)
Record jsError : Type := {
  errorName : jsstring;
  errorMessage : jsstring
}.

(** How a call ends: with a value, with an exception, or not within the
    iterations the model grants its loops. *)
Inductive outcome (A : Type) : Type :=
| Returned (a : A)
| Thrown (e : jsError)
| OutOfFuel.
Arguments Returned {A} a.
Arguments Thrown {A} e.
Arguments OutOfFuel {A}.

(** Sequencing: an exception, like running out of fuel, skips what follows. *)
Definition bind {A B : Type} (m : outcome A) (k : A -> outcome B) : outcome B :=
  match m with
  | Returned a => k a
  | Thrown e => Thrown e
  | OutOfFuel => OutOfFuel
  end.

Notation "x <- m ;; k" := (bind m (fun x => k))
  (at level 61, m at next level, right associativity).

(** [for (const x of l) body], threading the state the body updates. *)
Fixpoint forEach {A S : Type} (body : S -> A -> outcome S) (l : list A) (s : S)
  : outcome S :=
  match l with
  | [] => Returned s
  | x :: l => s <- body s x ;; forEach body l s
  end.

(** [Map<string, V>]: keys are kept in insertion order, [set] on a present key
    replaces the value in place. *)
Module JsMap.

Definition t (V : Type) := list (jsstring * V).

Definition empty {V : Type} : t V := [].

Fixpoint get {V : Type} (m : t V) (k : jsstring) : option V :=
  match m with
  | [] => None
  | (k', v) :: m' => if jsstring_eqb k k' then Some v else get m' k
  end.

Definition has {V : Type} (m : t V) (k : jsstring) : bool :=
  match get m k with Some _ => true | None => false end.

Fixpoint set {V : Type} (m : t V) (k : jsstring) (v : V) : t V :=
  match m with
  | [] => [(k, v)]
  | (k', v') :: m' =>
      if jsstring_eqb k k' then (k', v) :: m' else (k', v') :: set m' k v
  end.

Definition keys {V : Type} (m : t V) : list jsstring := map fst m.

Definition values {V : Type} (m : t V) : list V := map snd m.

End JsMap.

(** [Set<string>]: members are kept in insertion order, [add] of a member is a
    no-op. *)
Module JsSet.

Definition t := list jsstring.

Definition empty : t := [].

Definition has (s : t) (x : jsstring) : bool := existsb (jsstring_eqb x) s.

Definition add (s : t) (x : jsstring) : t := if has s x then s else s ++ [x].

End JsSet.

(** ** types.ts *)

Inductive MongoFieldType : Type :=
| TString | TNumber | TBoolean | TDate | TObjectId | TObject | TArray | TNull | TBinary.

Inductive PostgresColumnType : Type :=
| TEXT | VARCHAR | INTEGER | BIGINT | DECIMAL | BOOLEAN | TIMESTAMP | DATE | UUID
| JSONB | BYTEA.

Record FieldSchema : Type := {
  fieldName : jsstring;
  fieldType : MongoFieldType;
  isRequired : bool;
  isArray : bool
}.

Record IndexSchema : Type := {
  indexFields : list jsstring;
  indexUnique : bool;
  indexName : option jsstring
}.

Record CollectionSchema : Type := {
  collectionName : jsstring;
  fields : list FieldSchema;
  indexes : option (list IndexSchema)
}.

(** [primaryKey?] and [unique?] are optional: [None] is [undefined]. *)
Record ColumnSchema : Type := {
  colName : jsstring;
  colType : PostgresColumnType;
  nullable : bool;
  primaryKey : option bool;
  unique : option bool
}.

Record PostgresTableSchema : Type := {
  pgTableName : jsstring;
  columns : list ColumnSchema
}.

Record MigrationResult : Type := {
  success : bool;
  migratedCollections : list jsstring;
  errors : list jsstring;
  totalDocuments : Z;
  migrationTime : Z
}.

Record TableRelationship : Type := {
  tableName : jsstring;
  referencedTable : jsstring;
  columnName : jsstring;
  referencedColumn : jsstring
}.

Record ColumnMapping : Type := {
  mongoField : jsstring;
  postgresColumn : jsstring;
  transformation : option jsstring
}.

(** Truthiness of an optional boolean property. *)
Definition truthy (b : option bool) : bool :=
  match b with Some true => true | _ => false end.

(** ** utils/index.ts: identifiers *)

Module Utils.

Definition isDigit (c : code_unit) : bool := N.leb 48 c && N.leb c 57.
Definition isUpper (c : code_unit) : bool := N.leb 65 c && N.leb c 90.
Definition isLower (c : code_unit) : bool := N.leb 97 c && N.leb c 122.
Definition underscore : code_unit := 95%N.
Definition dot : code_unit := 46%N.

(** The class [[a-zA-Z0-9_]]. *)
Definition isIdentChar (c : code_unit) : bool :=
  isLower c || isUpper c || isDigit c || N.eqb c underscore.

(** [.replace(/[^a-zA-Z0-9_]/g, '_')]: the pattern has no [u] flag, so it is
    matched against single code units. *)
Definition replaceInvalid (name : jsstring) : jsstring :=
  map (fun c => if isIdentChar c then c else underscore) name.

(** [.replace(/^[0-9]/, '_$&')]: [$&] is the matched digit. *)
Definition prefixLeadingDigit (name : jsstring) : jsstring :=
  match name with
  | c :: _ => if isDigit c then underscore :: name else name
  | [] => name
  end.

(** [.toLowerCase()] on text of code units below 128, where the built-in
    lowers the letters [A]..[Z] and keeps every other code unit.  That is all
    [sanitizeIdentifier] hands it: the replacement before it leaves only
    [[a-zA-Z0-9_]].  Where the code lowers a name as it comes (the names of
    fields and columns in [createBasicColumnMappings]) the built-in is a
    parameter, see [Mapping] and [Env]. *)
Definition lowerUnit (c : code_unit) : code_unit :=
  if isUpper c then (c + 32)%N else c.

Definition toLowerCase (s : jsstring) : jsstring := map lowerUnit s.

Definition sanitizeIdentifier (name : jsstring) : jsstring :=
  toLowerCase (prefixLeadingDigit (replaceInvalid name)).

(** [s.startsWith(prefix)] and [s.includes(sub)]. *)
Fixpoint startsWith (s prefix : jsstring) : bool :=
  match prefix, s with
  | [], _ => true
  | p :: prefix', c :: s' => N.eqb c p && startsWith s' prefix'
  | _ :: _, [] => false
  end.

Fixpoint strIncludes (s sub : jsstring) : bool :=
  startsWith s sub ||
  match s with
  | [] => false
  | _ :: s' => strIncludes s' sub
  end.

(** [.replace(/\./g, '_')] *)
Definition replaceDots (name : jsstring) : jsstring :=
  map (fun c => if N.eqb c dot then underscore else c) name.

End Utils.

(** ** Documents *)

(** The class of an object that is neither a plain object, an array nor a
    [Date]: the database driver hands over identifiers and binary payloads as
    instances of its own classes. *)
Inductive instanceKind : Type :=
| ObjectIdInstance
| BinaryInstance
| OtherInstance.

(** The values a document can hold, told apart the way the sources tell them
    apart ([typeof], [Array.isArray], [instanceof Date], [toString()]).  The
    payload of a number or a date is never inspected.  A class instance comes
    with the text its [toString()] returns and with its own enumerable
    properties; [VOther] is a primitive of another type (symbol, bigint). *)
#[warnings="-register-all"] Inductive value : Type :=
| VNull
| VUndefined
| VString (s : jsstring)
| VNumber (n : Z)
| VBoolean (b : bool)
| VDate (ms : Z)
| VArray (items : list value)
| VObject (entries : list (jsstring * value))
| VInstance (kind : instanceKind) (text : jsstring) (entries : list (jsstring * value))
| VOther.

(** The decimal text of an array index. *)
Definition digitOf (n : nat) : code_unit := (48 + N.of_nat n)%N.

Fixpoint indexDigits (fuel n : nat) (acc : jsstring) : jsstring :=
  match fuel with
  | O => acc
  | S fuel =>
      let acc := digitOf (n mod 10) :: acc in
      if Nat.ltb n 10 then acc else indexDigits fuel (n / 10) acc
  end.

Definition indexKey (n : nat) : jsstring := indexDigits (S n) n [].

Fixpoint indexed (i : nat) (items : list value) : list (jsstring * value) :=
  match items with
  | [] => []
  | x :: items => (indexKey i, x) :: indexed (S i) items
  end.

(** [Object.entries(v)] for the objects the analyzer walks into. *)
Definition entriesOf (v : value) : list (jsstring * value) :=
  match v with
  | VObject entries => entries
  | VInstance _ _ entries => entries
  | VArray items => indexed 0 items
  | _ => []
  end.

(** [v && typeof v === 'object'] *)
Definition isObject (v : value) : bool :=
  match v with
  | VDate _ | VArray _ | VObject _ | VInstance _ _ _ => true
  | _ => false
  end.

Definition isDate (v : value) : bool :=
  match v with VDate _ => true | _ => false end.

Definition isArrayValue (v : value) : bool :=
  match v with VArray _ => true | _ => false end.

(** Nesting depth: how deep [Object.entries] can be followed. *)
Fixpoint depth (v : value) : nat :=
  match v with
  | VArray items => S (list_max (map depth items))
  | VObject entries => S (list_max (map (fun '(_, x) => depth x) entries))
  | VInstance _ _ entries => S (list_max (map (fun '(_, x) => depth x) entries))
  | _ => 0
  end.

(** ** utils/index.ts: inferTypeFromValue *)

Module Infer.

Definition TypeError : jsError :=
  {| errorName := js "TypeError"; errorMessage := js "value.toString is not a function" |}.

Definition isHexDigit (c : code_unit) : bool :=
  (N.leb 48 c && N.leb c 57) || (N.leb 97 c && N.leb c 102) || (N.leb 65 c && N.leb c 70).

(** [/^[a-fA-F0-9]{24}$/.test(str)] *)
Definition isObjectIdText (str : jsstring) : bool :=
  Nat.eqb (length str) 24 && forallb isHexDigit str.

(** [value.toString()] on an object.  A plain object inherits
    [Object.prototype.toString] unless it has a property of that name of its
    own; a document never holds a function, so calling such a property raises
    a [TypeError].  A class instance answers with its text. *)
Definition toStringOf (v : value) : outcome jsstring :=
  match v with
  | VObject entries =>
      match JsMap.get entries (js "toString") with
      | Some _ => Thrown TypeError
      | None => Returned (js "[object Object]")
      end
  | VInstance _ text _ => Returned text
  | _ => Returned []
  end.

Definition inferTypeFromValue (v : value) : outcome MongoFieldType :=
  match v with
  | VNull | VUndefined => Returned TNull
  | VString _ => Returned TString
  | VNumber _ => Returned TNumber
  | VBoolean _ => Returned TBoolean
  | VDate _ => Returned TDate
  | VArray _ => Returned TArray
  | VObject _ | VInstance _ _ _ =>
      (* 'toString' in value holds for both: the method is inherited or own *)
      match toStringOf v with
      | Returned str =>
          if isObjectIdText str then Returned TObjectId else Returned TObject
      | Thrown e => Thrown e
      | OutOfFuel => OutOfFuel
      end
  | VOther => Returned TString
  end.

End Infer.

(** ** MongoAnalyzer.analyzeDocument (core/mongo-analyzer.ts) *)

Module MongoAnalyzer.

Definition FieldMap := JsMap.t FieldSchema.

(** [prefix ? `${prefix}.${key}` : key]: the empty prefix is falsy. *)
Definition fieldNameOf (prefix key : jsstring) : jsstring :=
  match prefix with
  | [] => key
  | _ :: _ => prefix ++ Utils.dot :: key
  end.

(** [field.type = currentType] and [field.isArray = true] write through the
    descriptor object stored in the map under [name]. *)
Definition setType (fieldMap : FieldMap) (name : jsstring) (t : MongoFieldType) : FieldMap :=
  match JsMap.get fieldMap name with
  | Some field =>
      JsMap.set fieldMap name
        {| fieldName := fieldName field; fieldType := t;
           isRequired := isRequired field; isArray := isArray field |}
  | None => fieldMap
  end.

Definition setIsArray (fieldMap : FieldMap) (name : jsstring) : FieldMap :=
  match JsMap.get fieldMap name with
  | Some field =>
      JsMap.set fieldMap name
        {| fieldName := fieldName field; fieldType := fieldType field;
           isRequired := isRequired field; isArray := true |}
  | None => fieldMap
  end.

(** [if (!fieldMap.has(fieldName)) fieldMap.set(fieldName, {...})] *)
Definition register (fieldMap : FieldMap) (name : jsstring) (v : value)
  : outcome FieldMap :=
  if JsMap.has fieldMap name then Returned fieldMap
  else
    match Infer.inferTypeFromValue v with
    | Returned t =>
        Returned (JsMap.set fieldMap name
                    {| fieldName := name; fieldType := t;
                       isRequired := false; isArray := isArrayValue v |})
    | Thrown e => Thrown e
    | OutOfFuel => OutOfFuel
    end.

(** [if (value !== null && value !== undefined) { ...; if (field.type === 'null')
    field.type = currentType }] *)
Definition promote (fieldMap : FieldMap) (name : jsstring) (v : value)
  : outcome FieldMap :=
  match v with
  | VNull | VUndefined => Returned fieldMap
  | _ =>
      match Infer.inferTypeFromValue v with
      | Returned currentType =>
          match JsMap.get fieldMap name with
          | Some field =>
              match fieldType field with
              | TNull => Returned (setType fieldMap name currentType)
              | _ => Returned fieldMap
              end
          | None => Returned fieldMap
          end
      | Thrown e => Thrown e
      | OutOfFuel => OutOfFuel
      end
  end.

(** The body of [for (const [key, value] of Object.entries(doc))], given the
    function to call for the nested documents. *)
Definition analyzeEntry
  (analyzeDocument : value -> FieldMap -> jsstring -> outcome FieldMap)
  (prefix : jsstring) (fieldMap : FieldMap) (entry : jsstring * value)
  : outcome FieldMap :=
  let '(key, v) := entry in
  let fieldName := fieldNameOf prefix key in
  fieldMap <- register fieldMap fieldName v ;;
  fieldMap <- promote fieldMap fieldName v ;;
  fieldMap <- (if isObject v && negb (isArrayValue v) && negb (isDate v)
               then analyzeDocument v fieldMap fieldName
               else Returned fieldMap) ;;
  match v with
  | VArray (firstItem :: _) =>
      let fieldMap := setIsArray fieldMap fieldName in
      if isObject firstItem && negb (isDate firstItem)
      then analyzeDocument firstItem fieldMap fieldName
      else Returned fieldMap
  | _ => Returned fieldMap
  end.

(** [analyzeDocument(doc, fieldMap, prefix)]; each level of nesting takes one
    unit of [fuel]. *)
Fixpoint analyzeDocument (fuel : nat) (doc : value) (fieldMap : FieldMap)
  (prefix : jsstring) : outcome FieldMap :=
  match fuel with
  | O => OutOfFuel
  | S fuel => forEach (analyzeEntry (analyzeDocument fuel) prefix) (entriesOf doc) fieldMap
  end.

(** [for (const doc of documents) this.analyzeDocument(doc, fieldMap)] of
    [analyzeCollection]; a document is given the fuel its depth asks for. *)
Definition analyzeDocuments (documents : list value) (fieldMap : FieldMap)
  : outcome FieldMap :=
  forEach (fun fieldMap doc => analyzeDocument (S (depth doc)) doc fieldMap [])
    documents fieldMap.

End MongoAnalyzer.

(** ** Regular expressions *)

(** The part of ECMAScript regular expressions that the sources use, run by
    backtracking in the order the language prescribes: greedy and lazy
    repetition, sequence, ordered alternative, capturing groups, classes of
    code units (none of the patterns has the [u] flag) and the multi-line
    end-of-line assertion. *)
Module Regex.

Inductive regex : Type :=
| Eps
| Chr (class : code_unit -> bool)
| Seq (r1 r2 : regex)
| Alt (r1 r2 : regex)
| Star (greedy : bool) (r : regex)
| Group (n : nat) (r : regex)
| Eol.

(** What is left of the input, and the groups captured so far. *)
Record state : Type := {
  rest : jsstring;
  captures : list (nat * jsstring)
}.

Definition orElse {A : Type} (a b : option A) : option A :=
  match a with Some x => Some x | None => b end.

Definition isLineTerminator (c : code_unit) : bool :=
  N.eqb c 10 || N.eqb c 13 || N.eqb c 8232 || N.eqb c 8233.

(** The class [\s]: white space and line terminators. *)
Definition isSpace (c : code_unit) : bool :=
  (N.leb 9 c && N.leb c 13) || N.eqb c 32 || N.eqb c 160 || N.eqb c 5760 ||
  (N.leb 8192 c && N.leb c 8202) || N.eqb c 8232 || N.eqb c 8233 ||
  N.eqb c 8239 || N.eqb c 8287 || N.eqb c 12288 || N.eqb c 65279.

(** The class [\w]. *)
Definition isWord (c : code_unit) : bool := Utils.isIdentChar c.

(** A repetition of [step] followed by [k]: [n] bounds the iterations left.
    An iteration that consumes nothing is rejected, as the language
    prescribes, so a repetition iterates at most once per code unit left. *)
Fixpoint iterate {T : Type} (step : state -> (state -> option T) -> option T)
  (greedy : bool) (k : state -> option T) (n : nat) (st : state) : option T :=
  match n with
  | O => k st
  | S n =>
      let again :=
        step st (fun st1 =>
          if Nat.ltb (length (rest st1)) (length (rest st))
          then iterate step greedy k n st1 else None) in
      if greedy then orElse again (k st) else orElse (k st) again
  end.

(** [run r st k] matches [r] at the head of [rest st] and hands every way of
    doing so to the continuation [k], most preferred first, until [k] accepts
    one. *)
Fixpoint run {T : Type} (r : regex) (st : state) (k : state -> option T) : option T :=
  match r with
  | Eps => k st
  | Chr class =>
      match rest st with
      | c :: s => if class c then k {| rest := s; captures := captures st |} else None
      | [] => None
      end
  | Seq r1 r2 => run r1 st (fun st1 => run r2 st1 k)
  | Alt r1 r2 => orElse (run r1 st k) (run r2 st k)
  | Star greedy r1 => iterate (run r1) greedy k (length (rest st)) st
  | Group n r1 =>
      run r1 st (fun st1 =>
        k {| rest := rest st1;
             captures :=
               (n, firstn (length (rest st) - length (rest st1)) (rest st))
               :: captures st1 |})
  | Eol =>
      match rest st with
      | [] => k st
      | c :: _ => if isLineTerminator c then k st else None
      end
  end.

(** The result of [regex.exec]: [index], [match[0]], the groups, and the
    [lastIndex] a global pattern is left with. *)
Record matchResult : Type := {
  index : nat;
  matched : jsstring;
  groups : list (nat * jsstring);
  endIndex : nat
}.

(** The leftmost match in [s], which starts at position [index] of the input. *)
Fixpoint search (r : regex) (index : nat) (s : jsstring) : option matchResult :=
  match run r {| rest := s; captures := [] |} (fun st => Some st) with
  | Some st =>
      let len := length s - length (rest st) in
      Some {| index := index; matched := firstn len s; groups := captures st;
              endIndex := index + len |}
  | None =>
      match s with
      | [] => None
      | _ :: s' => search r (S index) s'
      end
  end.

(** [regex.exec(input)] for a global pattern whose [lastIndex] is [lastIndex]. *)
Definition exec (r : regex) (input : jsstring) (lastIndex : nat) : option matchResult :=
  if Nat.leb lastIndex (length input)
  then search r lastIndex (skipn lastIndex input)
  else None.

(** [match[n]]; every group of the patterns below takes part in every match. *)
Definition group (m : matchResult) (n : nat) : jsstring :=
  match find (fun g => Nat.eqb (fst g) n) (groups m) with
  | Some g => snd g
  | None => []
  end.

(** [while ((match = regex.exec(input)) !== null) body]: the pattern is global,
    so each search starts where the previous match ended; a pattern that
    matched the empty string would be found there again, for ever. *)
Fixpoint whileExec {S : Type} (fuel : nat) (r : regex) (input : jsstring)
  (lastIndex : nat) (body : S -> matchResult -> outcome S) (s : S) : outcome S :=
  match exec r input lastIndex with
  | None => Returned s
  | Some m =>
      match fuel with
      | O => OutOfFuel
      | S fuel =>
          s <- body s m ;;
          whileExec fuel r input (endIndex m) body s
      end
  end.

(** The matches [input.replace(regex, ...)] replaces for a global pattern:
    after an empty match the search moves on by one code unit. *)
Fixpoint matchAll (fuel : nat) (r : regex) (input : jsstring) (lastIndex : nat)
  : outcome (list matchResult) :=
  match exec r input lastIndex with
  | None => Returned []
  | Some m =>
      match fuel with
      | O => OutOfFuel
      | S fuel =>
          let next := if Nat.eqb (endIndex m) (index m)
                      then S (endIndex m) else endIndex m in
          ms <- matchAll fuel r input next ;;
          Returned (m :: ms)
      end
  end.

Fixpoint substitute (input : jsstring) (position : nat) (ms : list matchResult)
  (replacement : jsstring) : jsstring :=
  match ms with
  | [] => skipn position input
  | m :: ms =>
      firstn (index m - position) (skipn position input) ++ replacement ++
      substitute input (endIndex m) ms replacement
  end.

(** [input.replace(regex, replacement)] for a global pattern and a replacement
    text without [$]. *)
Definition replace (r : regex) (replacement input : jsstring) : outcome jsstring :=
  ms <- matchAll (S (S (length input))) r input 0 ;;
  Returned (substitute input 0 ms replacement).

Fixpoint trimStart (s : jsstring) : jsstring :=
  match s with
  | c :: s' => if isSpace c then trimStart s' else s
  | [] => []
  end.

(** [s.trim()] *)
Definition trim (s : jsstring) : jsstring := rev (trimStart (rev (trimStart s))).

(** *** Writing patterns *)

Definition upperUnit (c : code_unit) : code_unit :=
  if Utils.isLower c then (c - 32)%N else c.

Fixpoint seq (rs : list regex) : regex :=
  match rs with
  | [] => Eps
  | [r] => r
  | r :: rs => Seq r (seq rs)
  end.

(** The text [s], code unit by code unit. *)
Definition text (s : string) : regex := seq (map (fun c => Chr (N.eqb c)) (js s)).

(** The text [s] under the [i] flag: two code units match when they are equal
    once upper-cased; a pattern letter below 128 is only matched by its two
    ASCII cases. *)
Definition textI (s : string) : regex :=
  seq (map (fun c => Chr (fun u => N.eqb (upperUnit u) (upperUnit c))) (js s)).

Definition star (r : regex) : regex := Star true r.
Definition lazyStar (r : regex) : regex := Star false r.
Definition plus (r : regex) : regex := Seq r (Star true r).
Definition opt (r : regex) : regex := Alt r Eps.

Definition space : regex := Chr isSpace.
Definition word : regex := Chr isWord.
Definition any : regex := Chr (fun _ => true).
Definition dotChar : regex := Chr (fun c => negb (isLineTerminator c)).
Definition oneOf (s : string) : regex := Chr (fun c => existsb (N.eqb c) (js s)).
Definition noneOf (s : string) : regex := Chr (fun c => negb (existsb (N.eqb c) (js s))).
Definition notSpaceNor (s : string) : regex :=
  Chr (fun c => negb (isSpace c || existsb (N.eqb c) (js s))).

End Regex.

(** ** DDLParser.parseRelationships and getInsertionOrder (utils/ddl-parser.ts) *)

Module DDLParser.

(** The [TypeError] raised by a method call on [undefined]. *)
Definition TypeError : jsError :=
  {| errorName := js "TypeError";
     errorMessage := js "Cannot read properties of undefined (reading 'forEach')" |}.

Import Regex.

(** [/--.*$/gm] *)
Definition lineComment : regex := seq [text "--"; star dotChar; Eol].

(** [/\/\*[\s\S]*?\*\//g] *)
Definition blockComment : regex := seq [text "/*"; lazyStar any; text "*/"].

(** [/\s+/g] *)
Definition spaces : regex := plus space.

(** The global pattern whose class holds the double quote and the backquote. *)
Definition quotes : regex := Chr (fun c => N.eqb c 34 || N.eqb c 96).

(** [/FOREIGN\s+KEY\s*\(\s*([^)]+)\s*\)\s+REFERENCES\s+([^\s(]+)\s*\(\s*([^)]+)\s*\)/gi] *)
Definition foreignKeyRegex : regex :=
  seq [ textI "FOREIGN"; plus space; textI "KEY"; star space; text "("; star space;
        Group 1 (plus (noneOf ")")); star space; text ")"; plus space;
        textI "REFERENCES"; plus space; Group 2 (plus (notSpaceNor "(")); star space;
        text "("; star space; Group 3 (plus (noneOf ")")); star space; text ")" ].

(** [/(\w+)\s+[^,)]*REFERENCES\s+([^\s(]+)\s*\(\s*([^)]+)\s*\)/gi] *)
Definition inlineReferencesRegex : regex :=
  seq [ Group 1 (plus word); plus space; star (noneOf ",)");
        textI "REFERENCES"; plus space; Group 2 (plus (notSpaceNor "(")); star space;
        text "("; star space; Group 3 (plus (noneOf ")")); star space; text ")" ].

(** [/CREATE\s+TABLE\s+(?:IF\s+NOT\s+EXISTS\s+)?([^\s(]+)/gi] *)
Definition createTableRegex : regex :=
  seq [ textI "CREATE"; plus space; textI "TABLE"; plus space;
        opt (seq [textI "IF"; plus space; textI "NOT"; plus space;
                  textI "EXISTS"; plus space]);
        Group 1 (plus (notSpaceNor "(")) ].

(** [ddlContent.replace(...).replace(...).replace(/\s+/g, ' ').trim()] *)
Definition cleanDDL (ddlContent : jsstring) : outcome jsstring :=
  s <- replace lineComment [] ddlContent ;;
  s <- replace blockComment [] s ;;
  s <- replace spaces (js " ") s ;;
  Returned (trim s).

(** [match[n].trim().replace(quotes, '')] *)
Definition unquoted (s : jsstring) : outcome jsstring := replace quotes [] (trim s).

(** [findTableNameForConstraint]: the name of the last [CREATE TABLE] before
    the constraint, or [null]. *)
Definition findTableNameForConstraint (ddlContent : jsstring) (constraintIndex : nat)
  : outcome (option jsstring) :=
  let beforeConstraint := firstn constraintIndex ddlContent in
  whileExec (S (length beforeConstraint)) createTableRegex beforeConstraint 0
    (fun _ m => name <- unquoted (group m 1) ;; Returned (Some name))
    None.

(** The body shared by the two [while] loops, after the three names have been
    taken from the match: [if (tableName) relationships.push({...})], where the
    empty string is as falsy as [null]. *)
Definition pushRelationship (cleanedDDL : jsstring) (relationships : list TableRelationship)
  (m : matchResult) (columnName referencedTable referencedColumn : jsstring)
  : outcome (list TableRelationship) :=
  found <- findTableNameForConstraint cleanedDDL (index m) ;;
  match found with
  | Some (c :: name) =>
      Returned (relationships ++
                [ {| tableName := c :: name; referencedTable := referencedTable;
                     columnName := columnName; referencedColumn := referencedColumn |} ])
  | Some [] | None => Returned relationships
  end.

Definition foreignKeyBody (cleanedDDL : jsstring) (relationships : list TableRelationship)
  (m : matchResult) : outcome (list TableRelationship) :=
  columnName <- unquoted (group m 1) ;;
  referencedTable <- unquoted (group m 2) ;;
  referencedColumn <- unquoted (group m 3) ;;
  pushRelationship cleanedDDL relationships m columnName referencedTable referencedColumn.

Definition inlineBody (cleanedDDL : jsstring) (relationships : list TableRelationship)
  (m : matchResult) : outcome (list TableRelationship) :=
  let columnName := trim (group m 1) in
  referencedTable <- unquoted (group m 2) ;;
  referencedColumn <- unquoted (group m 3) ;;
  pushRelationship cleanedDDL relationships m columnName referencedTable referencedColumn.

(** [parseRelationships]: nothing in its [try] block raises, so the [catch]
    has no case of its own here. *)
Definition parseRelationships (ddlContent : jsstring) : outcome (list TableRelationship) :=
  cleanedDDL <- cleanDDL ddlContent ;;
  relationships <-
    whileExec (S (length cleanedDDL)) foreignKeyRegex cleanedDDL 0
      (foreignKeyBody cleanedDDL) [] ;;
  whileExec (S (length cleanedDDL)) inlineReferencesRegex cleanedDDL 0
    (inlineBody cleanedDDL) relationships.

(** [tables.forEach(table => { graph.set(table, new Set()); inDegree.set(table, 0) })] *)
Definition initGraph (tables : list jsstring)
  : JsMap.t JsSet.t * JsMap.t jsnum :=
  fold_left
    (fun '(graph, inDegree) table =>
       (JsMap.set graph table JsSet.empty, JsMap.set inDegree table (Num 0)))
    tables (JsMap.empty, JsMap.empty).

(** [(inDegree.get(name) || 0) + 1]: [undefined], [0] and [NaN] are falsy. *)
Definition incrDegree (d : option jsnum) : jsnum :=
  match d with
  | Some (Num z) => Num (z + 1)
  | Some NaN | None => Num 1
  end.

(** One relationship of the [relationships.forEach] that builds the graph.
    [graph.get(rel.referencedTable)!.add(rel.tableName)] mutates the set stored
    under that key, which the map keeps at its position. *)
Definition addRelationship (st : JsMap.t JsSet.t * JsMap.t jsnum)
  (rel : TableRelationship) : JsMap.t JsSet.t * JsMap.t jsnum :=
  let '(graph, inDegree) := st in
  if JsMap.has graph (tableName rel) && JsMap.has graph (referencedTable rel) then
    match JsMap.get graph (referencedTable rel) with
    | Some dependents =>
        (JsMap.set graph (referencedTable rel) (JsSet.add dependents (tableName rel)),
         JsMap.set inDegree (tableName rel)
           (incrDegree (JsMap.get inDegree (tableName rel))))
    | None => st
    end
  else st.

Definition buildGraph (tables : list jsstring) (relationships : list TableRelationship)
  : JsMap.t JsSet.t * JsMap.t jsnum :=
  fold_left addRelationship relationships (initGraph tables).

(** [inDegree.get(dependentTable)! - 1] *)
Definition decrDegree (d : option jsnum) : jsnum :=
  match d with
  | Some (Num z) => Num (z - 1)
  | Some NaN | None => NaN
  end.

(** [inDegree.get(dependentTable) === 0] *)
Definition isZero (d : option jsnum) : bool :=
  match d with
  | Some (Num z) => Z.eqb z 0
  | Some NaN | None => false
  end.

(** The body of [graph.get(table)!.forEach(dependentTable => ...)]. *)
Definition visitDependent (st : JsMap.t jsnum * list jsstring)
  (dependentTable : jsstring) : JsMap.t jsnum * list jsstring :=
  let '(inDegree, queue) := st in
  let inDegree :=
    JsMap.set inDegree dependentTable (decrDegree (JsMap.get inDegree dependentTable)) in
  if isZero (JsMap.get inDegree dependentTable)
  then (inDegree, queue ++ [dependentTable])
  else (inDegree, queue).

(** [while (queue.length > 0) { const table = queue.shift()!; ... }]; every
    iteration takes one unit of [fuel]. *)
Fixpoint kahnLoop (fuel : nat) (graph : JsMap.t JsSet.t)
  (queue result : list jsstring) (inDegree : JsMap.t jsnum)
  : outcome (list jsstring) :=
  match queue with
  | [] => Returned result
  | table :: queue =>
      match fuel with
      | O => OutOfFuel
      | S fuel =>
          let result := result ++ [table] in
          match JsMap.get graph table with
          | None => Thrown TypeError
          | Some dependents =>
              let '(inDegree, queue) :=
                fold_left visitDependent dependents (inDegree, queue) in
              kahnLoop fuel graph queue result inDegree
          end
      end
  end.

(** [inDegree.forEach((degree, table) => { if (degree === 0) queue.push(table) })] *)
Definition initialQueue (inDegree : JsMap.t jsnum) : list jsstring :=
  map fst (filter (fun '(_, degree) => isZero (Some degree)) inDegree).

(** The tail of the function: the circular-dependency check. *)
Definition appendRemaining (tables result : list jsstring) : list jsstring :=
  if negb (Nat.eqb (length result) (length tables))
  then result ++ filter (fun table => negb (includes result table)) tables
  else result.

Definition getInsertionOrder (tables : list jsstring)
  (relationships : list TableRelationship) : outcome (list jsstring) :=
  let '(graph, inDegree) := buildGraph tables relationships in
  match kahnLoop (length tables) graph (initialQueue inDegree) [] inDegree with
  | Returned result => Returned (appendRemaining tables result)
  | Thrown e => Thrown e
  | OutOfFuel => OutOfFuel
  end.

End DDLParser.

(** ** MigrationEngine.createBasicColumnMappings (core/migration-engine.ts) *)

Module Mapping.

Definition mapping (field column : jsstring) : ColumnMapping :=
  {| mongoField := field; postgresColumn := column; transformation := None |}.

Section Lowered.

(** [String.prototype.toLowerCase], applied here to field and column names as
    they come: the case mapping of the Unicode standard, left open. *)
Variable toLowerCase : jsstring -> jsstring.

(** The test of [pgSchema.columns.find] that picks the identifier column. *)
Definition isIdColumn (col : ColumnSchema) : bool :=
  Utils.strIncludes (toLowerCase (colName col)) (js "id") &&
  (truthy (unique col) || truthy (primaryKey col)).

(** The test of the [find] that looks for a partial match. *)
Definition partialMatch (sanitizedFieldName : jsstring) (col : ColumnSchema) : bool :=
  Utils.strIncludes (toLowerCase (colName col)) sanitizedFieldName ||
  Utils.strIncludes sanitizedFieldName (toLowerCase (colName col)).

(** The body of [for (const field of mongoSchema.fields)]. *)
Definition mapField (pgSchema : PostgresTableSchema) (pgColumns : JsSet.t)
  (mappings : list ColumnMapping) (field : FieldSchema) : list ColumnMapping :=
  if jsstring_eqb (fieldName field) (js "_id") then mappings
  else
    let sanitizedFieldName := toLowerCase (Utils.replaceDots (fieldName field)) in
    if JsSet.has pgColumns sanitizedFieldName
    then mappings ++ [mapping (fieldName field) sanitizedFieldName]
    else
      match find (partialMatch sanitizedFieldName) (columns pgSchema) with
      | Some matchingColumn =>
          mappings ++ [mapping (fieldName field) (colName matchingColumn)]
      | None => mappings
      end.

Definition createBasicColumnMappings (mongoSchema : CollectionSchema)
  (pgSchema : PostgresTableSchema) : list ColumnMapping :=
  let pgColumns := fold_left JsSet.add (map colName (columns pgSchema)) JsSet.empty in
  let idColumn := find isIdColumn (columns pgSchema) in
  let mappings :=
    match idColumn with
    | Some idColumn => [mapping (js "_id") (colName idColumn)]
    | None => []
    end in
  fold_left (mapField pgSchema pgColumns) (fields mongoSchema) mappings.

End Lowered.

End Mapping.




(** ** utils/index.ts: mapMongoTypeToPostgres *)

Module Types.

Definition mapMongoTypeToPostgres (mongoType : MongoFieldType) (isArray : bool)
  : PostgresColumnType :=
  let baseType :=
    match mongoType with
    | TString => TEXT
    | TNumber => DECIMAL
    | TBoolean => BOOLEAN
    | TDate => TIMESTAMP
    | TObjectId => UUID
    | TObject | TArray => JSONB
    | TBinary => BYTEA
    | TNull => TEXT
    end in
  if isArray then JSONB else baseType.

(** The text of a column type in a template literal. *)
Definition typeText (t : PostgresColumnType) : jsstring :=
  match t with
  | TEXT => js "TEXT" | VARCHAR => js "VARCHAR" | INTEGER => js "INTEGER"
  | BIGINT => js "BIGINT" | DECIMAL => js "DECIMAL" | BOOLEAN => js "BOOLEAN"
  | TIMESTAMP => js "TIMESTAMP" | DATE => js "DATE" | UUID => js "UUID"
  | JSONB => js "JSONB" | BYTEA => js "BYTEA"
  end.

(** [PostgresManager.mapPostgresTypeToStandard].  [Utils.toLowerCase] stands
    for the built-in here: the names of the [switch] are ASCII without a [k],
    and the built-in makes an ASCII text of a text with a code unit outside
    ASCII only by turning the Kelvin sign into [k]; so a type name is equal to
    one of them after the built-in exactly when it is after
    [Utils.toLowerCase]. *)
Definition mapPostgresTypeToStandard (pgType : jsstring) : PostgresColumnType :=
  let t := Utils.toLowerCase pgType in
  let named (s : string) := jsstring_eqb t (js s) in
  if named "text"%string || named "varchar"%string || named "character varying"%string then TEXT
  else if named "integer"%string || named "int4"%string then INTEGER
  else if named "bigint"%string || named "int8"%string then BIGINT
  else if named "numeric"%string || named "decimal"%string then DECIMAL
  else if named "boolean"%string || named "bool"%string then BOOLEAN
  else if named "timestamp"%string || named "timestamptz"%string then TIMESTAMP
  else if named "date"%string then DATE
  else if named "uuid"%string then UUID
  else if named "jsonb"%string then JSONB
  else if named "bytea"%string then BYTEA
  else TEXT.

End Types.

(** ** Computations with state and exceptions *)

(** A method of the engine or of one of its collaborators: it reads and
    updates the state [S] and ends as an [outcome]. *)
Definition M (S A : Type) : Type := S -> outcome A * S.

Definition ret {S A : Type} (a : A) : M S A := fun st => (Returned a, st).

Definition throw {S A : Type} (e : jsError) : M S A := fun st => (Thrown e, st).

Definition bindM {S A B : Type} (m : M S A) (k : A -> M S B) : M S B :=
  fun st =>
    match m st with
    | (Returned a, st') => k a st'
    | (Thrown e, st') => (Thrown e, st')
    | (OutOfFuel, st') => (OutOfFuel, st')
    end.

Notation "x <~ m ;; k" := (bindM m (fun x => k))
  (at level 61, m at next level, right associativity).
Notation "m ;;; k" := (bindM m (fun _ => k))
  (at level 61, right associativity).

(** [try { m } catch (error) { handler error }] *)
Definition tryCatch {S A : Type} (m : M S A) (handler : jsError -> M S A) : M S A :=
  fun st =>
    match m st with
    | (Thrown e, st') => handler e st'
    | other => other
    end.

(** [try { m } finally { cleanup }]: an exception of [cleanup] replaces the
    outcome of [m]. *)
Definition tryFinally {S A : Type} (m : M S A) (cleanup : M S unit) : M S A :=
  fun st =>
    match m st with
    | (OutOfFuel, st') => (OutOfFuel, st')
    | (o, st') =>
        match cleanup st' with
        | (Returned _, st'') => (o, st'')
        | (Thrown e, st'') => (Thrown e, st'')
        | (OutOfFuel, st'') => (OutOfFuel, st'')
        end
    end.

(** A pure computation that may raise. *)
Definition lift {S A : Type} (o : outcome A) : M S A := fun st => (o, st).

Definition get {S : Type} : M S S := fun st => (Returned st, st).

Definition modify {S : Type} (f : S -> S) : M S unit := fun st => (Returned tt, f st).

(** [for (const x of l) body] *)
Fixpoint forEachM {S A : Type} (body : A -> M S unit) (l : list A) : M S unit :=
  match l with
  | [] => ret tt
  | x :: l => body x ;;; forEachM body l
  end.

(** [Error.prototype.toString], as a template literal renders an error. *)
Definition errorText (e : jsError) : jsstring :=
  match errorName e, errorMessage e with
  | [], message => message
  | name, [] => name
  | name, message => name ++ js ": " ++ message
  end.

Definition Error (message : jsstring) : jsError :=
  {| errorName := js "Error"; errorMessage := message |}.

(** ** The stores, the file system and the advisor *)

Record IndexInfo : Type := {
  idxName : jsstring;
  idxKeys : list jsstring;
  idxUnique : option bool
}.

(** A row of [information_schema.columns]. *)
Record ColumnRow : Type := {
  column_name : jsstring;
  data_type : jsstring;
  is_nullable : jsstring
}.

(** How a call to the outside settles: the promise is fulfilled or rejected. *)
Inductive reply (A : Type) : Type :=
| Ok (a : A)
| Fails (e : jsError).
Arguments Ok {A} a.
Arguments Fails {A} e.

(** The calls the engine makes to the outside: the two database drivers, the
    file system and the advisor's API.  [cell] is the type of the values bound
    to the placeholders of an [INSERT]. *)
Inductive call (cell : Type) : Type :=
| NewMongoClient (url : jsstring)
| MongoConnect
| ParseUrl (url : jsstring)
| MongoClose
| ListCollections
| Sample (collection : jsstring) (size : Z)
| ListIndexes (collection : jsstring)
| FindOne (collection : jsstring)
| CountDocuments (collection : jsstring)
| Find (collection : jsstring) (skip limit : Z)
| NewPgClient (url : jsstring)
| PgConnect
| PgEnd
| QueryTableExists (table : jsstring)
| QueryColumns (table : jsstring)
| QueryPrimaryKey (table : jsstring)
| QueryCreateTable (table : jsstring) (columnDefinitions : list jsstring)
| QueryInsert (table : jsstring) (columnNames : list jsstring) (values : list cell)
    (conflictColumn : option jsstring)
| QueryStatement (statement : jsstring)
| FsAccess (path : jsstring)
| FsReadFile (path : jsstring)
| AiInterpretSchema (schema : CollectionSchema)
| AiSuggestColumnMapping (document : value) (schema : PostgresTableSchema)
| AiSuggestDataTransformation (documents : list value) (schema : PostgresTableSchema)
| AiAnalyzeRelationships (schemas : list CollectionSchema).

Arguments NewMongoClient {cell} url.
Arguments MongoConnect {cell}.
Arguments ParseUrl {cell} url.
Arguments MongoClose {cell}.
Arguments ListCollections {cell}.
Arguments Sample {cell} collection size.
Arguments ListIndexes {cell} collection.
Arguments FindOne {cell} collection.
Arguments CountDocuments {cell} collection.
Arguments Find {cell} collection skip limit.
Arguments NewPgClient {cell} url.
Arguments PgConnect {cell}.
Arguments PgEnd {cell}.
Arguments QueryTableExists {cell} table.
Arguments QueryColumns {cell} table.
Arguments QueryPrimaryKey {cell} table.
Arguments QueryCreateTable {cell} table columnDefinitions.
Arguments QueryInsert {cell} table columnNames values conflictColumn.
Arguments QueryStatement {cell} statement.
Arguments FsAccess {cell} path.
Arguments FsReadFile {cell} path.
Arguments AiInterpretSchema {cell} schema.
Arguments AiSuggestColumnMapping {cell} document schema.
Arguments AiSuggestDataTransformation {cell} documents schema.
Arguments AiAnalyzeRelationships {cell} schemas.

(** What a call is answered with when it succeeds. *)
Definition response {cell : Type} (c : call cell) : Type :=
  match c with
  | ParseUrl _ => jsstring
  | ListCollections => list jsstring
  | Sample _ _ => list value
  | ListIndexes _ => list IndexInfo
  | FindOne _ => option value
  | CountDocuments _ => Z
  | Find _ _ _ => list value
  | QueryTableExists _ => bool
  | QueryColumns _ => list ColumnRow
  | QueryPrimaryKey _ => list jsstring
  | FsReadFile _ => jsstring
  | AiInterpretSchema _ => option PostgresTableSchema
  | AiSuggestColumnMapping _ _ => option (list ColumnMapping)
  | _ => unit
  end.

(** The outside of one run.  [world h c] is how the call [c] settles after
    the calls [h]; [now h] is the clock.  The two functions that compute the
    values of an [INSERT] from a document ([toString], [getNestedValue],
    [JSON.stringify]) are left open: they may return any value or raise.
    [toLowerCase] is the built-in of strings, which
    [createBasicColumnMappings] applies to the names of fields and columns. *)
Record Env : Type := {
  cell : Type;
  columnValue : value -> jsstring -> reply cell;
  mappedValue : value -> ColumnMapping -> reply cell;
  world : list (call cell) -> forall c : call cell, reply (response c);
  now : list (call cell) -> Z;
  toLowerCase : jsstring -> jsstring
}.

(** ** The migration engine (core/migration-engine.ts) with its collaborators
    (core/mongo-analyzer.ts, core/postgres-manager.ts, core/ai-assistant.ts) *)

Module Engine.

Inductive Mode : Type := AutoTables | PreExisting.

Record MigrationConfig : Type := {
  mongoUrl : jsstring;
  postgresUrl : jsstring;
  mode : Mode;
  openAiApiKey : option jsstring;
  postgresDDL : option jsstring;
  batchSize : option Z
}.

(** Truthiness of an optional string: [undefined] and [''] are falsy. *)
Definition given (s : option jsstring) : bool :=
  match s with Some (_ :: _) => true | _ => false end.

(** [config.batchSize || 1000] *)
Definition batchSizeOf (config : MigrationConfig) : Z :=
  match batchSize config with
  | None | Some Z0 => 1000%Z
  | Some b => b
  end.

Definition initialResult : MigrationResult :=
  {| success := false; migratedCollections := []; errors := [];
     totalDocuments := 0%Z; migrationTime := 0%Z |}.

(** [string.split(separator)] for a separator of one code unit. *)
Fixpoint splitOn (separator : code_unit) (s current : jsstring) : list jsstring :=
  match s with
  | [] => [rev current]
  | c :: s' =>
      if N.eqb c separator then rev current :: splitOn separator s' []
      else splitOn separator s' (c :: current)
  end.

Section Run.

Variable env : Env.

(** The fields of the engine and of its collaborators, the calls made so far
    and the [result] object that [migrate] fills in. *)
Record state : Type := {
  history : list (call (cell env));
  mongoClient : bool;
  mongoDb : bool;
  pgClient : bool;
  openai : bool;
  tableRelationships : list TableRelationship;
  result : MigrationResult
}.

Definition logged (c : call (cell env)) (st : state) : state :=
  {| history := history st ++ [c]; mongoClient := mongoClient st;
     mongoDb := mongoDb st; pgClient := pgClient st; openai := openai st;
     tableRelationships := tableRelationships st; result := result st |}.

Definition setMongoClient (st : state) : state :=
  {| history := history st; mongoClient := true; mongoDb := mongoDb st;
     pgClient := pgClient st; openai := openai st;
     tableRelationships := tableRelationships st; result := result st |}.

Definition setMongoDb (st : state) : state :=
  {| history := history st; mongoClient := mongoClient st; mongoDb := true;
     pgClient := pgClient st; openai := openai st;
     tableRelationships := tableRelationships st; result := result st |}.

Definition setPgClient (st : state) : state :=
  {| history := history st; mongoClient := mongoClient st; mongoDb := mongoDb st;
     pgClient := true; openai := openai st;
     tableRelationships := tableRelationships st; result := result st |}.

Definition setTableRelationships (rels : list TableRelationship) (st : state) : state :=
  {| history := history st; mongoClient := mongoClient st; mongoDb := mongoDb st;
     pgClient := pgClient st; openai := openai st;
     tableRelationships := rels; result := result st |}.

Definition setResult (f : MigrationResult -> MigrationResult) (st : state) : state :=
  {| history := history st; mongoClient := mongoClient st; mongoDb := mongoDb st;
     pgClient := pgClient st; openai := openai st;
     tableRelationships := tableRelationships st; result := f (result st) |}.

(** One call to the outside: it is appended to the history and settles as the
    world says. *)
Definition perform (c : call (cell env)) : M state (response c) :=
  fun st =>
    match world env (history st) c with
    | Ok a => (Returned a, logged c st)
    | Fails e => (Thrown e, logged c st)
    end.

(** [Date.now()] *)
Definition clock : M state Z := fun st => (Returned (now env (history st)), st).

(** The values of one [INSERT], computed in order; the first failure is raised. *)
Fixpoint cells {A : Type} (f : A -> reply (cell env)) (l : list A)
  : M state (list (cell env)) :=
  match l with
  | [] => ret []
  | x :: l =>
      match f x with
      | Ok v => vs <~ cells f l ;; ret (v :: vs)
      | Fails e => throw e
      end
  end.

(** *** MongoAnalyzer *)

Definition mongoConnect (url : jsstring) : M state unit :=
  tryCatch
    (perform (NewMongoClient url) ;;;
     modify setMongoClient ;;;
     perform MongoConnect ;;;
     _dbName <~ perform (ParseUrl url) ;;
     modify setMongoDb)
    (fun error => throw error).

Definition mongoDisconnect : M state unit :=
  st <~ get ;;
  if mongoClient st then perform MongoClose else ret tt.

Definition requireDb : M state unit :=
  st <~ get ;;
  if mongoDb st then ret tt else throw (Error (js "Not connected to MongoDB")).

Definition getCollections : M state (list jsstring) :=
  requireDb ;;; perform ListCollections.

Definition indexSchemaOf (idx : IndexInfo) : IndexSchema :=
  {| indexFields := idxKeys idx; indexUnique := truthy (idxUnique idx);
     indexName := Some (idxName idx) |}.

Definition analyzeCollection (collectionName : jsstring) : M state CollectionSchema :=
  requireDb ;;;
  documents <~ perform (Sample collectionName 100) ;;
  match documents with
  | [] => ret {| collectionName := collectionName; fields := []; indexes := None |}
  | _ :: _ =>
      fieldMap <~ lift (MongoAnalyzer.analyzeDocuments documents JsMap.empty) ;;
      indexes <~ perform (ListIndexes collectionName) ;;
      ret {| collectionName := collectionName;
             fields := JsMap.values fieldMap;
             indexes :=
               Some (map indexSchemaOf
                       (filter (fun idx => negb (jsstring_eqb (idxName idx) (js "_id_")))
                          indexes)) |}
  end.

(** Modelled from the spec: [MongoAnalyzer.getSingleDocument] is called by the
    engine but is not in the sources; the document store is asked for one
    document and the answer is [null] when the collection is empty.  Like
    its sibling methods it needs the connection. *)
Definition getSingleDocument (collectionName : jsstring) : M state (option value) :=
  requireDb ;;; perform (FindOne collectionName).

Definition getDocumentCount (collectionName : jsstring) : M state Z :=
  requireDb ;;; perform (CountDocuments collectionName).

Definition getDocuments (collectionName : jsstring) (skip limit : Z) : M state (list value) :=
  requireDb ;;; perform (Find collectionName skip limit).

(** *** PostgresManager *)

Definition pgConnect (url : jsstring) : M state unit :=
  tryCatch
    (perform (NewPgClient url) ;;;
     modify setPgClient ;;;
     perform PgConnect)
    (fun error => throw error).

Definition pgDisconnect : M state unit :=
  st <~ get ;;
  if pgClient st then perform PgEnd else ret tt.

Definition requireClient : M state unit :=
  st <~ get ;;
  if pgClient st then ret tt else throw (Error (js "Not connected to PostgreSQL")).

Definition tableExists (tableName : jsstring) : M state bool :=
  requireClient ;;; perform (QueryTableExists tableName).

Definition columnOfRow (primaryKeyColumns : list jsstring) (row : ColumnRow) : ColumnSchema :=
  {| colName := column_name row;
     colType := Types.mapPostgresTypeToStandard (data_type row);
     nullable := jsstring_eqb (is_nullable row) (js "YES");
     primaryKey := Some (includes primaryKeyColumns (column_name row));
     unique := None |}.

Definition getTableSchema (tableName : jsstring) : M state (option PostgresTableSchema) :=
  requireClient ;;;
  exists_ <~ tableExists tableName ;;
  if negb exists_ then ret None
  else
    rows <~ perform (QueryColumns tableName) ;;
    primaryKeyColumns <~ perform (QueryPrimaryKey tableName) ;;
    ret (Some {| pgTableName := tableName;
                 columns := map (columnOfRow primaryKeyColumns) rows |}).

Definition columnDefinition (field : FieldSchema) : jsstring :=
  Utils.sanitizeIdentifier (Utils.replaceDots (fieldName field)) ++ js " " ++
  Types.typeText (Types.mapMongoTypeToPostgres (fieldType field) (isArray field)) ++ js " " ++
  (if isRequired field then js "NOT NULL" else js "NULL").

Definition createTableFromSchema (schema : CollectionSchema) : M state unit :=
  requireClient ;;;
  let tableName := Utils.sanitizeIdentifier (collectionName schema) in
  let columns :=
    [js "id SERIAL PRIMARY KEY"; js "mongo_id TEXT UNIQUE"] ++
    map columnDefinition
      (filter (fun field => negb (jsstring_eqb (fieldName field) (js "_id")))
         (fields schema)) in
  perform (QueryCreateTable tableName columns).

Definition tableMissing (sanitizedTableName : jsstring) : jsError :=
  Error (js "Table " ++ sanitizedTableName ++ js " does not exist").

Definition insertDocuments (tableName : jsstring) (documents : list value) : M state unit :=
  st <~ get ;;
  if negb (pgClient st) || Nat.eqb (length documents) 0 then ret tt
  else
    let sanitizedTableName := Utils.sanitizeIdentifier tableName in
    tableSchema <~ getTableSchema sanitizedTableName ;;
    match tableSchema with
    | None => throw (tableMissing sanitizedTableName)
    | Some tableSchema =>
        let columnNames :=
          filter (fun name => negb (jsstring_eqb name (js "id")))
            (map colName (columns tableSchema)) in
        forEachM
          (fun doc =>
             values <~ cells (columnValue env doc) columnNames ;;
             tryCatch
               (perform (QueryInsert sanitizedTableName columnNames values
                           (if includes columnNames (js "mongo_id")
                            then Some (js "mongo_id") else None)))
               (fun error => throw error))
          documents
    end.

Definition insertDocumentsWithMapping (tableName : jsstring) (documents : list value)
  (columnMappings : list ColumnMapping) : M state unit :=
  st <~ get ;;
  if negb (pgClient st) || Nat.eqb (length documents) 0 then ret tt
  else
    let sanitizedTableName := Utils.sanitizeIdentifier tableName in
    tableSchema <~ getTableSchema sanitizedTableName ;;
    match tableSchema with
    | None => throw (tableMissing sanitizedTableName)
    | Some tableSchema =>
        let existingColumns :=
          fold_left JsSet.add (map colName (columns tableSchema)) JsSet.empty in
        let validMappings :=
          filter (fun mapping => JsSet.has existingColumns (postgresColumn mapping))
            columnMappings in
        match validMappings with
        | [] => ret tt
        | _ :: _ =>
            forEachM
              (fun doc =>
                 values <~ cells (mappedValue env doc) validMappings ;;
                 let columnNames := map postgresColumn validMappings in
                 let uniqueColumn :=
                   find (fun col => truthy (unique col) || truthy (primaryKey col))
                     (columns tableSchema) in
                 tryCatch
                   (perform (QueryInsert sanitizedTableName columnNames values
                               (option_map colName uniqueColumn)))
                   (fun error => throw error))
              documents
        end
    end.

Definition executeDDL (ddlPath : jsstring) : M state unit :=
  requireClient ;;;
  tryCatch
    (ddlContent <~ perform (FsReadFile ddlPath) ;;
     let statements :=
       filter (fun stmt => negb (Nat.eqb (length stmt) 0))
         (map Regex.trim (splitOn 59%N ddlContent [])) in
     forEachM (fun statement => perform (QueryStatement statement)) statements)
    (fun error => throw error).

(** *** AIAssistant: every method answers [null] without a client and when
    anything inside its [try] fails. *)

Definition interpretSchema (mongoSchema : CollectionSchema)
  : M state (option PostgresTableSchema) :=
  st <~ get ;;
  if negb (openai st) then ret None
  else tryCatch (perform (AiInterpretSchema mongoSchema)) (fun _ => ret None).

Definition suggestColumnMapping (mongoDocument : value) (postgresSchema : PostgresTableSchema)
  : M state (option (list ColumnMapping)) :=
  st <~ get ;;
  if negb (openai st) then ret None
  else tryCatch (perform (AiSuggestColumnMapping mongoDocument postgresSchema))
         (fun _ => ret None).

(** It only logs the suggestion and always answers [null]. *)
Definition suggestDataTransformation (mongoData : list value)
  (targetSchema : PostgresTableSchema) : M state (option (list value)) :=
  st <~ get ;;
  if negb (openai st) || Nat.eqb (length mongoData) 0 then ret None
  else tryCatch
         (perform (AiSuggestDataTransformation mongoData targetSchema) ;;; ret None)
         (fun _ => ret None).

Definition analyzeRelationships (schemas : list CollectionSchema) : M state unit :=
  st <~ get ;;
  if negb (openai st) || Nat.eqb (length schemas) 0 then ret tt
  else tryCatch (perform (AiAnalyzeRelationships schemas)) (fun _ => ret tt).

(** *** MigrationEngine *)

Definition pushError (message : jsstring) : M state unit :=
  modify (setResult (fun r =>
    {| success := success r; migratedCollections := migratedCollections r;
       errors := errors r ++ [message]; totalDocuments := totalDocuments r;
       migrationTime := migrationTime r |})).

(** [result.migratedCollections.push(name); result.totalDocuments += migratedCount] *)
Definition recordMigrated (name : jsstring) (migratedCount : Z) : M state unit :=
  modify (setResult (fun r =>
    {| success := success r; migratedCollections := migratedCollections r ++ [name];
       errors := errors r; totalDocuments := (totalDocuments r + migratedCount)%Z;
       migrationTime := migrationTime r |})).

Definition parseDDLForRelationships (ddlPath : jsstring) : M state unit :=
  tryCatch
    (perform (FsAccess ddlPath) ;;;
     ddlContent <~ perform (FsReadFile ddlPath) ;;
     relationships <~ lift (DDLParser.parseRelationships ddlContent) ;;
     modify (setTableRelationships relationships))
    (fun _ => ret tt).

Definition executeDDLScript (ddlPath : jsstring) : M state unit :=
  tryCatch
    (perform (FsAccess ddlPath) ;;;
     executeDDL ddlPath ;;;
     parseDDLForRelationships ddlPath)
    (fun error => throw error).

(** The batch loop of [migrateCollection]:
    [for (let skip = 0; skip < totalDocs; skip += batchSize)]. *)
Fixpoint autoBatches (fuel : nat) (schema : CollectionSchema) (config : MigrationConfig)
  (targetSchema : option PostgresTableSchema) (totalDocs skip migratedCount : Z)
  : M state Z :=
  if Z.ltb skip totalDocs then
    match fuel with
    | O => lift OutOfFuel
    | S fuel =>
        documents <~ getDocuments (collectionName schema) skip (batchSizeOf config) ;;
        match documents with
        | [] => ret migratedCount
        | _ :: _ =>
            transformedDocs <~
              match given (openAiApiKey config), targetSchema with
              | true, Some targetSchema =>
                  aiTransformed <~ suggestDataTransformation documents targetSchema ;;
                  ret (match aiTransformed with
                       | Some transformed => transformed
                       | None => documents
                       end)
              | _, _ => ret documents
              end ;;
            insertDocuments (collectionName schema) transformedDocs ;;;
            autoBatches fuel schema config targetSchema totalDocs
              (skip + batchSizeOf config)%Z
              (migratedCount + Z.of_nat (length documents))%Z
        end
    end
  else ret migratedCount.

Definition migrateCollection (schema : CollectionSchema) (config : MigrationConfig)
  : M state unit :=
  targetSchema <~
    (if given (openAiApiKey config) then interpretSchema schema else ret None) ;;
  createTableFromSchema schema ;;;
  totalDocs <~ getDocumentCount (collectionName schema) ;;
  migratedCount <~
    autoBatches (Z.to_nat totalDocs) schema config targetSchema totalDocs 0 0 ;;
  recordMigrated (collectionName schema) migratedCount.

(** The first part of [migrateCollectionToExistingTable]: the advisor's
    mappings when it gives some, the fallback otherwise. *)
Definition resolveColumnMappings (mongoSchema : CollectionSchema)
  (pgSchema : PostgresTableSchema) (sampleDocument : value) (config : MigrationConfig)
  : M state (list ColumnMapping) :=
  columnMappings <~
    (if given (openAiApiKey config)
     then suggestColumnMapping sampleDocument pgSchema else ret None) ;;
  match columnMappings with
  | Some (m :: ms) => ret (m :: ms)
  | Some [] | None =>
      ret (Mapping.createBasicColumnMappings (toLowerCase env) mongoSchema pgSchema)
  end.

(** The batch loop of [migrateCollectionToExistingTable]. *)
Fixpoint mappedBatches (fuel : nat) (mongoSchema : CollectionSchema)
  (config : MigrationConfig) (columnMappings : list ColumnMapping)
  (totalDocs skip migratedCount : Z) : M state Z :=
  if Z.ltb skip totalDocs then
    match fuel with
    | O => lift OutOfFuel
    | S fuel =>
        documents <~ getDocuments (collectionName mongoSchema) skip (batchSizeOf config) ;;
        match documents with
        | [] => ret migratedCount
        | _ :: _ =>
            insertDocumentsWithMapping (collectionName mongoSchema) documents
              columnMappings ;;;
            mappedBatches fuel mongoSchema config columnMappings totalDocs
              (skip + batchSizeOf config)%Z
              (migratedCount + Z.of_nat (length documents))%Z
        end
    end
  else ret migratedCount.

Definition migrateCollectionToExistingTable (mongoSchema : CollectionSchema)
  (pgSchema : PostgresTableSchema) (sampleDocument : value) (config : MigrationConfig)
  : M state unit :=
  columnMappings <~ resolveColumnMappings mongoSchema pgSchema sampleDocument config ;;
  totalDocs <~ getDocumentCount (collectionName mongoSchema) ;;
  migratedCount <~
    mappedBatches (Z.to_nat totalDocs) mongoSchema config columnMappings totalDocs 0 0 ;;
  recordMigrated (collectionName mongoSchema) migratedCount.

(** The first loop of [migrateWithAutoTables]. *)
Fixpoint analyzeAll (collections : list jsstring) (schemas : list CollectionSchema)
  : M state (list CollectionSchema) :=
  match collections with
  | [] => ret schemas
  | collectionName :: collections =>
      schemas <~
        tryCatch
          (schema <~ analyzeCollection collectionName ;; ret (schemas ++ [schema]))
          (fun error =>
             pushError (js "Failed to analyze collection " ++ collectionName ++
                        js ": " ++ errorText error) ;;;
             ret schemas) ;;
      analyzeAll collections schemas
  end.

Definition migrateWithAutoTables (collections : list jsstring) (config : MigrationConfig)
  : M state unit :=
  schemas <~ analyzeAll collections [] ;;
  (if given (openAiApiKey config) && Nat.ltb 1 (length schemas)
   then analyzeRelationships schemas else ret tt) ;;;
  st <~ get ;;
  migrationOrder <~
    lift (DDLParser.getInsertionOrder (map collectionName schemas)
            (tableRelationships st)) ;;
  forEachM
    (fun name =>
       match find (fun s => jsstring_eqb (collectionName s) name) schemas with
       | Some schema =>
           tryCatch (migrateCollection schema config)
             (fun error =>
                pushError (js "Failed to migrate collection " ++ collectionName schema ++
                           js ": " ++ errorText error))
       | None => ret tt
       end)
    migrationOrder.

(** The [try] block of the loop of [migrateWithExistingTables]. *)
Definition migrateExisting (collectionName : jsstring) (config : MigrationConfig)
  : M state unit :=
  tableExists_ <~ tableExists collectionName ;;
  if negb tableExists_ then ret tt
  else
    mongoSchema <~ analyzeCollection collectionName ;;
    pgSchema <~ getTableSchema collectionName ;;
    match pgSchema with
    | None => ret tt
    | Some pgSchema =>
        sampleDoc <~ getSingleDocument collectionName ;;
        match sampleDoc with
        | None => ret tt
        | Some sampleDoc =>
            migrateCollectionToExistingTable mongoSchema pgSchema sampleDoc config
        end
    end.

Definition migrateWithExistingTables (collections : list jsstring)
  (config : MigrationConfig) : M state unit :=
  st <~ get ;;
  migrationOrder <~
    lift (DDLParser.getInsertionOrder collections (tableRelationships st)) ;;
  forEachM
    (fun collectionName =>
       tryCatch (migrateExisting collectionName config)
         (fun error =>
            pushError (js "Failed to migrate collection " ++ collectionName ++
                       js ": " ++ errorText error)))
    migrationOrder.

(** The [try] block of [migrate]. *)
Definition migrateBody (config : MigrationConfig) (startTime : Z) : M state unit :=
  mongoConnect (mongoUrl config) ;;;
  pgConnect (postgresUrl config) ;;;
  match postgresDDL config with
  | Some (c :: path) =>
      match mode config with
      | AutoTables => executeDDLScript (c :: path)
      | PreExisting => parseDDLForRelationships (c :: path)
      end
  | Some [] | None => ret tt
  end ;;;
  collections <~ getCollections ;;
  match mode config with
  | AutoTables => migrateWithAutoTables collections config
  | PreExisting => migrateWithExistingTables collections config
  end ;;;
  modify (setResult (fun r =>
    {| success := Nat.eqb (length (errors r)) 0;
       migratedCollections := migratedCollections r; errors := errors r;
       totalDocuments := totalDocuments r; migrationTime := migrationTime r |})) ;;;
  endTime <~ clock ;;
  modify (setResult (fun r =>
    {| success := success r; migratedCollections := migratedCollections r;
       errors := errors r; totalDocuments := totalDocuments r;
       migrationTime := (endTime - startTime)%Z |})).

(** [migrate(config)]: the thrown values are all [Error]s, so the [catch]
    records [error.message]. *)
Definition migrate (config : MigrationConfig) : M state MigrationResult :=
  startTime <~ clock ;;
  modify (setResult (fun _ => initialResult)) ;;;
  tryFinally
    (tryCatch (migrateBody config startTime)
       (fun error => pushError (errorMessage error)))
    (mongoDisconnect ;;; pgDisconnect) ;;;
  st <~ get ;;
  ret (result st).

End Run.

(** The engine as [new MigrationEngine(config)] leaves it. *)
Definition newEngine (env : Env) (config : MigrationConfig) : state env :=
  {| history := []; mongoClient := false; mongoDb := false; pgClient := false;
     openai := given (openAiApiKey config); tableRelationships := [];
     result := initialResult |}.

End Engine.

(** ** utils/index.ts: chunkArray *)

Module Chunks.

(** Where [array.slice] puts a bound: a negative one counts from the end, and
    both are clamped to the array. *)
Definition relativeIndex (len k : Z) : Z :=
  if (k <? 0)%Z then Z.max (len + k) 0 else Z.min k len.

(** [array.slice(start, end)] *)
Definition slice {A : Type} (array : list A) (start end_ : Z) : list A :=
  let len := Z.of_nat (length array) in
  let from := relativeIndex len start in
  let to := relativeIndex len end_ in
  firstn (Z.to_nat (to - from)) (skipn (Z.to_nat from) array).

(** [for (let i = 0; i < array.length; i += chunkSize)
       chunks.push(array.slice(i, i + chunkSize))],
    for a chunk size that is an integer; every iteration takes one unit of
    [fuel]. *)
Fixpoint chunkLoop {A : Type} (fuel : nat) (array : list A) (chunkSize i : Z)
  (chunks : list (list A)) : outcome (list (list A)) :=
  if (i <? Z.of_nat (length array))%Z then
    match fuel with
    | O => OutOfFuel
    | S fuel =>
        chunkLoop fuel array chunkSize (i + chunkSize)%Z
          (chunks ++ [slice array i (i + chunkSize)%Z])
    end
  else Returned chunks.

Definition chunkArray {A : Type} (array : list A) (chunkSize : Z)
  : outcome (list (list A)) :=
  chunkLoop (length array) array chunkSize 0 [].

End Chunks.

(** ** PostgresManager: from columns back to fields (core/postgres-manager.ts) *)

Module PostgresManager.

(** The name [createTableFromSchema] gives to the column of a field:
    [sanitizeIdentifier(field.name.replace(/\./g, '_'))]. *)
Definition columnNameOf (fieldName : jsstring) : jsstring :=
  Utils.sanitizeIdentifier (Utils.replaceDots fieldName).

(** The field [insertDocuments] reads for a column:
    [columnName.replace(/_/g, '.')]. *)
Definition fieldNameOfColumn (columnName : jsstring) : jsstring :=
  map (fun c => if N.eqb c Utils.underscore then Utils.dot else c) columnName.

Section Nested.

(** What [key in v] finds, and [v[key]] holds, besides the entries that
    [Object.entries(v)] lists and the [length] of an array: the properties a
    value inherits from its prototypes and its own properties that are not
    enumerable.  A method found this way is, like [VOther], no object to
    [typeof]. *)
Variable inherited : value -> jsstring -> option value.

Definition ownProperties (v : value) : list (jsstring * value) :=
  match v with
  | VArray items => indexed 0 items ++ [(js "length", VNumber (Z.of_nat (length items)))]
  | _ => entriesOf v
  end.

(** [current[key]] when [key in current], for an object [current]. *)
Definition property (current : value) (key : jsstring) : option value :=
  match JsMap.get (ownProperties current) key with
  | Some v => Some v
  | None => inherited current key
  end.

(** The loop [for (const key of keys)] of [getNestedValue]. *)
Fixpoint walk (current : value) (keys : list jsstring) : value :=
  match keys with
  | [] => current
  | key :: keys =>
      if isObject current then
        match property current key with
        | Some v => walk v keys
        | None => VNull
        end
      else VNull
  end.

Definition getNestedValue (obj : value) (path : jsstring) : value :=
  if isObject obj then walk obj (Engine.splitOn Utils.dot path []) else VNull.

(** [(doc as any)?._id?.toString() || null] and [JSON.stringify(value)], left
    open: they may return any value or raise. *)
Variable mongoIdOf : value -> outcome value.
Variable stringify : value -> outcome value.

(** The columns [insertDocuments] lists in its [INSERT]:
    [tableSchema.columns.map(col => col.name).filter(name => name !== 'id')]. *)
Definition listedColumns (columnNames : list jsstring) : list jsstring :=
  filter (fun name => negb (jsstring_eqb name (js "id"))) columnNames.

(** [if (value && typeof value === 'object' && !(value instanceof Date))
       value = JSON.stringify(value)] *)
Definition jsonIfObject (v : value) : outcome value :=
  if isObject v && negb (isDate v) then stringify v else Returned v.

(** The value [insertDocuments] binds for a listed column: the text of [_id]
    for [mongo_id], and for any other column what [getNestedValue] finds under
    the column's name with its underscores turned into dots. *)
Definition columnSource (doc : value) (columnName : jsstring) : outcome value :=
  if jsstring_eqb columnName (js "mongo_id") then mongoIdOf doc
  else
    let fieldName := fieldNameOfColumn columnName in
    jsonIfObject (getNestedValue doc fieldName).

End Nested.

End PostgresManager.

(** * Part II: the properties *)

(** ** Strings, maps and sets *)

Lemma jsstring_eqb_eq (a b : jsstring) : jsstring_eqb a b = true <-> a = b.
Proof.
  revert b; induction a as [|x a IH]; intros [|y b]; simpl; try (split; congruence).
  rewrite andb_true_iff, N.eqb_eq, IH. split.
  - intros [-> ->]; reflexivity.
  - intros H; inversion H; auto.
Qed.

Lemma jsstring_eqb_refl (a : jsstring) : jsstring_eqb a a = true.
Proof. apply jsstring_eqb_eq; reflexivity. Qed.

Lemma jsstring_eqb_neq (a b : jsstring) : jsstring_eqb a b = false <-> a <> b.
Proof.
  rewrite <- jsstring_eqb_eq. destruct (jsstring_eqb a b); split; congruence.
Qed.

Lemma jsstring_eqb_sym (a b : jsstring) : jsstring_eqb a b = jsstring_eqb b a.
Proof.
  destruct (jsstring_eqb b a) eqn:E.
  - apply jsstring_eqb_eq in E; subst; apply jsstring_eqb_refl.
  - apply jsstring_eqb_neq in E; apply jsstring_eqb_neq; congruence.
Qed.

Lemma jsstring_eq_dec (a b : jsstring) : {a = b} + {a <> b}.
Proof.
  destruct (jsstring_eqb a b) eqn:E.
  - left; apply jsstring_eqb_eq; assumption.
  - right; apply jsstring_eqb_neq; assumption.
Qed.

Lemma includes_In (l : list jsstring) (x : jsstring) : includes l x = true <-> In x l.
Proof.
  unfold includes. rewrite existsb_exists. split.
  - intros (y & Hy & E). apply jsstring_eqb_eq in E; subst; assumption.
  - intros H; exists x; split; [assumption | apply jsstring_eqb_refl].
Qed.

Lemma includes_not_In (l : list jsstring) (x : jsstring) :
  includes l x = false <-> ~ In x l.
Proof.
  rewrite <- includes_In. destruct (includes l x); split; congruence.
Qed.

Lemma set_has_In (s : JsSet.t) (x : jsstring) : JsSet.has s x = true <-> In x s.
Proof. apply includes_In. Qed.

Lemma set_has_add (s : JsSet.t) (x y : jsstring) :
  JsSet.has (JsSet.add s x) y = JsSet.has s y || jsstring_eqb y x.
Proof.
  unfold JsSet.add. destruct (JsSet.has s x) eqn:E.
  - destruct (jsstring_eqb y x) eqn:Eyx; [|rewrite orb_false_r; reflexivity].
    apply jsstring_eqb_eq in Eyx; subst. rewrite E; reflexivity.
  - unfold JsSet.has. rewrite existsb_app; simpl. rewrite orb_false_r; reflexivity.
Qed.

Lemma set_add_NoDup (s : JsSet.t) (x : jsstring) : NoDup s -> NoDup (JsSet.add s x).
Proof.
  intros H. unfold JsSet.add. destruct (JsSet.has s x) eqn:E; [assumption|].
  apply NoDup_app; [assumption | repeat constructor; simpl; tauto |].
  intros y Hy [<- | []]. apply set_has_In in Hy. congruence.
Qed.

Lemma set_add_In (s : JsSet.t) (x y : jsstring) :
  In y (JsSet.add s x) <-> In y s \/ y = x.
Proof.
  rewrite <- !set_has_In, set_has_add, orb_true_iff, jsstring_eqb_eq; reflexivity.
Qed.

Section MapFacts.
Context {V : Type}.
Implicit Types (m : JsMap.t V) (k : jsstring) (v : V).

Lemma map_has_In m k : JsMap.has m k = true <-> In k (JsMap.keys m).
Proof.
  unfold JsMap.has. induction m as [|[k' v'] m IH]; simpl.
  - split; [discriminate | tauto].
  - destruct (jsstring_eqb k k') eqn:E.
    + apply jsstring_eqb_eq in E; subst. split; auto.
    + apply jsstring_eqb_neq in E. rewrite IH. split; [auto | intros [?|?]; congruence].
Qed.

Lemma map_get_In m k : In k (JsMap.keys m) -> exists v, JsMap.get m k = Some v.
Proof.
  intros H. apply map_has_In in H. unfold JsMap.has in H.
  destruct (JsMap.get m k) as [v|]; [exists v; reflexivity | discriminate].
Qed.

Lemma map_get_Some_In m k v : JsMap.get m k = Some v -> In k (JsMap.keys m).
Proof. intros H. apply map_has_In. unfold JsMap.has. rewrite H; reflexivity. Qed.

Lemma map_get_set_same m k v : JsMap.get (JsMap.set m k v) k = Some v.
Proof.
  induction m as [|[k' v'] m IH]; simpl.
  - rewrite jsstring_eqb_refl; reflexivity.
  - destruct (jsstring_eqb k k') eqn:E; simpl; rewrite E; auto.
Qed.

Lemma map_get_set_other m k k' v :
  k <> k' -> JsMap.get (JsMap.set m k v) k' = JsMap.get m k'.
Proof.
  intros Hne. induction m as [|[k0 v0] m IH]; simpl.
  - assert (jsstring_eqb k' k = false) as -> by (apply jsstring_eqb_neq; congruence).
    reflexivity.
  - destruct (jsstring_eqb k k0) eqn:E; simpl.
    + apply jsstring_eqb_eq in E; subst k0.
      assert (jsstring_eqb k' k = false) as -> by (apply jsstring_eqb_neq; congruence).
      reflexivity.
    + rewrite IH; reflexivity.
Qed.

Lemma map_keys_set_present m k v :
  In k (JsMap.keys m) -> JsMap.keys (JsMap.set m k v) = JsMap.keys m.
Proof.
  induction m as [|[k' v'] m IH]; simpl; [tauto|].
  intros H. destruct (jsstring_eqb k k') eqn:E; simpl; [reflexivity|].
  apply jsstring_eqb_neq in E. f_equal. apply IH. destruct H; congruence.
Qed.

Lemma map_keys_set_absent m k v :
  ~ In k (JsMap.keys m) -> JsMap.keys (JsMap.set m k v) = JsMap.keys m ++ [k].
Proof.
  induction m as [|[k' v'] m IH]; simpl; [reflexivity|].
  intros H. destruct (jsstring_eqb k k') eqn:E; simpl.
  - apply jsstring_eqb_eq in E; subst; tauto.
  - f_equal. apply IH. tauto.
Qed.

End MapFacts.

(** ** Counting with [filter] *)

Lemma filter_length_split (f g : jsstring -> bool) (p : jsstring) (l : list jsstring) :
  NoDup l -> In p l -> (forall x, x <> p -> f x = g x) -> g p = false ->
  length (filter f l) = length (filter g l) + (if f p then 1 else 0).
Proof.
  intros Hnd Hin Hfg Hgp. induction Hnd as [|x l Hx Hnd IH]; simpl; [contradiction|].
  destruct (jsstring_eq_dec x p) as [-> | Hne].
  - rewrite Hgp.
    assert (E : filter f l = filter g l).
    { apply filter_ext_in. intros y Hy. apply Hfg. intros ->; contradiction. }
    rewrite E. destruct (f p); simpl; lia.
  - rewrite (Hfg x Hne). destruct Hin as [?|Hin]; [contradiction|].
    specialize (IH Hin). destruct (g x); simpl; lia.
Qed.

Lemma filter_length_le_except (f g : jsstring -> bool) (p : jsstring) (l : list jsstring) :
  NoDup l -> (forall x, x <> p -> f x = g x) ->
  length (filter f l) <= length (filter g l) + 1.
Proof.
  intros Hnd Hfg. induction Hnd as [|x l Hx Hnd IH]; simpl; [lia|].
  destruct (jsstring_eq_dec x p) as [-> | Hne].
  - assert (E : filter f l = filter g l).
    { apply filter_ext_in. intros y Hy. apply Hfg. intros ->; contradiction. }
    rewrite E. destruct (f p), (g p); simpl; lia.
  - rewrite (Hfg x Hne). destruct (g x); simpl; lia.
Qed.

(** ** The dependency graph built by [getInsertionOrder] *)

(** The dependents recorded for [p]: the tables that reference it. *)
Definition succs (graph : JsMap.t JsSet.t) (p : jsstring) : JsSet.t :=
  match JsMap.get graph p with Some d => d | None => [] end.

(** How many tables that [t] depends on are not in [done] yet. *)
Definition pending (graph : JsMap.t JsSet.t) (done : list jsstring) (t : jsstring) : nat :=
  length (filter (fun p => JsSet.has (succs graph p) t && negb (includes done p))
            (JsMap.keys graph)).

(** A relationship is kept when both of its tables are in the working set. *)
Definition kept (tables : list jsstring) (r : TableRelationship) : bool :=
  includes tables (tableName r) && includes tables (referencedTable r).

(** How many kept relationships make [t] depend on some table. *)
Definition edgeCount (tables : list jsstring) (rels : list TableRelationship)
  (t : jsstring) : nat :=
  length (filter (fun r => kept tables r && jsstring_eqb (tableName r) t) rels).

(** The tables no kept relationship makes dependent, in input order. *)
Definition readyTables (tables : list jsstring) (rels : list TableRelationship)
  : list jsstring :=
  filter (fun t => Nat.eqb (edgeCount tables rels t) 0) tables.

Record graph_ok (graph : JsMap.t JsSet.t) : Prop := {
  keys_NoDup : NoDup (JsMap.keys graph);
  succs_NoDup : forall p, NoDup (succs graph p);
  succs_keys : forall p, incl (succs graph p) (JsMap.keys graph)
}.

Lemma initGraph_from (tables : list jsstring) :
  forall (g : JsMap.t JsSet.t) (d : JsMap.t jsnum),
    JsMap.keys g = JsMap.keys d -> NoDup (JsMap.keys g) ->
    (forall p, succs g p = []) ->
    (forall t v, JsMap.get d t = Some v -> v = Num 0) ->
    let '(g', d') :=
      fold_left (fun '(graph, inDegree) table =>
                   (JsMap.set graph table JsSet.empty, JsMap.set inDegree table (Num 0)))
        tables (g, d) in
    JsMap.keys g' = JsMap.keys d' /\ NoDup (JsMap.keys g') /\
    (forall p, succs g' p = []) /\
    (forall t v, JsMap.get d' t = Some v -> v = Num 0) /\
    (forall t, In t (JsMap.keys g') <-> In t (JsMap.keys g) \/ In t tables) /\
    (NoDup (JsMap.keys g ++ tables) -> JsMap.keys g' = JsMap.keys g ++ tables).
Proof.
  induction tables as [|x tables IH]; intros g d Hk Hnd Hs Hz; simpl.
  - repeat split; auto; try tauto. intros _; rewrite app_nil_r; reflexivity.
  - set (g1 := JsMap.set g x JsSet.empty). set (d1 := JsMap.set d x (Num 0)).
    assert (Hk1 : JsMap.keys g1 = JsMap.keys d1).
    { unfold g1, d1. destruct (in_dec jsstring_eq_dec x (JsMap.keys g)) as [Hin|Hin].
      - rewrite !map_keys_set_present; congruence.
      - rewrite !map_keys_set_absent; congruence. }
    assert (Hkeys1 : forall t, In t (JsMap.keys g1) <-> In t (JsMap.keys g) \/ t = x).
    { intros t. unfold g1. destruct (in_dec jsstring_eq_dec x (JsMap.keys g)) as [Hin|Hin].
      - rewrite map_keys_set_present by assumption. split; [auto | intros [? | ->]; auto].
      - rewrite map_keys_set_absent by assumption. rewrite in_app_iff; simpl.
        split; intros [?|?]; auto; try tauto. destruct H; auto; tauto. }
    assert (Hnd1 : NoDup (JsMap.keys g1)).
    { unfold g1. destruct (in_dec jsstring_eq_dec x (JsMap.keys g)) as [Hin|Hin].
      - rewrite map_keys_set_present; assumption.
      - rewrite map_keys_set_absent by assumption.
        apply NoDup_app; [assumption | repeat constructor; simpl; tauto |].
        intros y Hy [<- | []]; contradiction. }
    assert (Hs1 : forall p, succs g1 p = []).
    { intros p. unfold succs, g1. destruct (jsstring_eq_dec x p) as [-> | Hne].
      - rewrite map_get_set_same; reflexivity.
      - rewrite map_get_set_other by assumption. apply Hs. }
    assert (Hz1 : forall t v, JsMap.get d1 t = Some v -> v = Num 0).
    { intros t v. unfold d1. destruct (jsstring_eq_dec x t) as [-> | Hne].
      - rewrite map_get_set_same; congruence.
      - rewrite map_get_set_other by assumption. apply Hz. }
    specialize (IH g1 d1 Hk1 Hnd1 Hs1 Hz1).
    destruct (fold_left _ tables (g1, d1)) as [g' d'].
    destruct IH as (H1 & H2 & H3 & H4 & H5 & H6).
    repeat split; auto.
    + intros H; apply H5 in H. rewrite Hkeys1 in H. simpl. intuition auto.
    + intros H; apply H5. rewrite Hkeys1. simpl in H. intuition auto.
    + intros Hnd'. assert (Hx : ~ In x (JsMap.keys g)).
      { intros Hx. apply NoDup_remove_2 in Hnd'. apply Hnd'. apply in_or_app; auto. }
      assert (E : JsMap.keys g1 = JsMap.keys g ++ [x])
        by (apply map_keys_set_absent; assumption).
      rewrite H6; rewrite E, <- app_assoc; simpl; [reflexivity | assumption].
Qed.

Lemma initGraph_ok (tables : list jsstring) :
  let '(g, d) := DDLParser.initGraph tables in
  JsMap.keys g = JsMap.keys d /\ graph_ok g /\
  (forall p, succs g p = []) /\
  (forall t, In t (JsMap.keys g) -> JsMap.get d t = Some (Num 0)) /\
  (forall t, In t (JsMap.keys g) <-> In t tables) /\
  (NoDup tables -> JsMap.keys g = tables).
Proof.
  unfold DDLParser.initGraph.
  pose proof (initGraph_from tables (@JsMap.empty JsSet.t) (@JsMap.empty jsnum)) as H.
  destruct (fold_left _ tables (JsMap.empty, JsMap.empty)) as [g d].
  destruct H as (H1 & H2 & H3 & H4 & H5 & H6).
  { reflexivity. }
  { constructor. }
  { intros p; reflexivity. }
  { intros t v; discriminate. }
  repeat split; auto.
  - intros p; rewrite H3; constructor.
  - intros p; rewrite H3; intros x [].
  - intros t Ht. rewrite H1 in Ht. destruct (map_get_In _ _ Ht) as [v Hv].
    rewrite Hv; f_equal; eapply H4; eassumption.
  - intros Ht; apply H5 in Ht; simpl in Ht; tauto.
  - intros Ht; apply H5; auto.
Qed.

Lemma succs_set_same (g : JsMap.t JsSet.t) (k : jsstring) (v : JsSet.t) :
  succs (JsMap.set g k v) k = v.
Proof. unfold succs; rewrite map_get_set_same; reflexivity. Qed.

Lemma succs_set_other (g : JsMap.t JsSet.t) (k p : jsstring) (v : JsSet.t) :
  k <> p -> succs (JsMap.set g k v) p = succs g p.
Proof. intros H; unfold succs; rewrite map_get_set_other by assumption; reflexivity. Qed.

Lemma edgeCount_app (tables : list jsstring) (rels : list TableRelationship)
  (r : TableRelationship) (t : jsstring) :
  edgeCount tables (rels ++ [r]) t =
  edgeCount tables rels t +
  (if kept tables r && jsstring_eqb (tableName r) t then 1 else 0).
Proof.
  unfold edgeCount. rewrite filter_app, length_app. simpl.
  destruct (kept tables r && jsstring_eqb (tableName r) t); reflexivity.
Qed.

(** What the two maps hold once [rels] have been folded in. *)
Record build_ok (tables : list jsstring) (rels : list TableRelationship)
  (g : JsMap.t JsSet.t) (d : JsMap.t jsnum) : Prop := {
  b_tables : forall t, In t (JsMap.keys g) <-> In t tables;
  b_order : NoDup tables -> JsMap.keys g = tables;
  b_keys : JsMap.keys d = JsMap.keys g;
  b_graph : graph_ok g;
  b_degree : forall t, In t (JsMap.keys g) ->
             JsMap.get d t = Some (Num (Z.of_nat (edgeCount tables rels t)));
  b_edges : forall p t, In t (succs g p) <->
            exists r, In r rels /\ kept tables r = true /\
                      tableName r = t /\ referencedTable r = p
}.

Lemma buildGraph_ok (tables : list jsstring) (rels : list TableRelationship) :
  build_ok tables rels (fst (DDLParser.buildGraph tables rels))
                       (snd (DDLParser.buildGraph tables rels)).
Proof.
  unfold DDLParser.buildGraph.
  induction rels as [|r rels IH] using rev_ind.
  - simpl. pose proof (initGraph_ok tables) as H.
    destruct (DDLParser.initGraph tables) as [g d]; simpl.
    destruct H as (H1 & H2 & H3 & H4 & H5 & H6).
    constructor; auto.
    + intros p t. rewrite H3. split; [intros [] | intros (r & [] & _)].
  - rewrite fold_left_app; simpl.
    destruct (fold_left DDLParser.addRelationship rels (DDLParser.initGraph tables))
      as [g d]; simpl in *.
    destruct IH as [Ht Ho Hk Hg Hd He].
    assert (Hkept : JsMap.has g (tableName r) && JsMap.has g (referencedTable r)
                    = kept tables r).
    { unfold kept. f_equal.
      - destruct (includes tables (tableName r)) eqn:E.
        + apply map_has_In, Ht, includes_In; assumption.
        + destruct (JsMap.has g (tableName r)) eqn:E'; [|reflexivity].
          apply map_has_In, Ht, includes_In in E'. congruence.
      - destruct (includes tables (referencedTable r)) eqn:E.
        + apply map_has_In, Ht, includes_In; assumption.
        + destruct (JsMap.has g (referencedTable r)) eqn:E'; [|reflexivity].
          apply map_has_In, Ht, includes_In in E'. congruence. }
    unfold DDLParser.addRelationship. rewrite Hkept.
    destruct (kept tables r) eqn:Ekept.
    + assert (Hin_t : In (tableName r) (JsMap.keys g)).
      { apply Ht, includes_In. unfold kept in Ekept.
        apply andb_true_iff in Ekept; tauto. }
      assert (Hin_r : In (referencedTable r) (JsMap.keys g)).
      { apply Ht, includes_In. unfold kept in Ekept.
        apply andb_true_iff in Ekept; tauto. }
      destruct (map_get_In _ _ Hin_r) as [deps Hdeps]. rewrite Hdeps; simpl.
      assert (Hsuccs : succs g (referencedTable r) = deps)
        by (unfold succs; rewrite Hdeps; reflexivity).
      constructor.
      * intros t. rewrite map_keys_set_present by assumption. apply Ht.
      * intros Hnd. rewrite map_keys_set_present by assumption. auto.
      * rewrite !map_keys_set_present; congruence.
      * destruct Hg as [G1 G2 G3]. constructor.
        -- rewrite map_keys_set_present; assumption.
        -- intros p. destruct (jsstring_eq_dec (referencedTable r) p) as [<- | Hne].
           ++ rewrite succs_set_same. apply set_add_NoDup. rewrite <- Hsuccs; apply G2.
           ++ rewrite succs_set_other by assumption. apply G2.
        -- intros p. rewrite map_keys_set_present by assumption.
           destruct (jsstring_eq_dec (referencedTable r) p) as [<- | Hne].
           ++ rewrite succs_set_same. intros x Hx. apply set_add_In in Hx.
              destruct Hx as [Hx | ->]; [|assumption].
              apply (G3 (referencedTable r)). rewrite Hsuccs; assumption.
           ++ rewrite succs_set_other by assumption. apply G3.
      * intros t. rewrite map_keys_set_present by assumption. intros Hin.
        rewrite edgeCount_app, Ekept; simpl.
        destruct (jsstring_eq_dec (tableName r) t) as [<- | Hne].
        -- rewrite map_get_set_same, jsstring_eqb_refl, (Hd _ Hin_t). simpl.
           do 2 f_equal. lia.
        -- rewrite map_get_set_other by assumption.
           apply jsstring_eqb_neq in Hne; rewrite Hne, Nat.add_0_r. auto.
      * intros p t.
        assert (Hnew : In t (succs (JsMap.set g (referencedTable r)
                                      (JsSet.add deps (tableName r))) p) <->
                       In t (succs g p) \/
                       (tableName r = t /\ referencedTable r = p)).
        { destruct (jsstring_eq_dec (referencedTable r) p) as [<- | Hne].
          - rewrite succs_set_same, set_add_In, Hsuccs. intuition auto.
          - rewrite succs_set_other by assumption. intuition auto. }
        rewrite Hnew, He. split.
        -- intros [(r' & Hr' & H')|[H1 H2]].
           ++ exists r'; rewrite in_app_iff; tauto.
           ++ exists r; rewrite in_app_iff; simpl; auto.
        -- intros (r' & Hr' & H1 & H2 & H3). apply in_app_iff in Hr'.
           destruct Hr' as [Hr'|[<- | []]]; [left; exists r'; auto | right; auto].
    + simpl. constructor; auto.
      * intros t Hin. rewrite edgeCount_app, Ekept; simpl. rewrite Nat.add_0_r; auto.
      * intros p t. rewrite He. split.
        -- intros (r' & Hr' & H'). exists r'; rewrite in_app_iff; tauto.
        -- intros (r' & Hr' & H1 & H'). apply in_app_iff in Hr'.
           destruct Hr' as [Hr'|[<- | []]]; [exists r'; auto | congruence].
Qed.

(** ** The loop of Kahn's algorithm *)

Section Loop.

Variable graph : JsMap.t JsSet.t.
Hypothesis graph_wf : graph_ok graph.

(** How the stored in-degree of a table relates to the number of tables it
    still waits for: [<=] for every input, [=] when no edge is repeated. *)
Variable R : nat -> Z -> Prop.
Hypothesis R_le : forall n z, R n z -> (Z.of_nat n <= z)%Z.
Hypothesis R_pred : forall n z, R (S n) z -> R n (z - 1)%Z.

(** The state between two visits of dependents; [todo] are the dependents of
    the table just dequeued that are still to be visited. *)
Definition visit_inv (todo queue result : list jsstring) (inDegree : JsMap.t jsnum) : Prop :=
  NoDup (result ++ queue) /\
  incl (result ++ queue) (JsMap.keys graph) /\
  JsMap.keys inDegree = JsMap.keys graph /\
  forall t, In t (JsMap.keys graph) ->
    exists z, JsMap.get inDegree t = Some (Num z) /\
              R (pending graph result t + (if includes todo t then 1 else 0)) z /\
              (z = 0%Z <-> In t (result ++ queue)).

(** The state at the head of the [while] loop. *)
Definition loop_inv (queue result : list jsstring) (inDegree : JsMap.t jsnum) : Prop :=
  visit_inv [] queue result inDegree.

Lemma visitDependent_inv (x : jsstring) (todo queue result : list jsstring)
  (inDegree : JsMap.t jsnum) :
  visit_inv (x :: todo) queue result inDegree ->
  NoDup (x :: todo) -> In x (JsMap.keys graph) ->
  visit_inv todo (snd (DDLParser.visitDependent (inDegree, queue) x)) result
                 (fst (DDLParser.visitDependent (inDegree, queue) x)) /\
  exists more, snd (DDLParser.visitDependent (inDegree, queue) x) = queue ++ more.
Proof.
  intros (Hnd & Hincl & Hkeys & Hdeg) Hnd_todo Hx.
  destruct (Hdeg x Hx) as (z & Hz & HR & Hzero).
  assert (Hinc : includes (x :: todo) x = true) by (apply includes_In; left; reflexivity).
  rewrite Hinc, Nat.add_1_r in HR.
  assert (Hpos : (1 <= z)%Z) by (apply R_le in HR; lia).
  assert (Hnotin : ~ In x (result ++ queue)) by (intros H; apply Hzero in H; lia).
  assert (Hx_todo : includes todo x = false).
  { apply includes_not_In. inversion Hnd_todo; assumption. }
  unfold DDLParser.visitDependent. rewrite Hz. simpl DDLParser.decrDegree.
  rewrite map_get_set_same. simpl DDLParser.isZero.
  assert (Hkeys' : JsMap.keys (JsMap.set inDegree x (Num (z - 1))) = JsMap.keys graph).
  { rewrite map_keys_set_present; [assumption | rewrite Hkeys; assumption]. }
  assert (Hother : forall t, t <> x -> includes (x :: todo) t = includes todo t).
  { intros t Hne. unfold includes; simpl.
    apply jsstring_eqb_neq in Hne; rewrite Hne; reflexivity. }
  destruct (Z.eqb_spec (z - 1) 0) as [Ez|Ez]; simpl.
  - split; [|exists [x]; reflexivity].
    repeat split.
    + rewrite app_assoc. apply NoDup_app; [assumption | repeat constructor; simpl; tauto |].
      intros y Hy [<- | []]; contradiction.
    + rewrite app_assoc. apply incl_app; [assumption|]. intros y [<- | []]; assumption.
    + assumption.
    + intros t Ht. destruct (jsstring_eq_dec t x) as [-> | Hne].
      * exists (z - 1)%Z. rewrite map_get_set_same, Hx_todo, Nat.add_0_r.
        repeat split; auto using R_pred.
        intros _. rewrite app_assoc; apply in_or_app; right; left; reflexivity.
      * destruct (Hdeg t Ht) as (zt & Hzt & HRt & Hzt0). exists zt.
        rewrite map_get_set_other by congruence. rewrite <- Hother by assumption.
        repeat split; auto.
        -- intros H; apply Hzt0 in H. rewrite app_assoc; apply in_or_app; auto.
        -- intros H. apply Hzt0. rewrite app_assoc in H. apply in_app_or in H.
           destruct H as [H|[H|[]]]; [assumption | congruence].
  - split; [|exists []; rewrite app_nil_r; reflexivity].
    repeat split; auto.
    intros t Ht. destruct (jsstring_eq_dec t x) as [-> | Hne].
    + exists (z - 1)%Z. rewrite map_get_set_same, Hx_todo, Nat.add_0_r.
      repeat split; auto using R_pred; [lia | contradiction].
    + destruct (Hdeg t Ht) as (zt & Hzt & HRt & Hzt0). exists zt.
      rewrite map_get_set_other by congruence. rewrite <- Hother by assumption.
      repeat split; auto; apply Hzt0.
Qed.

Lemma visitDependents_inv (todo : list jsstring) :
  forall (queue result : list jsstring) (inDegree : JsMap.t jsnum),
    visit_inv todo queue result inDegree ->
    NoDup todo -> incl todo (JsMap.keys graph) ->
    loop_inv (snd (fold_left DDLParser.visitDependent todo (inDegree, queue))) result
             (fst (fold_left DDLParser.visitDependent todo (inDegree, queue))) /\
    exists more,
      snd (fold_left DDLParser.visitDependent todo (inDegree, queue)) = queue ++ more.
Proof.
  induction todo as [|x todo IH]; intros queue result inDegree Hinv Hnd Hincl;
    cbn [fold_left].
  - split; [exact Hinv | exists []; rewrite app_nil_r; reflexivity].
  - destruct (visitDependent_inv _ _ _ _ _ Hinv Hnd (Hincl x (or_introl eq_refl)))
      as (Hinv' & more1 & Hmore1).
    destruct (DDLParser.visitDependent (inDegree, queue) x) as [d1 q1]; simpl in *.
    destruct (IH q1 result d1 Hinv') as (Hfin & more2 & Hmore2).
    + inversion Hnd; assumption.
    + intros y Hy; apply Hincl; right; assumption.
    + split; [assumption|]. exists (more1 ++ more2).
      rewrite Hmore2, Hmore1, app_assoc; reflexivity.
Qed.

Lemma dequeue_inv (table : jsstring) (queue result : list jsstring)
  (inDegree : JsMap.t jsnum) :
  loop_inv (table :: queue) result inDegree ->
  visit_inv (succs graph table) queue (result ++ [table]) inDegree.
Proof.
  intros (Hnd & Hincl & Hkeys & Hdeg).
  assert (Hp : In table (JsMap.keys graph)).
  { apply Hincl, in_or_app; right; left; reflexivity. }
  assert (Hp_res : ~ In table result).
  { intros H. apply NoDup_remove_2 in Hnd. apply Hnd, in_or_app; auto. }
  repeat split.
  - rewrite <- app_assoc; exact Hnd.
  - rewrite <- app_assoc; exact Hincl.
  - exact Hkeys.
  - intros t Ht. destruct (Hdeg t Ht) as (z & Hz & HR & Hz0). exists z.
    repeat split; auto.
    + simpl in HR. rewrite Nat.add_0_r in HR.
      replace (pending graph (result ++ [table]) t +
               (if includes (succs graph table) t then 1 else 0))
        with (pending graph result t); [assumption|].
      unfold pending.
      rewrite (filter_length_split
                 (fun p => JsSet.has (succs graph p) t && negb (includes result p))
                 (fun p => JsSet.has (succs graph p) t &&
                           negb (includes (result ++ [table]) p))
                 table (JsMap.keys graph) (keys_NoDup _ graph_wf) Hp).
      * apply includes_not_In in Hp_res. rewrite Hp_res, andb_true_r. reflexivity.
      * intros x Hne. f_equal. f_equal. unfold includes. rewrite existsb_app; simpl.
        apply jsstring_eqb_neq in Hne; rewrite Hne, !orb_false_r; reflexivity.
      * assert (includes (result ++ [table]) table = true) as ->.
        { apply includes_In, in_or_app; right; left; reflexivity. }
        apply andb_false_r.
    + intros H; apply Hz0 in H. rewrite <- app_assoc; exact H.
    + intros H; apply Hz0. rewrite <- app_assoc in H; exact H.
Qed.

(** The loop ends within one iteration per table that is not yet in [result],
    never calls a method on [undefined], and emits first what it was given:
    [result], then [queue] in queue order. *)
Lemma kahnLoop_returns (fuel : nat) :
  forall (queue result : list jsstring) (inDegree : JsMap.t jsnum),
    loop_inv queue result inDegree ->
    length (JsMap.keys graph) <= fuel + length result ->
    exists out inDegree',
      DDLParser.kahnLoop fuel graph queue result inDegree = Returned out /\
      loop_inv [] out inDegree' /\
      exists rest, out = result ++ queue ++ rest.
Proof.
  induction fuel as [|fuel IH]; intros queue result inDegree Hinv Hfuel.
  - destruct queue as [|table queue].
    + exists result, inDegree. simpl. repeat split; try apply Hinv.
      exists []; simpl; rewrite app_nil_r; reflexivity.
    + exfalso. destruct Hinv as (Hnd & Hincl & _).
      pose proof (NoDup_incl_length Hnd Hincl) as Hlen.
      rewrite length_app in Hlen; simpl in *; lia.
  - destruct queue as [|table queue].
    + exists result, inDegree. simpl. repeat split; try apply Hinv.
      exists []; simpl; rewrite app_nil_r; reflexivity.
    + simpl.
      assert (Hp : In table (JsMap.keys graph)).
      { destruct Hinv as (_ & Hincl & _).
        apply Hincl, in_or_app; right; left; reflexivity. }
      destruct (map_get_In _ _ Hp) as [deps Hdeps]. rewrite Hdeps.
      assert (Hsuccs : succs graph table = deps)
        by (unfold succs; rewrite Hdeps; reflexivity).
      pose proof (dequeue_inv _ _ _ _ Hinv) as Hvisit. rewrite Hsuccs in Hvisit.
      destruct (visitDependents_inv _ _ _ _ Hvisit) as (Hloop & more & Hmore).
      { rewrite <- Hsuccs; apply (succs_NoDup _ graph_wf). }
      { rewrite <- Hsuccs; apply (succs_keys _ graph_wf). }
      destruct (fold_left DDLParser.visitDependent deps (inDegree, queue))
        as [d1 q1]; simpl in *.
      destruct (IH q1 (result ++ [table]) d1 Hloop) as (out & d' & Hout & Hfin & rest & Hrest).
      { rewrite length_app; simpl; lia. }
      exists out, d'. repeat split; try apply Hfin; [assumption|].
      exists (more ++ rest). rewrite Hrest, Hmore, <- !app_assoc. reflexivity.
Qed.

End Loop.

(** ** The state the loop starts from *)

Lemma map_In_get {V : Type} (m : JsMap.t V) (k : jsstring) (v : V) :
  NoDup (JsMap.keys m) -> (In (k, v) m <-> JsMap.get m k = Some v).
Proof.
  induction m as [|[k' v'] m IH]; simpl; intros Hnd.
  - split; [tauto | discriminate].
  - inversion Hnd as [|? ? Hk' Hnd']; subst.
    destruct (jsstring_eqb k k') eqn:E.
    + apply jsstring_eqb_eq in E; subst k'. split.
      * intros [H|H]; [congruence|]. exfalso; apply Hk'.
        change k with (fst (k, v)). apply in_map; assumption.
      * intros H; left; congruence.
    + apply jsstring_eqb_neq in E. rewrite <- (IH Hnd'). split.
      * intros [H|H]; [congruence | assumption].
      * auto.
Qed.

Lemma NoDup_keys_filter {V : Type} (f : jsstring * V -> bool) (m : JsMap.t V) :
  NoDup (JsMap.keys m) -> NoDup (JsMap.keys (filter f m)).
Proof.
  unfold JsMap.keys. induction m as [|[k v] m IH]; simpl; intros Hnd; [constructor|].
  inversion Hnd as [|? ? Hk Hnd']; subst.
  destruct (f (k, v)); simpl; auto. constructor; auto.
  intros H. apply Hk. apply in_map_iff in H. destruct H as ([k' v'] & <- & H).
  apply filter_In in H. change (fst (k', v')) with (fst (k', v')).
  apply in_map; tauto.
Qed.

Lemma pending_le_edgeCount (tables : list jsstring) (rels : list TableRelationship)
  (g : JsMap.t JsSet.t) (d : JsMap.t jsnum) (t : jsstring) :
  build_ok tables rels g d -> pending g [] t <= edgeCount tables rels t.
Proof.
  intros [Ht Ho Hk Hg Hd He]. unfold pending, edgeCount.
  rewrite <- (length_map referencedTable).
  apply NoDup_incl_length.
  - apply NoDup_filter, (keys_NoDup _ Hg).
  - intros p Hp. apply filter_In in Hp. destruct Hp as (_ & Hp).
    apply andb_true_iff in Hp. destruct Hp as (Hp & _).
    apply set_has_In, He in Hp. destruct Hp as (r & Hr & Hkept & H1 & H2).
    apply in_map_iff. exists r. split; [assumption|].
    apply filter_In. split; [assumption|].
    rewrite Hkept, H1, jsstring_eqb_refl; reflexivity.
Qed.

Lemma initialQueue_In (d : JsMap.t jsnum) (t : jsstring) :
  NoDup (JsMap.keys d) ->
  (In t (DDLParser.initialQueue d) <-> JsMap.get d t = Some (Num 0)).
Proof.
  intros Hnd. unfold DDLParser.initialQueue. rewrite in_map_iff. split.
  - intros ([k v] & <- & H). apply filter_In in H. destruct H as (H & Hz).
    apply (map_In_get _ _ _ Hnd) in H. simpl. rewrite H.
    destruct v as [z|]; simpl in Hz; [|discriminate].
    apply Z.eqb_eq in Hz; subst; reflexivity.
  - intros H. exists (t, Num 0). split; [reflexivity|].
    apply filter_In. split; [apply (map_In_get _ _ _ Hnd); assumption | reflexivity].
Qed.

Lemma initial_loop_inv (R : nat -> Z -> Prop) (tables : list jsstring)
  (rels : list TableRelationship) (g : JsMap.t JsSet.t) (d : JsMap.t jsnum) :
  build_ok tables rels g d ->
  (forall t, In t (JsMap.keys g) ->
             R (pending g [] t) (Z.of_nat (edgeCount tables rels t))) ->
  loop_inv g R (DDLParser.initialQueue d) [] d.
Proof.
  intros Hb HR. pose proof Hb as [Ht Ho Hk Hg Hd He].
  assert (Hnd : NoDup (JsMap.keys d)) by (rewrite Hk; apply (keys_NoDup _ Hg)).
  repeat split; simpl.
  - apply (NoDup_keys_filter _ _ Hnd).
  - intros t Hin. apply (initialQueue_In _ _ Hnd) in Hin.
    rewrite <- Hk. eapply map_get_Some_In; eassumption.
  - assumption.
  - intros t Hin. exists (Z.of_nat (edgeCount tables rels t)).
    rewrite Nat.add_0_r. repeat split; auto.
    + intros Hz. apply (initialQueue_In _ _ Hnd). rewrite (Hd _ Hin), Hz; reflexivity.
    + intros Hq. apply (initialQueue_In _ _ Hnd) in Hq. rewrite (Hd _ Hin) in Hq.
      congruence.
Qed.

Lemma initialQueue_counts (count : jsstring -> nat) (d : JsMap.t jsnum) :
  (forall k v, In (k, v) d -> v = Num (Z.of_nat (count k))) ->
  DDLParser.initialQueue d = filter (fun t => Nat.eqb (count t) 0) (JsMap.keys d).
Proof.
  unfold DDLParser.initialQueue, JsMap.keys.
  induction d as [|[k v] d IH]; intros Hall; [reflexivity|].
  assert (IH' := IH (fun k' v' H => Hall k' v' (or_intror H))).
  cbn [filter map fst]. rewrite (Hall k v (or_introl eq_refl)).
  destruct (count k); cbn [DDLParser.isZero Z.of_nat Z.eqb Nat.eqb map fst];
    rewrite <- IH'; reflexivity.
Qed.

(** With distinct table names the loop starts with the tables nothing makes
    dependent, in input order. *)
Lemma initialQueue_ready (tables : list jsstring) (rels : list TableRelationship)
  (g : JsMap.t JsSet.t) (d : JsMap.t jsnum) :
  build_ok tables rels g d -> NoDup tables ->
  DDLParser.initialQueue d = readyTables tables rels.
Proof.
  intros [Ht Ho Hk Hg Hd He] Hnd. specialize (Ho Hnd).
  rewrite (initialQueue_counts (edgeCount tables rels)).
  - rewrite Hk, Ho; reflexivity.
  - intros k v Hin.
    assert (Hnd' : NoDup (JsMap.keys d)) by (rewrite Hk, Ho; assumption).
    apply (map_In_get _ _ _ Hnd') in Hin.
    rewrite Hd in Hin; [congruence|].
    rewrite <- Hk. eapply map_get_Some_In; eassumption.
Qed.

(** ** The result is a permutation of the input *)

Lemma appendRemaining_permutation (tables result : list jsstring) :
  NoDup tables -> NoDup result -> incl result tables ->
  Permutation tables (DDLParser.appendRemaining tables result).
Proof.
  intros Hnd Hres Hincl. unfold DDLParser.appendRemaining.
  destruct (Nat.eqb_spec (length result) (length tables)) as [Hlen|Hlen]; simpl.
  - apply Permutation_sym, NoDup_Permutation_bis; auto. lia.
  - apply NoDup_Permutation; [assumption| |].
    + apply NoDup_app; [assumption | apply NoDup_filter; assumption |].
      intros x Hx Hf. apply filter_In in Hf. destruct Hf as (_ & Hf).
      apply negb_true_iff, includes_not_In in Hf. contradiction.
    + intros x. rewrite in_app_iff, filter_In, negb_true_iff, includes_not_In.
      destruct (in_dec jsstring_eq_dec x result); intuition auto.
Qed.

Lemma kahnLoop_of_build (tables : list jsstring) (rels : list TableRelationship) :
  let g := fst (DDLParser.buildGraph tables rels) in
  let d := snd (DDLParser.buildGraph tables rels) in
  exists result d',
    DDLParser.kahnLoop (length tables) g (DDLParser.initialQueue d) [] d
    = Returned result /\
    loop_inv g (fun n z => (Z.of_nat n <= z)%Z) [] result d' /\
    exists rest, result = DDLParser.initialQueue d ++ rest.
Proof.
  intros g d. pose proof (buildGraph_ok tables rels) as Hb. fold g d in Hb.
  destruct (kahnLoop_returns g (b_graph _ _ _ _ Hb) (fun n z => (Z.of_nat n <= z)%Z))
    with (fuel := length tables) (queue := DDLParser.initialQueue d)
         (result := @nil jsstring) (inDegree := d)
    as (out & d' & Hout & Hinv & rest & Hrest).
  - auto.
  - intros n z H; lia.
  - apply (initial_loop_inv _ tables rels); [assumption|].
    intros t _. apply inj_le, (pending_le_edgeCount _ _ _ d); assumption.
  - simpl. rewrite Nat.add_0_r. apply NoDup_incl_length.
    + apply (keys_NoDup _ (b_graph _ _ _ _ Hb)).
    + intros t Hin. apply (b_tables _ _ _ _ Hb); assumption.
  - exists out, d'. repeat split; try apply Hinv; [assumption|].
    exists rest. assumption.
Qed.

(** C1: for distinct table names, [getInsertionOrder] returns (it raises
    nothing, whatever the relationships: cyclic, dangling or repeated) and what
    it returns is a permutation of the input table names, hence of the same
    length, with no name added and none omitted. *)
Theorem getInsertionOrder_permutation (tables : list jsstring)
  (relationships : list TableRelationship) :
  NoDup tables ->
  exists order,
    DDLParser.getInsertionOrder tables relationships = Returned order /\
    Permutation tables order /\
    length order = length tables.
Proof.
  intros Hnd. destruct (kahnLoop_of_build tables relationships)
    as (result & d' & Hout & Hinv & _).
  pose proof (buildGraph_ok tables relationships) as Hb.
  unfold DDLParser.getInsertionOrder.
  destruct (DDLParser.buildGraph tables relationships) as [g d]; simpl in *.
  rewrite Hout. exists (DDLParser.appendRemaining tables result).
  destruct Hinv as (Hnd_res & Hincl & _). rewrite app_nil_r in *.
  assert (Hperm : Permutation tables (DDLParser.appendRemaining tables result)).
  { apply appendRemaining_permutation; auto.
    intros t Ht. apply (b_tables _ _ _ _ Hb), Hincl; assumption. }
  repeat split; auto. symmetry; apply Permutation_length; assumption.
Qed.

Lemma getInsertionOrder_permutation_witness :
  exists order,
    DDLParser.getInsertionOrder [js "table_a"; js "table_b"]
      [ {| tableName := js "table_a"; referencedTable := js "table_b";
           columnName := js "b_id"; referencedColumn := js "id" |};
        {| tableName := js "table_b"; referencedTable := js "table_a";
           columnName := js "a_id"; referencedColumn := js "id" |} ]
    = Returned order /\
    Permutation [js "table_a"; js "table_b"] order /\
    length order = 2.
Proof.
  apply (getInsertionOrder_permutation [js "table_a"; js "table_b"]).
  repeat constructor; simpl; intuition discriminate.
Defined.

(** ** The order in which ready tables are emitted *)

(** [array.indexOf(x)]: the first position of [x], or [-1]. *)
Fixpoint indexOf (l : list jsstring) (x : jsstring) : Z :=
  match l with
  | [] => (-1)%Z
  | y :: l' =>
      if jsstring_eqb y x then 0%Z
      else let i := indexOf l' x in if (i <? 0)%Z then (-1)%Z else (i + 1)%Z
  end.

(** The tables that the kept relationships make [t] depend on. *)
Definition prerequisites (tables : list jsstring) (rels : list TableRelationship)
  (t : jsstring) : list jsstring :=
  map referencedTable
    (filter (fun r => kept tables r && jsstring_eqb (tableName r) t) rels).

(** Two tables with the same prerequisites reach in-degree zero together. *)
Definition same_prerequisites (tables : list jsstring) (rels : list TableRelationship)
  (x y : jsstring) : Prop :=
  forall p, In p (prerequisites tables rels x) <-> In p (prerequisites tables rels y).

Lemma visitDependents_queue (todo : list jsstring) :
  forall (inDegree : JsMap.t jsnum) (queue : list jsstring),
  exists more,
    snd (fold_left DDLParser.visitDependent todo (inDegree, queue)) = queue ++ more.
Proof.
  induction todo as [|x todo IH]; intros inDegree queue; cbn [fold_left].
  - exists []; rewrite app_nil_r; reflexivity.
  - unfold DDLParser.visitDependent at 2.
    destruct (DDLParser.isZero _).
    + destruct (IH (JsMap.set inDegree x (DDLParser.decrDegree (JsMap.get inDegree x)))
                  (queue ++ [x])) as [more Hmore].
      exists (x :: more). rewrite Hmore, <- app_assoc; reflexivity.
    + apply IH.
Qed.

(** The queue is first-in first-out: whatever the loop returns starts with the
    tables already emitted, followed by the queued tables in queue order. *)
Lemma kahnLoop_fifo (fuel : nat) (graph : JsMap.t JsSet.t) :
  forall (queue result : list jsstring) (inDegree : JsMap.t jsnum) (out : list jsstring),
    DDLParser.kahnLoop fuel graph queue result inDegree = Returned out ->
    exists rest, out = result ++ queue ++ rest.
Proof.
  induction fuel as [|fuel IH]; intros queue result inDegree out;
    destruct queue as [|table queue]; simpl; intros H; try discriminate.
  - inversion H; subst. exists []; rewrite app_nil_r; reflexivity.
  - inversion H; subst. exists []; rewrite app_nil_r; reflexivity.
  - destruct (JsMap.get graph table) as [deps|]; [|discriminate].
    destruct (visitDependents_queue deps inDegree queue) as [more Hmore].
    destruct (fold_left DDLParser.visitDependent deps (inDegree, queue)) as [d1 q1].
    simpl in Hmore; subst q1.
    apply IH in H. destruct H as [rest ->].
    exists (more ++ rest). rewrite <- !app_assoc; reflexivity.
Qed.

(** C3, as the code has it: for distinct table names the tables that are
    ready at the start (no kept relationship makes them dependent) are emitted
    first, in the order of their positions in the input list; and the queue
    is first-in first-out: from any state of the loop, what has been emitted
    stays in front, the tables in the queue come next in queue order, and
    whatever is pushed later comes after them.  So ties among tables that
    become ready later follow the order of insertion into the queue. *)
Theorem getInsertionOrder_ready_first (tables : list jsstring)
  (relationships : list TableRelationship) :
  NoDup tables ->
  (exists rest,
     DDLParser.getInsertionOrder tables relationships
     = Returned (readyTables tables relationships ++ rest)) /\
  (forall fuel graph queue result inDegree out,
     DDLParser.kahnLoop fuel graph queue result inDegree = Returned out ->
     exists rest, out = result ++ queue ++ rest).
Proof.
  intros Hnd. split; [|intros; eapply kahnLoop_fifo; eassumption].
  destruct (kahnLoop_of_build tables relationships)
    as (result & d' & Hout & Hinv & rest & Hrest).
  pose proof (buildGraph_ok tables relationships) as Hb.
  unfold DDLParser.getInsertionOrder.
  destruct (DDLParser.buildGraph tables relationships) as [g d]; simpl in *.
  rewrite Hout. rewrite (initialQueue_ready tables relationships g d Hb Hnd) in Hrest.
  unfold DDLParser.appendRemaining.
  destruct (negb _).
  - exists (rest ++ filter (fun table => negb (includes result table)) tables).
    rewrite Hrest at 1. rewrite <- app_assoc; reflexivity.
  - exists rest. rewrite Hrest; reflexivity.
Qed.

Lemma getInsertionOrder_ready_first_witness :
  (exists rest,
     DDLParser.getInsertionOrder [js "a"; js "x"; js "b"]
       [ {| tableName := js "b"; referencedTable := js "a";
            columnName := js "a_id"; referencedColumn := js "id" |} ]
     = Returned ([js "a"; js "x"] ++ rest)) /\
  (forall fuel graph queue result inDegree out,
     DDLParser.kahnLoop fuel graph queue result inDegree = Returned out ->
     exists rest, out = result ++ queue ++ rest).
Proof.
  apply (getInsertionOrder_ready_first [js "a"; js "x"; js "b"]).
  repeat constructor; simpl; intuition discriminate.
Defined.

(** C3 as stated fails: [b] and [c] both wait for [a] alone and become ready
    together when [a] is dequeued; [c] comes first in the input list, yet [b]
    is emitted first, because it was pushed to the queue first. *)
Lemma getInsertionOrder_ties_by_queue_order :
  ~ (forall tables relationships order x y,
       NoDup tables ->
       DDLParser.getInsertionOrder tables relationships = Returned order ->
       In x tables -> In y tables ->
       same_prerequisites tables relationships x y ->
       (indexOf tables x < indexOf tables y)%Z ->
       (indexOf order x < indexOf order y)%Z).
Proof.
  intros H.
  specialize (H [js "a"; js "c"; js "b"]
    [ {| tableName := js "b"; referencedTable := js "a";
         columnName := js "a_id"; referencedColumn := js "id" |};
      {| tableName := js "c"; referencedTable := js "a";
         columnName := js "a_id"; referencedColumn := js "id" |} ]
    [js "a"; js "b"; js "c"] (js "c") (js "b")).
  assert (Hlt : (indexOf [js "a"; js "b"; js "c"] (js "c")
                 < indexOf [js "a"; js "b"; js "c"] (js "b"))%Z).
  { apply H.
    - repeat constructor; simpl; intuition discriminate.
    - reflexivity.
    - simpl; auto.
    - simpl; auto.
    - intros p; reflexivity.
    - reflexivity. }
  vm_compute in Hlt. discriminate.
Qed.

(** ** Topological validity, and where it is lost *)

(** The edge a relationship stands for. *)
Definition edge (r : TableRelationship) : jsstring * jsstring :=
  (referencedTable r, tableName r).

(** No two kept relationships link the same pair of tables. *)
Definition distinct_edges (tables : list jsstring) (rels : list TableRelationship) : Prop :=
  NoDup (map edge (filter (kept tables) rels)).

(** The kept relationships have no cycle: the tables can be ranked so that
    every table ranks above the tables it references. *)
Definition acyclic (tables : list jsstring) (rels : list TableRelationship) : Prop :=
  exists rank : jsstring -> nat,
    forall r, In r rels -> kept tables r = true ->
              rank (referencedTable r) < rank (tableName r).

(** Every table comes after the tables it depends on. *)
Definition ordered (graph : JsMap.t JsSet.t) (l : list jsstring) : Prop :=
  forall l1 t l2 p, l = l1 ++ t :: l2 -> In t (succs graph p) -> In p l1.

Lemma prerequisites_NoDup (tables : list jsstring) (rels : list TableRelationship)
  (t : jsstring) :
  distinct_edges tables rels -> NoDup (prerequisites tables rels t).
Proof.
  unfold distinct_edges, prerequisites.
  induction rels as [|r rels IH]; simpl; intros Hnd; [constructor|].
  destruct (kept tables r) eqn:Ek; simpl in *.
  - inversion Hnd as [|? ? Hr Hnd']; subst. specialize (IH Hnd').
    destruct (jsstring_eqb (tableName r) t) eqn:Et; simpl; [|assumption].
    constructor; [|assumption]. intros Hin. apply Hr.
    apply in_map_iff in Hin. destruct Hin as (r' & Href & Hin).
    apply filter_In in Hin. destruct Hin as (Hin & Hk).
    apply andb_true_iff in Hk. destruct Hk as (Hk & Ht').
    apply jsstring_eqb_eq in Et, Ht'.
    apply in_map_iff. exists r'. split.
    + unfold edge. congruence.
    + apply filter_In; auto.
  - auto.
Qed.

Lemma pending_eq_edgeCount (tables : list jsstring) (rels : list TableRelationship)
  (g : JsMap.t JsSet.t) (d : JsMap.t jsnum) (t : jsstring) :
  build_ok tables rels g d -> distinct_edges tables rels ->
  pending g [] t = edgeCount tables rels t.
Proof.
  intros [Ht Ho Hk Hg Hd He] Hdist. unfold pending, edgeCount.
  rewrite <- (length_map referencedTable).
  apply Permutation_length, NoDup_Permutation.
  - apply NoDup_filter, (keys_NoDup _ Hg).
  - apply (prerequisites_NoDup tables rels t Hdist).
  - intros p. rewrite filter_In, in_map_iff. split.
    + intros (_ & Hp). apply andb_true_iff in Hp. destruct Hp as (Hp & _).
      apply set_has_In, He in Hp. destruct Hp as (r & Hr & Hkept & H1 & H2).
      exists r. split; [assumption|]. apply filter_In. split; [assumption|].
      rewrite Hkept, H1, jsstring_eqb_refl; reflexivity.
    + intros (r & Href & Hr). apply filter_In in Hr. destruct Hr as (Hr & Hc).
      apply andb_true_iff in Hc. destruct Hc as (Hkept & Hc).
      apply jsstring_eqb_eq in Hc. split.
      * apply Ht, includes_In. unfold kept in Hkept.
        apply andb_true_iff in Hkept. rewrite <- Href; tauto.
      * rewrite andb_true_r. apply set_has_In, He. exists r; auto.
Qed.

Lemma pending_zero (g : JsMap.t JsSet.t) (done : list jsstring) (t p : jsstring) :
  pending g done t = 0 -> In t (succs g p) -> In p (JsMap.keys g) -> In p done.
Proof.
  unfold pending. intros H Ht Hp. apply length_zero_iff_nil in H.
  destruct (in_dec jsstring_eq_dec p done) as [Hin|Hin]; [assumption|].
  exfalso. assert (Hf : In p (filter (fun p => JsSet.has (succs g p) t &&
                                               negb (includes done p)) (JsMap.keys g))).
  { apply filter_In. split; [assumption|].
    apply set_has_In in Ht. apply includes_not_In in Hin. rewrite Ht, Hin; reflexivity. }
  rewrite H in Hf. destruct Hf.
Qed.

Lemma zero_pending (g : JsMap.t JsSet.t) (done : list jsstring) (t : jsstring) :
  (forall p, In t (succs g p) -> In p done) -> pending g done t = 0.
Proof.
  intros H. unfold pending. apply length_zero_iff_nil.
  destruct (filter _ _) as [|p l] eqn:E; [reflexivity|].
  assert (Hf : In p (p :: l)) by (left; reflexivity).
  rewrite <- E in Hf. apply filter_In in Hf. destruct Hf as (_ & Hf).
  apply andb_true_iff in Hf. destruct Hf as (H1 & H2).
  apply set_has_In, H, includes_In in H1. rewrite H1 in H2. discriminate.
Qed.

Lemma succs_key (g : JsMap.t JsSet.t) (p t : jsstring) :
  In t (succs g p) -> In p (JsMap.keys g).
Proof.
  unfold succs. destruct (JsMap.get g p) eqn:E; [|intros []].
  intros _. eapply map_get_Some_In; eassumption.
Qed.

Lemma ordered_snoc (g : JsMap.t JsSet.t) (result : list jsstring) (table : jsstring) :
  ordered g result -> (forall p, In table (succs g p) -> In p result) ->
  ordered g (result ++ [table]).
Proof.
  intros Hord Hpre l1 t l2 p Hsplit Ht.
  destruct l2 as [|y l2 _] using rev_ind.
  - apply app_inj_tail in Hsplit. destruct Hsplit as (-> & ->). auto.
  - rewrite app_comm_cons, app_assoc in Hsplit. apply app_inj_tail in Hsplit.
    destruct Hsplit as (Hsplit & _). eapply Hord; eassumption.
Qed.

Section ExactLoop.

Variable graph : JsMap.t JsSet.t.
Hypothesis graph_wf : graph_ok graph.

Let exact : nat -> Z -> Prop := fun n z => Z.of_nat n = z.

Lemma kahnLoop_ordered (fuel : nat) :
  forall (queue result : list jsstring) (inDegree : JsMap.t jsnum) (out : list jsstring),
    loop_inv graph exact queue result inDegree ->
    ordered graph result ->
    DDLParser.kahnLoop fuel graph queue result inDegree = Returned out ->
    ordered graph out /\ exists inDegree', loop_inv graph exact [] out inDegree'.
Proof.
  induction fuel as [|fuel IH]; intros queue result inDegree out Hinv Hord;
    destruct queue as [|table queue]; simpl; intros H; try discriminate.
  - inversion H; subst. split; [assumption | exists inDegree; assumption].
  - inversion H; subst. split; [assumption | exists inDegree; assumption].
  - assert (Hp : In table (JsMap.keys graph)).
    { destruct Hinv as (_ & Hincl & _).
      apply Hincl, in_or_app; right; left; reflexivity. }
    destruct (map_get_In _ _ Hp) as [deps Hdeps]. rewrite Hdeps in H.
    assert (Hsuccs : succs graph table = deps)
      by (unfold succs; rewrite Hdeps; reflexivity).
    assert (Hpre : forall p, In table (succs graph p) -> In p result).
    { intros p Hin. destruct Hinv as (_ & _ & _ & Hdeg).
      destruct (Hdeg table Hp) as (z & _ & HR & Hz0).
      assert (Hz : z = 0%Z) by (apply Hz0, in_or_app; right; left; reflexivity).
      unfold exact in HR. simpl in HR. rewrite Nat.add_0_r in HR.
      apply (pending_zero graph result table p); [lia | assumption |].
      eapply succs_key; eassumption. }
    assert (Hexact_pred : forall n z, exact (S n) z -> exact n (z - 1)%Z)
      by (unfold exact; intros; lia).
    assert (Hexact_le : forall n z, exact n z -> (Z.of_nat n <= z)%Z)
      by (unfold exact; intros; lia).
    pose proof (dequeue_inv graph graph_wf exact _ _ _ _ Hinv) as Hvisit.
    rewrite Hsuccs in Hvisit.
    destruct (visitDependents_inv graph exact Hexact_le Hexact_pred _ _ _ _ Hvisit)
      as (Hloop & _).
    { rewrite <- Hsuccs; apply (succs_NoDup _ graph_wf). }
    { rewrite <- Hsuccs; apply (succs_keys _ graph_wf). }
    destruct (fold_left DDLParser.visitDependent deps (inDegree, queue)) as [d1 q1].
    simpl in *. eapply IH; [exact Hloop | | exact H].
    apply ordered_snoc; assumption.
Qed.

(** Without a cycle nothing is left behind: every table ends in the result. *)
Lemma loop_complete (rank : jsstring -> nat) (out : list jsstring)
  (inDegree : JsMap.t jsnum) :
  (forall p t, In t (succs graph p) -> rank p < rank t) ->
  loop_inv graph exact [] out inDegree ->
  forall t, In t (JsMap.keys graph) -> In t out.
Proof.
  intros Hrank (_ & _ & _ & Hdeg).
  assert (Hstrong : forall n t, rank t < n -> In t (JsMap.keys graph) -> In t out).
  { induction n as [|n IHn]; intros t Hlt Ht; [lia|].
    destruct (Hdeg t Ht) as (z & _ & HR & Hz0).
    rewrite app_nil_r in Hz0. apply Hz0.
    unfold exact in HR. simpl in HR. rewrite Nat.add_0_r in HR.
    rewrite <- HR, (zero_pending graph out t); [reflexivity|].
    intros p Hin. apply IHn.
    - specialize (Hrank p t Hin). lia.
    - eapply succs_key; eassumption. }
  intros t Ht. apply (Hstrong (S (rank t))); [lia | assumption].
Qed.

End ExactLoop.

Lemma indexOf_range (l : list jsstring) (x : jsstring) :
  (-1 <= indexOf l x < Z.of_nat (length l))%Z.
Proof.
  induction l as [|y l IH]; simpl length; cbn [indexOf]; [lia|].
  destruct (jsstring_eqb y x); [lia|].
  cbv zeta. destruct (Z.ltb_spec (indexOf l x) 0); lia.
Qed.

Lemma indexOf_In (l : list jsstring) (x : jsstring) :
  In x l -> (0 <= indexOf l x)%Z.
Proof.
  induction l as [|y l IH]; cbn [indexOf]; [intros []|].
  intros Hin. destruct (jsstring_eqb y x) eqn:E; [lia|].
  apply jsstring_eqb_neq in E. destruct Hin as [?|Hin]; [contradiction|].
  specialize (IH Hin). cbv zeta. destruct (Z.ltb_spec (indexOf l x) 0); lia.
Qed.

Lemma indexOf_app_In (l1 l2 : list jsstring) (x : jsstring) :
  In x l1 -> indexOf (l1 ++ l2) x = indexOf l1 x.
Proof.
  induction l1 as [|y l1 IH]; [intros []|]. simpl app; cbn [indexOf].
  intros Hin. destruct (jsstring_eqb y x) eqn:E; [reflexivity|].
  apply jsstring_eqb_neq in E. destruct Hin as [?|Hin]; [contradiction|].
  rewrite (IH Hin); reflexivity.
Qed.

Lemma indexOf_app_head (l1 l2 : list jsstring) (x : jsstring) :
  ~ In x l1 -> indexOf (l1 ++ x :: l2) x = Z.of_nat (length l1).
Proof.
  induction l1 as [|y l1 IH]; simpl app; simpl length; cbn [indexOf]; intros Hnin.
  - rewrite jsstring_eqb_refl; reflexivity.
  - assert (E : jsstring_eqb y x = false)
      by (apply jsstring_eqb_neq; intros ->; apply Hnin; left; reflexivity).
    rewrite E, IH by (intros H; apply Hnin; right; assumption).
    cbv zeta. destruct (Z.ltb_spec (Z.of_nat (length l1)) 0); lia.
Qed.

(** What the algorithm achieves when no pair of tables is linked twice: with
    distinct table names, distinct edges and no cycle, every referenced table
    is emitted strictly before the table that references it. *)
Lemma getInsertionOrder_topological_distinct_edges (tables : list jsstring)
  (relationships : list TableRelationship) :
  NoDup tables -> distinct_edges tables relationships -> acyclic tables relationships ->
  exists order,
    DDLParser.getInsertionOrder tables relationships = Returned order /\
    forall r, In r relationships -> kept tables r = true ->
      (0 <= indexOf order (referencedTable r) < indexOf order (tableName r))%Z.
Proof.
  intros Hnd Hdist (rank & Hrank).
  pose proof (buildGraph_ok tables relationships) as Hb.
  unfold DDLParser.getInsertionOrder.
  destruct (DDLParser.buildGraph tables relationships) as [g d]; simpl in Hb.
  pose proof Hb as [Ht Ho Hk Hg Hd He].
  set (exact := fun (n : nat) (z : Z) => Z.of_nat n = z).
  assert (Hinit : loop_inv g exact (DDLParser.initialQueue d) [] d).
  { apply (initial_loop_inv exact tables relationships); [assumption|].
    intros t _. unfold exact. f_equal.
    apply (pending_eq_edgeCount tables relationships g d); assumption. }
  destruct (kahnLoop_returns g Hg exact) with (fuel := length tables)
    (queue := DDLParser.initialQueue d) (result := @nil jsstring) (inDegree := d)
    as (out & d' & Hout & Hfin & _).
  { unfold exact; intros; lia. }
  { unfold exact; intros; lia. }
  { assumption. }
  { rewrite (Ho Hnd); simpl; lia. }
  rewrite Hout.
  assert (Hnil : ordered g []).
  { intros l1 t l2 p Hsplit. destruct l1; discriminate. }
  pose proof (kahnLoop_ordered g Hg _ _ _ _ _ Hinit Hnil Hout) as (Hord & _).
  assert (Hall : forall t, In t (JsMap.keys g) -> In t out).
  { apply (loop_complete g rank out d'); [|exact Hfin].
    intros p t Hin. apply He in Hin. destruct Hin as (r & Hr & Hkept & <- & <-).
    apply Hrank; assumption. }
  destruct Hfin as (Hnd_out & Hincl & _). rewrite app_nil_r in *.
  assert (Hlen : length out = length tables).
  { apply Permutation_length, NoDup_Permutation; auto.
    intros t. rewrite <- (Ho Hnd). split; auto. }
  exists out. split.
  - unfold DDLParser.appendRemaining. rewrite Hlen, Nat.eqb_refl; reflexivity.
  - intros r Hr Hkept.
    assert (Hedge : In (tableName r) (succs g (referencedTable r)))
      by (apply He; exists r; auto).
    assert (Hin : In (tableName r) out).
    { apply Hall, Ht, includes_In. unfold kept in Hkept.
      apply andb_true_iff in Hkept; tauto. }
    apply in_split in Hin. destruct Hin as (l1 & l2 & Hsplit).
    pose proof (Hord l1 (tableName r) l2 (referencedTable r) Hsplit Hedge) as Hp.
    rewrite Hsplit in Hnd_out. apply NoDup_remove_2 in Hnd_out.
    rewrite Hsplit.
    rewrite indexOf_app_head by (intros H; apply Hnd_out, in_or_app; auto).
    rewrite indexOf_app_In by assumption.
    pose proof (indexOf_range l1 (referencedTable r)).
    pose proof (indexOf_In l1 (referencedTable r) Hp). lia.
Qed.

(** C2 fails on the code when two relationships link the same pair of tables
    (here the two foreign keys of [messages] into [users]): the dependents of
    a table are a [Set], so [messages] is visited once, but its in-degree was
    incremented twice and never returns to zero.  The acyclic graph is then
    handled as if it had a cycle, and [comments] is emitted before the table
    [messages] it references. *)
Theorem getInsertionOrder_repeated_edge :
  let tables := [js "comments"; js "messages"; js "users"] in
  let relationships :=
    [ {| tableName := js "messages"; referencedTable := js "users";
         columnName := js "sender_id"; referencedColumn := js "id" |};
      {| tableName := js "messages"; referencedTable := js "users";
         columnName := js "receiver_id"; referencedColumn := js "id" |};
      {| tableName := js "comments"; referencedTable := js "messages";
         columnName := js "message_id"; referencedColumn := js "id" |} ] in
  NoDup tables /\ acyclic tables relationships /\
  DDLParser.getInsertionOrder tables relationships
  = Returned [js "users"; js "comments"; js "messages"] /\
  (indexOf [js "users"; js "comments"; js "messages"] (js "comments")
   < indexOf [js "users"; js "comments"; js "messages"] (js "messages"))%Z.
Proof.
  cbv zeta. repeat split.
  - repeat constructor; simpl; intuition discriminate.
  - exists (fun t => if jsstring_eqb t (js "users") then 0
                     else if jsstring_eqb t (js "messages") then 1 else 2).
    intros r [<- | [<- | [<- | []]]] _; vm_compute; lia.
Qed.

(** ** sanitizeIdentifier *)

(** The characters a sanitized identifier is made of: [[a-z0-9_]]. *)
Definition isCanonChar (c : code_unit) : bool :=
  Utils.isLower c || Utils.isDigit c || N.eqb c Utils.underscore.

Ltac char_classes :=
  unfold isCanonChar, Utils.isIdentChar, Utils.lowerUnit, Utils.isLower, Utils.isUpper,
    Utils.isDigit, Utils.underscore in *;
  repeat match goal with
         | |- context [N.leb ?a ?b] => destruct (N.leb_spec a b)
         | |- context [N.eqb ?a ?b] => destruct (N.eqb_spec a b)
         | H : context [N.leb ?a ?b] |- _ => destruct (N.leb_spec a b)
         | H : context [N.eqb ?a ?b] |- _ => destruct (N.eqb_spec a b)
         end;
  simpl in *; try reflexivity; try discriminate; try lia.

Lemma lowerUnit_canon (c : code_unit) :
  Utils.isIdentChar c = true -> isCanonChar (Utils.lowerUnit c) = true.
Proof. char_classes. Qed.

Lemma canon_fixed (c : code_unit) :
  isCanonChar c = true ->
  Utils.isIdentChar c = true /\ Utils.lowerUnit c = c /\ Utils.isUpper c = false.
Proof. intros H. repeat split; char_classes. Qed.

Lemma replaceInvalid_ident (name : jsstring) :
  Forall (fun c => Utils.isIdentChar c = true) (Utils.replaceInvalid name).
Proof.
  unfold Utils.replaceInvalid. apply Forall_map, Forall_forall. intros c _.
  destruct (Utils.isIdentChar c) eqn:E; [assumption | reflexivity].
Qed.

Lemma prefixLeadingDigit_ident (name : jsstring) :
  Forall (fun c => Utils.isIdentChar c = true) name ->
  Forall (fun c => Utils.isIdentChar c = true) (Utils.prefixLeadingDigit name).
Proof.
  intros H. destruct name as [|c name]; simpl; [constructor|].
  destruct (Utils.isDigit c); [constructor; [reflexivity|] |]; assumption.
Qed.

Lemma sanitizeIdentifier_canon (name : jsstring) :
  Forall (fun c => isCanonChar c = true) (Utils.sanitizeIdentifier name).
Proof.
  unfold Utils.sanitizeIdentifier, Utils.toLowerCase. apply Forall_map.
  eapply Forall_impl; [|apply prefixLeadingDigit_ident, replaceInvalid_ident].
  intros c; apply lowerUnit_canon.
Qed.

(** A sanitized identifier never starts with a digit. *)
Lemma sanitizeIdentifier_head (name : jsstring) :
  match Utils.sanitizeIdentifier name with
  | c :: _ => Utils.isDigit c = false
  | [] => True
  end.
Proof.
  unfold Utils.sanitizeIdentifier, Utils.replaceInvalid.
  destruct name as [|c name]; simpl; [exact I|].
  destruct (Utils.isDigit (if Utils.isIdentChar c then c else Utils.underscore)) eqn:E;
    simpl; [reflexivity|].
  revert E. destruct (Utils.isIdentChar c) eqn:Ec; char_classes.
Qed.

Lemma canon_replaceInvalid (s : jsstring) :
  Forall (fun c => isCanonChar c = true) s -> Utils.replaceInvalid s = s.
Proof.
  unfold Utils.replaceInvalid. induction 1 as [|c s Hc _ IH]; simpl; [reflexivity|].
  rewrite IH. destruct (canon_fixed c Hc) as (-> & _). reflexivity.
Qed.

Lemma canon_toLowerCase (s : jsstring) :
  Forall (fun c => isCanonChar c = true) s -> Utils.toLowerCase s = s.
Proof.
  unfold Utils.toLowerCase. induction 1 as [|c s Hc _ IH]; simpl; [reflexivity|].
  rewrite IH. destruct (canon_fixed c Hc) as (_ & -> & _). reflexivity.
Qed.

(** C6: [sanitizeIdentifier] is idempotent; a name with a leading digit gets
    an underscore in front of that digit; and no upper-case letter is left in
    the result (mixed case collapses to lower case). *)
Theorem sanitizeIdentifier_idempotent (name : jsstring) :
  Utils.sanitizeIdentifier (Utils.sanitizeIdentifier name) = Utils.sanitizeIdentifier name /\
  (forall c rest, name = c :: rest -> Utils.isDigit c = true ->
     Utils.sanitizeIdentifier name
     = Utils.underscore :: c :: Utils.toLowerCase (Utils.replaceInvalid rest)) /\
  Forall (fun c => Utils.isUpper c = false) (Utils.sanitizeIdentifier name).
Proof.
  pose proof (sanitizeIdentifier_canon name) as Hcanon.
  pose proof (sanitizeIdentifier_head name) as Hhead.
  repeat split.
  - set (s := Utils.sanitizeIdentifier name) in *.
    unfold Utils.sanitizeIdentifier at 1.
    rewrite (canon_replaceInvalid s Hcanon).
    assert (Hpre : Utils.prefixLeadingDigit s = s).
    { destruct s as [|c s']; simpl; [reflexivity|]. rewrite Hhead; reflexivity. }
    rewrite Hpre. apply canon_toLowerCase; assumption.
  - intros c rest -> Hc. unfold Utils.sanitizeIdentifier, Utils.replaceInvalid.
    simpl map.
    assert (Hi : Utils.isIdentChar c = true) by (revert Hc; char_classes).
    rewrite Hi. simpl. rewrite Hc. simpl.
    assert (Hl : Utils.lowerUnit c = c) by (revert Hc; char_classes).
    rewrite Hl. reflexivity.
  - eapply Forall_impl; [|exact Hcanon]. intros c Hc. apply (canon_fixed c Hc).
Qed.

Lemma sanitizeIdentifier_idempotent_witness :
  Utils.sanitizeIdentifier (Utils.sanitizeIdentifier (js "123Table"))
  = Utils.sanitizeIdentifier (js "123Table") /\
  Utils.sanitizeIdentifier (js "123Table") = js "_123table" /\
  Forall (fun c => Utils.isUpper c = false) (Utils.sanitizeIdentifier (js "123Table")).
Proof.
  destruct (sanitizeIdentifier_idempotent (js "123Table")) as (H1 & H2 & H3).
  split; [exact H1 | split; [|exact H3]].
  rewrite (H2 49%N (js "23Table") eq_refl eq_refl). reflexivity.
Defined.

(** ** createBasicColumnMappings *)

Lemma find_None {A : Type} (f : A -> bool) (l : list A) :
  find f l = None <-> forall x, In x l -> f x = false.
Proof.
  split; [apply find_none|].
  induction l as [|x l IH]; simpl; intros H; [reflexivity|].
  rewrite (H x (or_introl eq_refl)). apply IH. intros y Hy; apply H; right; assumption.
Qed.

Lemma set_of_list_has (names : list jsstring) (x : jsstring) :
  forall s : JsSet.t,
    JsSet.has (fold_left JsSet.add names s) x = JsSet.has s x || includes names x.
Proof.
  induction names as [|n names IH]; intros s; simpl.
  - rewrite orb_false_r; reflexivity.
  - rewrite IH, set_has_add, <- orb_assoc. reflexivity.
Qed.

Lemma mapField_app (toLowerCase : jsstring -> jsstring) (pgSchema : PostgresTableSchema)
  (pgColumns : JsSet.t)
  (mappings : list ColumnMapping) (field : FieldSchema) :
  Mapping.mapField toLowerCase pgSchema pgColumns mappings field
  = mappings ++ Mapping.mapField toLowerCase pgSchema pgColumns [] field.
Proof.
  unfold Mapping.mapField.
  destruct (jsstring_eqb (fieldName field) (js "_id")); [rewrite app_nil_r; reflexivity|].
  cbv zeta. destruct (JsSet.has pgColumns _); [reflexivity|].
  destruct (find _ _); [reflexivity | rewrite app_nil_r; reflexivity].
Qed.

Lemma fold_mapField (toLowerCase : jsstring -> jsstring) (pgSchema : PostgresTableSchema)
  (pgColumns : JsSet.t)
  (fs : list FieldSchema) :
  forall mappings,
    fold_left (Mapping.mapField toLowerCase pgSchema pgColumns) fs mappings
    = mappings ++ flat_map (Mapping.mapField toLowerCase pgSchema pgColumns []) fs.
Proof.
  induction fs as [|f fs IH]; intros mappings; simpl.
  - rewrite app_nil_r; reflexivity.
  - rewrite IH, mapField_app, <- app_assoc. reflexivity.
Qed.

Lemma flat_map_nil {A B : Type} (f : A -> list B) (l : list A) :
  flat_map f l = [] <-> forall x, In x l -> f x = [].
Proof.
  induction l as [|x l IH]; simpl.
  - split; [intros _ y [] | reflexivity].
  - split.
    + intros H. apply app_eq_nil in H. destruct H as (Hx & Hl).
      intros y [<- | Hy]; [assumption | apply IH; assumption].
    + intros H. rewrite (H x (or_introl eq_refl)). simpl.
      apply IH. intros y Hy; apply H; right; assumption.
Qed.

(** A field adds nothing when it is [_id] or when no column matches it,
    neither exactly nor by inclusion. *)
Definition unmatched (toLowerCase : jsstring -> jsstring) (pgSchema : PostgresTableSchema)
  (field : FieldSchema) : Prop :=
  fieldName field <> js "_id" ->
  let sanitizedFieldName := toLowerCase (Utils.replaceDots (fieldName field)) in
  ~ In sanitizedFieldName (map colName (columns pgSchema)) /\
  forall col, In col (columns pgSchema) ->
              Mapping.partialMatch toLowerCase sanitizedFieldName col = false.

Lemma mapField_nil (toLowerCase : jsstring -> jsstring) (pgSchema : PostgresTableSchema)
  (field : FieldSchema) :
  Mapping.mapField toLowerCase pgSchema
    (fold_left JsSet.add (map colName (columns pgSchema)) JsSet.empty) [] field = []
  <-> unmatched toLowerCase pgSchema field.
Proof.
  unfold Mapping.mapField, unmatched.
  destruct (jsstring_eqb (fieldName field) (js "_id")) eqn:Eid.
  - apply jsstring_eqb_eq in Eid. split; [intros _ H; contradiction | reflexivity].
  - apply jsstring_eqb_neq in Eid. cbv zeta.
    rewrite set_of_list_has. simpl JsSet.has. rewrite orb_false_l.
    destruct (includes (map colName (columns pgSchema)) _) eqn:Einc.
    + apply includes_In in Einc. split; [discriminate|].
      intros H. destruct (H Eid) as (Hn & _). contradiction.
    + apply includes_not_In in Einc.
      destruct (find _ (columns pgSchema)) eqn:Efind.
      * split; [discriminate|]. intros H. destruct (H Eid) as (_ & Hf).
        apply (proj2 (find_None _ _)) in Hf. congruence.
      * pose proof (proj1 (find_None _ _) Efind) as Hnone.
        split; [intros _ _; auto | reflexivity].
Qed.

(** C4, as the code has it: the fallback mapping is empty when both inputs are
    empty, and in general exactly when the destination has no identifier column
    (a unique or primary-key column whose lower-cased name contains [id]) and
    every source field is [_id] or matches no column; fields that match
    nothing are dropped, so non-empty inputs can give an empty list.  This
    holds whatever [toLowerCase] does to the names, so for the built-in. *)
Theorem createBasicColumnMappings_empty_iff (toLowerCase : jsstring -> jsstring)
  (mongoSchema : CollectionSchema)
  (pgSchema : PostgresTableSchema) :
  (fields mongoSchema = [] -> columns pgSchema = [] ->
   Mapping.createBasicColumnMappings toLowerCase mongoSchema pgSchema = []) /\
  (Mapping.createBasicColumnMappings toLowerCase mongoSchema pgSchema = [] <->
   (forall col, In col (columns pgSchema) -> Mapping.isIdColumn toLowerCase col = false) /\
   (forall field, In field (fields mongoSchema) -> unmatched toLowerCase pgSchema field)).
Proof.
  assert (Hiff : Mapping.createBasicColumnMappings toLowerCase mongoSchema pgSchema = [] <->
    (forall col, In col (columns pgSchema) -> Mapping.isIdColumn toLowerCase col = false) /\
    (forall field, In field (fields mongoSchema) -> unmatched toLowerCase pgSchema field)).
  { unfold Mapping.createBasicColumnMappings. cbv zeta. rewrite fold_mapField.
    rewrite <- find_None. split.
    - intros H. apply app_eq_nil in H. destruct H as (Hid & Hfs).
      split.
      + destruct (find (Mapping.isIdColumn toLowerCase) (columns pgSchema));
          [discriminate | reflexivity].
      + intros field Hin. apply mapField_nil.
        apply (proj1 (flat_map_nil _ _) Hfs); assumption.
    - intros (Hid & Hfs). rewrite Hid. simpl. apply flat_map_nil.
      intros field Hin. apply mapField_nil, Hfs; assumption. }
  split; [|exact Hiff].
  intros Hf Hc. apply Hiff. rewrite Hf, Hc. split; intros ? [].
Qed.

(** What the built-in does on text of code units below 128. *)
Definition lowersAscii (toLowerCase : jsstring -> jsstring) : Prop :=
  forall s, Forall (fun c => (c < 128)%N) s -> toLowerCase s = Utils.toLowerCase s.

Definition posts : CollectionSchema :=
  {| collectionName := js "posts";
     fields := [ {| fieldName := js "title"; fieldType := TString;
                    isRequired := false; isArray := false |} ];
     indexes := None |}.

Definition postsTable : PostgresTableSchema :=
  {| pgTableName := js "posts";
     columns := [ {| colName := js "body"; colType := TEXT; nullable := true;
                     primaryKey := None; unique := None |} ] |}.

Lemma below_128 (s : string) :
  forallb (fun c => (c <? 128)%N) (js s) = true -> Forall (fun c => (c < 128)%N) (js s).
Proof.
  intros H. apply Forall_forall. intros c Hc.
  apply N.ltb_lt. revert c Hc. apply forallb_forall. exact H.
Qed.

Lemma createBasicColumnMappings_empty_iff_witness :
  Mapping.createBasicColumnMappings Utils.toLowerCase posts postsTable = [].
Proof.
  apply (proj2 (createBasicColumnMappings_empty_iff Utils.toLowerCase posts postsTable)).
  split.
  - intros col [<- | []]. reflexivity.
  - intros field [<- | []] _. split.
    + simpl. intros [H | []]. discriminate H.
    + intros col [<- | []]. reflexivity.
Defined.

(** C4 as stated fails: a field [title] against a single column [body] (not an
    identifier column, no name in common) is dropped, and the mapping is empty
    although both inputs are non-empty; and against a table without columns
    every field is dropped, whatever the case mapping. *)
Lemma createBasicColumnMappings_may_be_empty :
  (forall toLowerCase,
     lowersAscii toLowerCase ->
     Mapping.createBasicColumnMappings toLowerCase posts postsTable = []) /\
  (forall toLowerCase,
     Mapping.createBasicColumnMappings toLowerCase posts
       {| pgTableName := js "posts"; columns := [] |} = []) /\
  ~ (forall toLowerCase mongoSchema pgSchema,
       fields mongoSchema <> [] \/ columns pgSchema <> [] ->
       Mapping.createBasicColumnMappings toLowerCase mongoSchema pgSchema <> []).
Proof.
  assert (Hempty : forall toLowerCase,
            Mapping.createBasicColumnMappings toLowerCase posts
              {| pgTableName := js "posts"; columns := [] |} = [])
    by (intros toLowerCase; reflexivity).
  split; [|split; [exact Hempty|]].
  - intros toLowerCase Hascii.
    unfold Mapping.createBasicColumnMappings, Mapping.mapField, Mapping.partialMatch,
      Mapping.isIdColumn, posts, postsTable.
    cbn [fields columns colName fieldName map fold_left find unique primaryKey].
    rewrite (Hascii (js "body")) by (apply below_128; reflexivity).
    change (Utils.replaceDots (js "title")) with (js "title").
    rewrite (Hascii (js "title")) by (apply below_128; reflexivity).
    reflexivity.
  - intros H.
    apply (H Utils.toLowerCase posts {| pgTableName := js "posts"; columns := [] |}).
    + left; discriminate.
    + apply Hempty.
Qed.

(** Where the built-in folds a letter outside ASCII, the mapping follows it:
    the field [État] (code units 201, 116, 97, 116) is matched with the
    column [état] (233, 116, 97, 116). *)
Lemma createBasicColumnMappings_folds_case (toLowerCase : jsstring -> jsstring) :
  toLowerCase [201; 116; 97; 116]%N = [233; 116; 97; 116]%N ->
  Mapping.createBasicColumnMappings toLowerCase
    {| collectionName := js "pays";
       fields := [ {| fieldName := [201; 116; 97; 116]%N; fieldType := TString;
                      isRequired := false; isArray := false |} ];
       indexes := None |}
    {| pgTableName := js "pays";
       columns := [ {| colName := [233; 116; 97; 116]%N; colType := TEXT; nullable := true;
                       primaryKey := None; unique := None |} ] |}
  = [Mapping.mapping [201; 116; 97; 116]%N [233; 116; 97; 116]%N].
Proof.
  intros Hfold.
  unfold Mapping.createBasicColumnMappings, Mapping.mapField, Mapping.isIdColumn.
  cbn [fields columns colName fieldName map fold_left find unique primaryKey truthy orb].
  rewrite andb_false_r.
  change (Utils.replaceDots [201; 116; 97; 116]%N) with [201; 116; 97; 116]%N.
  rewrite Hfold. reflexivity.
Qed.



(** ** inferTypeFromValue *)

Lemma inferTypeFromValue_fuel (v : value) : Infer.inferTypeFromValue v <> OutOfFuel.
Proof.
  destruct v; simpl; try discriminate.
  - destruct (JsMap.get entries (js "toString")); [discriminate|].
    destruct (Infer.isObjectIdText _); discriminate.
  - destruct (Infer.isObjectIdText _); discriminate.
Qed.

(** [null] is inferred for [null] and [undefined] only. *)
Lemma inferTypeFromValue_null (v : value) :
  Infer.inferTypeFromValue v = Returned TNull -> v = VNull \/ v = VUndefined.
Proof.
  destruct v; simpl; auto; try discriminate.
  - destruct (JsMap.get entries (js "toString")); [discriminate|].
    destruct (Infer.isObjectIdText _); discriminate.
  - destruct (Infer.isObjectIdText _); discriminate.
Qed.

(** C8 on the code: a binary payload (an instance of the driver's binary
    class, whatever its text and properties) takes the [typeof value ===
    'object'] branch and is tagged [objectId] when its text is 24 hex digits
    and [object] otherwise; no value at all is tagged [binary].  Nor is the
    function total: on a sub-document with a field of its own named
    [toString], the call [value.toString()] raises a [TypeError]. *)
Theorem inferTypeFromValue_binary (text : jsstring) (entries : list (jsstring * value)) :
  Infer.inferTypeFromValue (VInstance BinaryInstance text entries)
  = Returned (if Infer.isObjectIdText text then TObjectId else TObject) /\
  (forall v, Infer.inferTypeFromValue v <> Returned TBinary) /\
  Infer.inferTypeFromValue (VObject [(js "toString", VString (js "x"))])
  = Thrown Infer.TypeError.
Proof.
  repeat split.
  - simpl. destruct (Infer.isObjectIdText text); reflexivity.
  - intros v. destruct v; simpl; try discriminate.
    + destruct (JsMap.get entries0 (js "toString")); [discriminate|].
      destruct (Infer.isObjectIdText _); discriminate.
    + destruct (Infer.isObjectIdText _); discriminate.
Qed.

(** ** analyzeDocument *)

(** Every field that has a non-null type in [before] has the same type in
    [after]. *)
Definition keeps_types (before after : MongoAnalyzer.FieldMap) : Prop :=
  forall name field,
    JsMap.get before name = Some field -> fieldType field <> TNull ->
    exists field', JsMap.get after name = Some field' /\
                   fieldType field' = fieldType field.

Lemma keeps_types_refl (m : MongoAnalyzer.FieldMap) : keeps_types m m.
Proof. intros name field H _. exists field; auto. Qed.

Lemma keeps_types_trans (a b c : MongoAnalyzer.FieldMap) :
  keeps_types a b -> keeps_types b c -> keeps_types a c.
Proof.
  intros Hab Hbc name field H Hn.
  destruct (Hab name field H Hn) as (f1 & H1 & E1).
  destruct (Hbc name f1 H1) as (f2 & H2 & E2); [congruence|].
  exists f2. split; [assumption | congruence].
Qed.

Lemma register_keeps (m m' : MongoAnalyzer.FieldMap) (name : jsstring) (v : value) :
  MongoAnalyzer.register m name v = Returned m' -> keeps_types m m'.
Proof.
  unfold MongoAnalyzer.register, JsMap.has.
  destruct (JsMap.get m name) as [f|] eqn:E.
  - intros H; inversion H; subst. apply keeps_types_refl.
  - destruct (Infer.inferTypeFromValue v); try discriminate.
    intros H; inversion H; subst. intros n f Hn _. exists f. split; [|reflexivity].
    rewrite map_get_set_other; [assumption | congruence].
Qed.

Lemma setType_keeps (m : MongoAnalyzer.FieldMap) (name : jsstring) (t : MongoFieldType) :
  (forall f, JsMap.get m name = Some f -> fieldType f = TNull) ->
  keeps_types m (MongoAnalyzer.setType m name t).
Proof.
  intros Hnull n f Hn Hf. unfold MongoAnalyzer.setType.
  destruct (JsMap.get m name) as [f0|] eqn:E; [|exists f; auto].
  destruct (jsstring_eq_dec name n) as [<- | Hne].
  - exfalso. apply Hf. rewrite E in Hn. inversion Hn; subst. apply Hnull; reflexivity.
  - exists f. rewrite map_get_set_other by assumption. auto.
Qed.

Lemma setIsArray_keeps (m : MongoAnalyzer.FieldMap) (name : jsstring) :
  keeps_types m (MongoAnalyzer.setIsArray m name).
Proof.
  intros n f Hn Hf. unfold MongoAnalyzer.setIsArray.
  destruct (JsMap.get m name) as [f0|] eqn:E; [|exists f; auto].
  destruct (jsstring_eq_dec name n) as [<- | Hne].
  - rewrite map_get_set_same. eexists; split; [reflexivity|]. simpl. congruence.
  - exists f. rewrite map_get_set_other by assumption. auto.
Qed.

Lemma promote_keeps (m m' : MongoAnalyzer.FieldMap) (name : jsstring) (v : value) :
  MongoAnalyzer.promote m name v = Returned m' -> keeps_types m m'.
Proof.
  unfold MongoAnalyzer.promote.
  assert (Hgen : match Infer.inferTypeFromValue v with
                 | Returned currentType =>
                     match JsMap.get m name with
                     | Some field =>
                         match fieldType field with
                         | TNull => Returned (MongoAnalyzer.setType m name currentType)
                         | _ => Returned m
                         end
                     | None => Returned m
                     end
                 | Thrown e => Thrown e
                 | OutOfFuel => OutOfFuel
                 end = Returned m' -> keeps_types m m').
  { destruct (Infer.inferTypeFromValue v) as [t| |]; try discriminate.
    destruct (JsMap.get m name) as [f|] eqn:E.
    - destruct (fieldType f) eqn:Et; intros H; inversion H; subst;
        try apply keeps_types_refl.
      apply setType_keeps. intros f0 H0. congruence.
    - intros H; inversion H; subst. apply keeps_types_refl. }
  destruct v; try exact Hgen; intros H; inversion H; subst; apply keeps_types_refl.
Qed.

Lemma bind_Returned {A B : Type} (m : outcome A) (k : A -> outcome B) (b : B) :
  bind m k = Returned b -> exists a, m = Returned a /\ k a = Returned b.
Proof. destruct m; simpl; try discriminate. intros H; eauto. Qed.

(** A loop whose body preserves a preorder on the state preserves it. *)
Lemma forEach_preserves {A S : Type} (R : S -> S -> Prop) (body : S -> A -> outcome S)
  (l : list A) :
  (forall s, R s s) -> (forall a b c, R a b -> R b c -> R a c) ->
  (forall s x s', In x l -> body s x = Returned s' -> R s s') ->
  forall s s', forEach body l s = Returned s' -> R s s'.
Proof.
  intros Hrefl Htrans. induction l as [|x l IH]; intros Hbody s s'; simpl.
  - intros H; inversion H; subst. apply Hrefl.
  - intros H. apply bind_Returned in H. destruct H as (s1 & H1 & H2).
    apply Htrans with s1.
    + eapply Hbody; [left; reflexivity | eassumption].
    + apply IH; [|assumption]. intros; eapply Hbody; [right|]; eassumption.
Qed.

Lemma analyzeEntry_keeps
  (recur : value -> MongoAnalyzer.FieldMap -> jsstring -> outcome MongoAnalyzer.FieldMap)
  (prefix : jsstring) (m m' : MongoAnalyzer.FieldMap) (entry : jsstring * value) :
  (forall v a b p, recur v a p = Returned b -> keeps_types a b) ->
  MongoAnalyzer.analyzeEntry recur prefix m entry = Returned m' -> keeps_types m m'.
Proof.
  intros Hrecur. destruct entry as [key v]. unfold MongoAnalyzer.analyzeEntry.
  cbv zeta. intros H.
  apply bind_Returned in H. destruct H as (a1 & H1 & H).
  apply bind_Returned in H. destruct H as (a2 & H2 & H).
  apply bind_Returned in H. destruct H as (a3 & H3 & H).
  apply register_keeps in H1. apply promote_keeps in H2.
  assert (K3 : keeps_types a2 a3).
  { destruct (isObject v && negb (isArrayValue v) && negb (isDate v)).
    - eapply Hrecur; eassumption.
    - inversion H3; subst. apply keeps_types_refl. }
  assert (K4 : keeps_types a3 m').
  { destruct v as [| | | | | |[|firstItem items]| | |];
      try (inversion H; subst; apply keeps_types_refl).
    apply keeps_types_trans
      with (MongoAnalyzer.setIsArray a3 (MongoAnalyzer.fieldNameOf prefix key)).
    - apply setIsArray_keeps.
    - destruct (isObject firstItem && negb (isDate firstItem)).
      + eapply Hrecur; eassumption.
      + inversion H; subst. apply keeps_types_refl. }
  eauto using keeps_types_trans.
Qed.

Lemma analyzeDocument_keeps (fuel : nat) :
  forall (doc : value) (m m' : MongoAnalyzer.FieldMap) (prefix : jsstring),
    MongoAnalyzer.analyzeDocument fuel doc m prefix = Returned m' -> keeps_types m m'.
Proof.
  induction fuel as [|fuel IH]; intros doc m m' prefix; simpl; [discriminate|].
  apply (forEach_preserves keeps_types).
  - apply keeps_types_refl.
  - apply keeps_types_trans.
  - intros s x s' _. apply analyzeEntry_keeps. intros v a b p. apply IH.
Qed.

(** *** Enough fuel *)

Lemma depth_indexed (items : list value) :
  forall i k v, In (k, v) (indexed i items) -> In v items.
Proof.
  induction items as [|x items IH]; simpl; intros i k v; [tauto|].
  intros [H|H]; [inversion H; auto | right; eapply IH; eassumption].
Qed.

Lemma list_max_In (l : list nat) (n : nat) : In n l -> n <= list_max l.
Proof.
  intros H. assert (Hall : Forall (fun k => k <= list_max l) l)
    by (apply list_max_le; lia).
  rewrite Forall_forall in Hall. apply Hall; assumption.
Qed.

Lemma depth_entries (doc : value) (k : jsstring) (v : value) :
  In (k, v) (entriesOf doc) -> depth v < depth doc.
Proof.
  destruct doc; simpl; try tauto; intros H; apply Nat.lt_succ_r, list_max_In.
  - apply depth_indexed in H. apply in_map; assumption.
  - apply (in_map (fun '(_, x) => depth x)) in H. exact H.
  - apply (in_map (fun '(_, x) => depth x)) in H. exact H.
Qed.

Lemma forEach_fuel {A S : Type} (body : S -> A -> outcome S) (l : list A) :
  (forall s x, In x l -> body s x <> OutOfFuel) ->
  forall s, forEach body l s <> OutOfFuel.
Proof.
  induction l as [|x l IH]; intros Hbody s; simpl; [discriminate|].
  destruct (body s x) as [s1| |] eqn:E; simpl; try discriminate.
  - apply IH. intros; apply Hbody; right; assumption.
  - exfalso. eapply Hbody; [left; reflexivity | eassumption].
Qed.

Lemma register_fuel (m : MongoAnalyzer.FieldMap) (name : jsstring) (v : value) :
  MongoAnalyzer.register m name v <> OutOfFuel.
Proof.
  unfold MongoAnalyzer.register. destruct (JsMap.has m name); [discriminate|].
  pose proof (inferTypeFromValue_fuel v).
  destruct (Infer.inferTypeFromValue v); congruence.
Qed.

Lemma promote_fuel (m : MongoAnalyzer.FieldMap) (name : jsstring) (v : value) :
  MongoAnalyzer.promote m name v <> OutOfFuel.
Proof.
  unfold MongoAnalyzer.promote. pose proof (inferTypeFromValue_fuel v) as Hf.
  destruct v; try discriminate;
    (destruct (Infer.inferTypeFromValue _); [|discriminate|congruence];
     destruct (JsMap.get m name) as [f|]; [destruct (fieldType f)|]; discriminate).
Qed.

Lemma analyzeDocument_fuel (fuel : nat) :
  forall (doc : value) (m : MongoAnalyzer.FieldMap) (prefix : jsstring),
    depth doc < fuel -> MongoAnalyzer.analyzeDocument fuel doc m prefix <> OutOfFuel.
Proof.
  induction fuel as [|fuel IH]; intros doc m prefix Hd; [lia|]. simpl.
  apply forEach_fuel. intros s [key v] Hin. apply depth_entries in Hin.
  unfold MongoAnalyzer.analyzeEntry. cbv zeta.
  pose proof (register_fuel s (MongoAnalyzer.fieldNameOf prefix key) v) as H1.
  destruct (MongoAnalyzer.register _ _ _) as [a1| |]; simpl; try congruence.
  pose proof (promote_fuel a1 (MongoAnalyzer.fieldNameOf prefix key) v) as H2.
  destruct (MongoAnalyzer.promote _ _ _) as [a2| |]; simpl; try congruence.
  assert (H3 : (if isObject v && negb (isArrayValue v) && negb (isDate v)
                then MongoAnalyzer.analyzeDocument fuel v a2
                       (MongoAnalyzer.fieldNameOf prefix key)
                else Returned a2) <> OutOfFuel).
  { destruct (isObject v && negb (isArrayValue v) && negb (isDate v));
      [apply IH; lia | discriminate]. }
  destruct (if isObject v && negb (isArrayValue v) && negb (isDate v) then _ else _)
    as [a3| |]; simpl; try congruence.
  destruct v as [| | | | | |[|firstItem items]| | |]; try discriminate.
  destruct (isObject firstItem && negb (isDate firstItem)); [|discriminate].
  apply IH. simpl in Hin. pose proof (Nat.le_max_l (depth firstItem) (list_max (map depth items))).
  lia.
Qed.

Lemma analyzeDocuments_fuel (documents : list value) (fieldMap : MongoAnalyzer.FieldMap) :
  MongoAnalyzer.analyzeDocuments documents fieldMap <> OutOfFuel.
Proof.
  apply forEach_fuel. intros s doc _. apply analyzeDocument_fuel. lia.
Qed.

(** C7: folding any sequence of documents into any field map ends (with the
    map, or with the exception of [inferTypeFromValue]), and in the map it
    returns every field that had a non-null type before still has that same
    type: the first non-null type observed for a field is final, and a later
    [null] never replaces it. *)
Theorem analyzeDocuments_type_final (documents : list value)
  (fieldMap : MongoAnalyzer.FieldMap) :
  MongoAnalyzer.analyzeDocuments documents fieldMap <> OutOfFuel /\
  forall fieldMap' name field,
    MongoAnalyzer.analyzeDocuments documents fieldMap = Returned fieldMap' ->
    JsMap.get fieldMap name = Some field -> fieldType field <> TNull ->
    exists field', JsMap.get fieldMap' name = Some field' /\
                   fieldType field' = fieldType field.
Proof.
  split.
  - apply analyzeDocuments_fuel.
  - intros fieldMap' name field H. revert name field.
    change (keeps_types fieldMap fieldMap').
    revert H. apply (forEach_preserves keeps_types).
    + apply keeps_types_refl.
    + apply keeps_types_trans.
    + intros s doc s' _. apply analyzeDocument_keeps.
Qed.

Lemma analyzeDocuments_type_final_witness :
  let age := {| fieldName := js "age"; fieldType := TNumber;
                isRequired := false; isArray := false |} in
  let documents := [VObject [(js "age", VNull)]; VObject [(js "age", VString (js "n/a"))]] in
  exists field',
    JsMap.get
      (match MongoAnalyzer.analyzeDocuments documents [(js "age", age)]
       with Returned m => m | _ => [] end) (js "age") = Some field' /\
    fieldType field' = TNumber.
Proof.
  intros age documents.
  apply (proj2 (analyzeDocuments_type_final documents [(js "age", age)])
           (match MongoAnalyzer.analyzeDocuments documents [(js "age", age)]
            with Returned m => m | _ => [] end) (js "age") age).
  - reflexivity.
  - reflexivity.
  - discriminate.
Defined.

(** ** Regular expressions: what a match consumes *)

(** The least number of code units a match of [r] takes. *)
Fixpoint minLength (r : Regex.regex) : nat :=
  match r with
  | Regex.Eps => 0
  | Regex.Chr _ => 1
  | Regex.Seq r1 r2 => minLength r1 + minLength r2
  | Regex.Alt r1 r2 => Nat.min (minLength r1) (minLength r2)
  | Regex.Star _ _ => 0
  | Regex.Group _ r1 => minLength r1
  | Regex.Eol => 0
  end.

Lemma orElse_Some {A : Type} (a b : option A) (x : A) :
  Regex.orElse a b = Some x -> a = Some x \/ b = Some x.
Proof. destruct a; simpl; auto. Qed.

Lemma iterate_consumes {T : Type}
  (step : Regex.state -> (Regex.state -> option T) -> option T)
  (greedy : bool) (k : Regex.state -> option T) (x : T) :
  (forall st k', step st k' = Some x ->
     exists st', k' st' = Some x /\ length (Regex.rest st') <= length (Regex.rest st)) ->
  forall n st,
    Regex.iterate step greedy k n st = Some x ->
    exists st', k st' = Some x /\ length (Regex.rest st') <= length (Regex.rest st).
Proof.
  intros Hstep. induction n as [|n IH]; intros st; simpl.
  - intros H; exists st; auto.
  - intros H.
    assert (Hor :
      step st (fun st1 =>
        if Nat.ltb (length (Regex.rest st1)) (length (Regex.rest st))
        then Regex.iterate step greedy k n st1 else None) = Some x \/ k st = Some x).
    { destruct greedy; apply orElse_Some in H; tauto. }
    destruct Hor as [Hagain | Hk]; [|exists st; auto].
    apply Hstep in Hagain. destruct Hagain as (st1 & H1 & Hlen1).
    destruct (Nat.ltb _ _); [|discriminate].
    apply IH in H1. destruct H1 as (st' & Hk & Hlen). exists st'. split; [assumption | lia].
Qed.

(** Whatever [run] accepts, the continuation accepted after at least
    [minLength r] code units were taken from the input. *)
Lemma run_consumes (r : Regex.regex) :
  forall (T : Type) (st : Regex.state) (k : Regex.state -> option T) (x : T),
    Regex.run r st k = Some x ->
    exists st', k st' = Some x /\
                length (Regex.rest st') + minLength r <= length (Regex.rest st).
Proof.
  induction r as [|class|r1 IH1 r2 IH2|r1 IH1 r2 IH2|greedy r1 IH1|n r1 IH1|];
    intros T st k x; simpl.
  - intros H; exists st; split; [assumption | lia].
  - destruct (Regex.rest st) as [|c s] eqn:E; [discriminate|].
    destruct (class c); [|discriminate]. intros H.
    eexists; split; [eassumption|]. simpl; lia.
  - intros H. apply IH1 in H. destruct H as (st1 & H & Hlen1).
    apply IH2 in H. destruct H as (st' & H & Hlen2).
    exists st'; split; [assumption | lia].
  - intros H. apply orElse_Some in H. destruct H as [H|H].
    + apply IH1 in H. destruct H as (st' & H & Hlen). exists st'; split; [assumption | lia].
    + apply IH2 in H. destruct H as (st' & H & Hlen). exists st'; split; [assumption | lia].
  - intros H. apply iterate_consumes in H.
    + destruct H as (st' & H & Hlen). exists st'; split; [assumption | lia].
    + intros st0 k' Hs. apply IH1 in Hs. destruct Hs as (st' & Hs & Hlen).
      exists st'; split; [assumption | lia].
  - intros H. apply IH1 in H. destruct H as (st1 & H & Hlen).
    eexists; split; [eassumption|]. simpl; lia.
  - destruct (Regex.rest st) as [|c s] eqn:E.
    + intros H; exists st; split; [assumption | rewrite E; simpl; lia].
    + destruct (Regex.isLineTerminator c); [|discriminate].
      intros H; exists st; split; [assumption | rewrite E; simpl; lia].
Qed.

Lemma search_unfold (r : Regex.regex) (start : nat) (s : jsstring) :
  Regex.search r start s =
  match Regex.run r {| Regex.rest := s; Regex.captures := [] |} (fun st => Some st) with
  | Some st =>
      Some {| Regex.index := start;
              Regex.matched := firstn (length s - length (Regex.rest st)) s;
              Regex.groups := Regex.captures st;
              Regex.endIndex := start + (length s - length (Regex.rest st)) |}
  | None =>
      match s with
      | [] => None
      | _ :: s' => Regex.search r (S start) s'
      end
  end.
Proof. destruct s; reflexivity. Qed.

Lemma search_hit (r : Regex.regex) (start : nat) (s : jsstring) (st : Regex.state) :
  Regex.run r {| Regex.rest := s; Regex.captures := [] |} (fun st => Some st) = Some st ->
  start + minLength r <= start + (length s - length (Regex.rest st)) /\
  start + (length s - length (Regex.rest st)) <= start + length s.
Proof.
  intros E. apply run_consumes in E. destruct E as (st' & [= ->] & Hlen).
  cbn [Regex.rest] in Hlen. lia.
Qed.

(** A match of [search] starts no earlier than where the search starts, ends
    within the input and is at least [minLength r] long. *)
Lemma search_bounds (r : Regex.regex) (s : jsstring) :
  forall (start : nat) (m : Regex.matchResult),
    Regex.search r start s = Some m ->
    start <= Regex.index m /\
    Regex.index m + minLength r <= Regex.endIndex m /\
    Regex.endIndex m <= start + length s.
Proof.
  induction s as [|c s IH]; intros start m; rewrite search_unfold;
    (destruct (Regex.run r _ _) as [st|] eqn:E;
     [ intros [= <-]; split; [apply Nat.le_refl | exact (search_hit r start _ st E)] | ]).
  - discriminate.
  - intros H. apply IH in H. cbn [length]. lia.
Qed.

Lemma exec_bounds (r : Regex.regex) (input : jsstring) (lastIndex : nat)
  (m : Regex.matchResult) :
  Regex.exec r input lastIndex = Some m ->
  lastIndex <= Regex.index m /\
  Regex.index m + minLength r <= Regex.endIndex m /\
  Regex.endIndex m <= length input.
Proof.
  unfold Regex.exec. destruct (Nat.leb_spec lastIndex (length input)); [|discriminate].
  intros Hs. apply search_bounds in Hs. rewrite length_skipn in Hs. lia.
Qed.

Lemma exec_past_end (r : Regex.regex) (input : jsstring) (lastIndex : nat) :
  length input < lastIndex -> Regex.exec r input lastIndex = None.
Proof.
  intros Hlt. unfold Regex.exec.
  destruct (Nat.leb_spec lastIndex (length input)); [lia | reflexivity].
Qed.

(** ** The loops over the matches end *)

Lemma matchAll_returns (r : Regex.regex) (input : jsstring) (fuel : nat) :
  forall lastIndex,
    S (length input) < fuel + lastIndex ->
    exists ms, Regex.matchAll fuel r input lastIndex = Returned ms.
Proof.
  induction fuel as [|fuel IH]; intros lastIndex Hfuel.
  - simpl. rewrite exec_past_end by lia. eexists; reflexivity.
  - simpl. destruct (Regex.exec r input lastIndex) as [m|] eqn:E; [|eexists; reflexivity].
    apply exec_bounds in E.
    destruct (IH (if Nat.eqb (Regex.endIndex m) (Regex.index m)
                  then S (Regex.endIndex m) else Regex.endIndex m)) as [ms Hms].
    + destruct (Nat.eqb_spec (Regex.endIndex m) (Regex.index m)); lia.
    + rewrite Hms. simpl. eexists; reflexivity.
Qed.

Lemma replace_returns (r : Regex.regex) (replacement input : jsstring) :
  exists s, Regex.replace r replacement input = Returned s.
Proof.
  unfold Regex.replace.
  destruct (matchAll_returns r input (S (S (length input))) 0) as [ms Hms]; [lia|].
  rewrite Hms. simpl. eexists; reflexivity.
Qed.

(** A [while] loop over the matches of a pattern that cannot match the empty
    string ends, provided its body returns. *)
Lemma whileExec_returns {S : Type} (r : Regex.regex) (input : jsstring)
  (body : S -> Regex.matchResult -> outcome S) :
  1 <= minLength r ->
  (forall s m, exists s', body s m = Returned s') ->
  forall fuel lastIndex s,
    length input < fuel + lastIndex ->
    exists s', Regex.whileExec fuel r input lastIndex body s = Returned s'.
Proof.
  intros Hmin Hbody. induction fuel as [|fuel IH]; intros lastIndex s Hfuel.
  - simpl. rewrite exec_past_end by lia. eexists; reflexivity.
  - simpl. destruct (Regex.exec r input lastIndex) as [m|] eqn:E; [|eexists; reflexivity].
    apply exec_bounds in E. destruct (Hbody s m) as [s1 Hs1]. rewrite Hs1. simpl.
    apply IH. lia.
Qed.

(** ** parseRelationships *)

(** The relationships one of the two loops finds from position [lastIndex] on,
    each with the position in the cleaned text of the constraint it comes
    from. *)
Fixpoint constraintsFrom (fuel : nat) (r : Regex.regex) (input : jsstring)
  (lastIndex : nat)
  (body : list TableRelationship -> Regex.matchResult -> outcome (list TableRelationship))
  : outcome (list (nat * TableRelationship)) :=
  match Regex.exec r input lastIndex with
  | None => Returned []
  | Some m =>
      match fuel with
      | O => OutOfFuel
      | S fuel =>
          found <- body [] m ;;
          later <- constraintsFrom fuel r input (Regex.endIndex m) body ;;
          Returned (map (pair (Regex.index m)) found ++ later)
      end
  end.

(** The positions of the constraints, in the order in which
    [parseRelationships] returns their relationships. *)
Definition constraintPositions (ddlContent : jsstring) : outcome (list nat) :=
  cleanedDDL <- DDLParser.cleanDDL ddlContent ;;
  explicit <- constraintsFrom (S (length cleanedDDL)) DDLParser.foreignKeyRegex
                cleanedDDL 0 (DDLParser.foreignKeyBody cleanedDDL) ;;
  inline <- constraintsFrom (S (length cleanedDDL)) DDLParser.inlineReferencesRegex
              cleanedDDL 0 (DDLParser.inlineBody cleanedDDL) ;;
  Returned (map fst explicit ++ map fst inline).

(** A loop body that only appends to the list it is given. *)
Definition appends
  (body : list TableRelationship -> Regex.matchResult -> outcome (list TableRelationship))
  : Prop :=
  forall rels m, body rels m = (found <- body [] m ;; Returned (rels ++ found)).

Lemma bind_assoc {A B C : Type} (m : outcome A) (f : A -> outcome B) (g : B -> outcome C) :
  bind (bind m f) g = bind m (fun a => bind (f a) g).
Proof. destruct m; reflexivity. Qed.

Lemma bind_ext {A B : Type} (m : outcome A) (f g : A -> outcome B) :
  (forall a, f a = g a) -> bind m f = bind m g.
Proof. intros H. destruct m; simpl; auto. Qed.

Lemma pushRelationship_appends (cleaned : jsstring) (rels : list TableRelationship)
  (m : Regex.matchResult) (a b c : jsstring) :
  DDLParser.pushRelationship cleaned rels m a b c
  = (found <- DDLParser.pushRelationship cleaned [] m a b c ;; Returned (rels ++ found)).
Proof.
  unfold DDLParser.pushRelationship. rewrite bind_assoc. apply bind_ext.
  intros [[|x name]|]; simpl; rewrite ?app_nil_r; reflexivity.
Qed.

Lemma foreignKeyBody_appends (cleaned : jsstring) :
  appends (DDLParser.foreignKeyBody cleaned).
Proof.
  intros rels m. unfold DDLParser.foreignKeyBody.
  rewrite bind_assoc. apply bind_ext. intros a.
  rewrite bind_assoc. apply bind_ext. intros b.
  rewrite bind_assoc. apply bind_ext. intros c.
  apply pushRelationship_appends.
Qed.

Lemma inlineBody_appends (cleaned : jsstring) :
  appends (DDLParser.inlineBody cleaned).
Proof.
  intros rels m. unfold DDLParser.inlineBody. cbv zeta.
  rewrite bind_assoc. apply bind_ext. intros b.
  rewrite bind_assoc. apply bind_ext. intros c.
  apply pushRelationship_appends.
Qed.

Lemma whileExec_constraints (r : Regex.regex) (input : jsstring)
  (body : list TableRelationship -> Regex.matchResult -> outcome (list TableRelationship)) :
  appends body ->
  forall fuel lastIndex rels,
    Regex.whileExec fuel r input lastIndex body rels
    = (found <- constraintsFrom fuel r input lastIndex body ;;
       Returned (rels ++ map snd found)).
Proof.
  intros Happ. induction fuel as [|fuel IH]; intros lastIndex rels; simpl;
    destruct (Regex.exec r input lastIndex) as [m|]; simpl;
    rewrite ?app_nil_r; try reflexivity.
  rewrite (Happ rels m), !bind_assoc. apply bind_ext. intros found. simpl.
  rewrite IH, !bind_assoc. apply bind_ext. intros later. simpl.
  rewrite map_app, map_map, app_assoc. simpl. rewrite map_id. reflexivity.
Qed.

Lemma constraintsFrom_sorted (r : Regex.regex) (input : jsstring)
  (body : list TableRelationship -> Regex.matchResult -> outcome (list TableRelationship)) :
  forall fuel lastIndex found,
    constraintsFrom fuel r input lastIndex body = Returned found ->
    Forall (fun p => lastIndex <= fst p) found /\ StronglySorted le (map fst found).
Proof.
  induction fuel as [|fuel IH]; intros lastIndex found; simpl;
    destruct (Regex.exec r input lastIndex) as [m|] eqn:E;
    try discriminate; try (intros [= <-]; split; constructor).
  apply exec_bounds in E. intros H.
  apply bind_Returned in H. destruct H as (new & _ & H).
  apply bind_Returned in H. destruct H as (later & Hlater & [= <-]).
  apply IH in Hlater. destruct Hlater as (Hge & Hsorted).
  split.
  - apply Forall_app. split.
    + apply Forall_forall. intros p Hp. apply in_map_iff in Hp.
      destruct Hp as (x & <- & _). simpl; lia.
    + eapply Forall_impl; [|exact Hge]. simpl; intros; lia.
  - rewrite map_app, map_map. simpl.
    induction new as [|x new IHnew]; simpl; [assumption|].
    constructor; [assumption|].
    apply Forall_app. split.
    + apply Forall_forall. intros p Hp. apply in_map_iff in Hp.
      destruct Hp as (y & <- & _). lia.
    + apply Forall_map. eapply Forall_impl; [|exact Hge]. simpl; intros; lia.
Qed.

Lemma unquoted_returns (s : jsstring) : exists s', DDLParser.unquoted s = Returned s'.
Proof. apply replace_returns. Qed.

Lemma findTableNameForConstraint_returns (ddl : jsstring) (constraintIndex : nat) :
  exists found, DDLParser.findTableNameForConstraint ddl constraintIndex = Returned found.
Proof.
  unfold DDLParser.findTableNameForConstraint. cbv zeta.
  apply whileExec_returns.
  - vm_compute. lia.
  - intros s m. destruct (unquoted_returns (Regex.group m 1)) as [name ->].
    simpl. eexists; reflexivity.
  - lia.
Qed.

Lemma pushRelationship_returns (cleaned : jsstring) (rels : list TableRelationship)
  (m : Regex.matchResult) (a b c : jsstring) :
  exists rels', DDLParser.pushRelationship cleaned rels m a b c = Returned rels'.
Proof.
  unfold DDLParser.pushRelationship.
  destruct (findTableNameForConstraint_returns cleaned (Regex.index m)) as [found ->].
  simpl. destruct found as [[|x name]|]; eexists; reflexivity.
Qed.

Lemma foreignKeyBody_returns (cleaned : jsstring) (rels : list TableRelationship)
  (m : Regex.matchResult) :
  exists rels', DDLParser.foreignKeyBody cleaned rels m = Returned rels'.
Proof.
  unfold DDLParser.foreignKeyBody.
  destruct (unquoted_returns (Regex.group m 1)) as [a ->].
  destruct (unquoted_returns (Regex.group m 2)) as [b ->].
  destruct (unquoted_returns (Regex.group m 3)) as [c ->]. simpl.
  apply pushRelationship_returns.
Qed.

Lemma inlineBody_returns (cleaned : jsstring) (rels : list TableRelationship)
  (m : Regex.matchResult) :
  exists rels', DDLParser.inlineBody cleaned rels m = Returned rels'.
Proof.
  unfold DDLParser.inlineBody. cbv zeta.
  destruct (unquoted_returns (Regex.group m 2)) as [b ->].
  destruct (unquoted_returns (Regex.group m 3)) as [c ->]. simpl.
  apply pushRelationship_returns.
Qed.

Lemma cleanDDL_returns (ddl : jsstring) :
  exists cleaned, DDLParser.cleanDDL ddl = Returned cleaned.
Proof.
  unfold DDLParser.cleanDDL.
  destruct (replace_returns DDLParser.lineComment [] ddl) as [s1 ->]. simpl.
  destruct (replace_returns DDLParser.blockComment [] s1) as [s2 ->]. simpl.
  destruct (replace_returns DDLParser.spaces (js " ") s2) as [s3 ->]. simpl.
  eexists; reflexivity.
Qed.

Lemma loop_constraints (r : Regex.regex) (cleaned : jsstring)
  (body : list TableRelationship -> Regex.matchResult -> outcome (list TableRelationship))
  (rels : list TableRelationship) :
  1 <= minLength r -> appends body ->
  (forall rels m, exists rels', body rels m = Returned rels') ->
  exists found,
    constraintsFrom (S (length cleaned)) r cleaned 0 body = Returned found /\
    Regex.whileExec (S (length cleaned)) r cleaned 0 body rels
    = Returned (rels ++ map snd found) /\
    StronglySorted le (map fst found).
Proof.
  intros Hmin Happ Hret.
  destruct (whileExec_returns r cleaned body Hmin Hret (S (length cleaned)) 0 rels)
    as [out Hout]; [lia|].
  rewrite (whileExec_constraints r cleaned body Happ) in Hout.
  apply bind_Returned in Hout. destruct Hout as (found & Hfound & [= <-]).
  exists found. split; [assumption|]. split.
  - rewrite (whileExec_constraints r cleaned body Happ), Hfound. reflexivity.
  - apply (constraintsFrom_sorted r cleaned body _ _ _ Hfound).
Qed.

Definition duplicatedConstraint : jsstring :=
  js "CREATE TABLE posts (
  author_id INTEGER,
  FOREIGN KEY (author_id) REFERENCES users(id),
  FOREIGN KEY (author_id) REFERENCES users(id)
);".

Definition inlineBeforeExplicit : jsstring :=
  js "CREATE TABLE a (id INT PRIMARY KEY);
CREATE TABLE b (id INT PRIMARY KEY, a_id INT REFERENCES a(id));
CREATE TABLE c (id INT PRIMARY KEY, b_id INT, FOREIGN KEY (b_id) REFERENCES b(id));".

(** C5, as the code has it: [parseRelationships] returns, for every script,
    the relationships of the explicit [FOREIGN KEY] form in the order of their
    constraints in the cleaned text, followed by those of the inline
    [REFERENCES] form in the order of theirs; the two forms are not
    interleaved.  Nothing is deduplicated: a constraint written twice gives
    the same 4-tuple twice. *)
Theorem parseRelationships_order (ddlContent : jsstring) :
  (exists cleanedDDL explicit inline,
     DDLParser.cleanDDL ddlContent = Returned cleanedDDL /\
     constraintsFrom (S (length cleanedDDL)) DDLParser.foreignKeyRegex cleanedDDL 0
       (DDLParser.foreignKeyBody cleanedDDL) = Returned explicit /\
     constraintsFrom (S (length cleanedDDL)) DDLParser.inlineReferencesRegex cleanedDDL 0
       (DDLParser.inlineBody cleanedDDL) = Returned inline /\
     DDLParser.parseRelationships ddlContent
     = Returned (map snd explicit ++ map snd inline) /\
     StronglySorted le (map fst explicit) /\
     StronglySorted le (map fst inline)) /\
  DDLParser.parseRelationships duplicatedConstraint
  = Returned
      [ {| tableName := js "posts"; referencedTable := js "users";
           columnName := js "author_id"; referencedColumn := js "id" |};
        {| tableName := js "posts"; referencedTable := js "users";
           columnName := js "author_id"; referencedColumn := js "id" |} ].
Proof.
  split; [|vm_compute; reflexivity].
  destruct (cleanDDL_returns ddlContent) as [cleaned Hclean].
  destruct (loop_constraints DDLParser.foreignKeyRegex cleaned
              (DDLParser.foreignKeyBody cleaned) [])
    as (explicit & He & Hloop1 & Hs1).
  { vm_compute; lia. }
  { apply foreignKeyBody_appends. }
  { apply foreignKeyBody_returns. }
  destruct (loop_constraints DDLParser.inlineReferencesRegex cleaned
              (DDLParser.inlineBody cleaned) (map snd explicit))
    as (inline & Hi & Hloop2 & Hs2).
  { vm_compute; lia. }
  { apply inlineBody_appends. }
  { apply inlineBody_returns. }
  exists cleaned, explicit, inline. repeat split; auto.
  unfold DDLParser.parseRelationships. rewrite Hclean. cbn [bind].
  rewrite Hloop1. cbn [bind app]. rewrite Hloop2. reflexivity.
Qed.

(** C5 as stated fails: in this script the inline constraint of [b] comes
    before the explicit constraint of [c], yet the relationship of [c] is
    returned first, because all explicit constraints are collected before any
    inline one. *)
Lemma parseRelationships_forms_not_interleaved :
  DDLParser.parseRelationships inlineBeforeExplicit
  = Returned
      [ {| tableName := js "c"; referencedTable := js "b";
           columnName := js "b_id"; referencedColumn := js "id" |};
        {| tableName := js "b"; referencedTable := js "a";
           columnName := js "a_id"; referencedColumn := js "id" |} ] /\
  constraintPositions inlineBeforeExplicit = Returned [147; 73] /\
  ~ (forall ddlContent positions,
       constraintPositions ddlContent = Returned positions ->
       StronglySorted le positions).
Proof.
  assert (Hpos : constraintPositions inlineBeforeExplicit = Returned [147; 73])
    by (vm_compute; reflexivity).
  split; [vm_compute; reflexivity|]. split; [exact Hpos|].
  intros H. specialize (H _ _ Hpos).
  inversion H as [|? ? _ Hall]; subst. inversion Hall as [|? ? Hle _]; subst. lia.
Qed.

(** ** The pure steps of the engine always return *)

Lemma getInsertionOrder_returns (tables : list jsstring) (rels : list TableRelationship) :
  exists order, DDLParser.getInsertionOrder tables rels = Returned order.
Proof.
  destruct (kahnLoop_of_build tables rels) as (result & d' & Hout & _).
  unfold DDLParser.getInsertionOrder.
  destruct (DDLParser.buildGraph tables rels) as [g d]; simpl in *.
  rewrite Hout. eexists; reflexivity.
Qed.


(** ** Reasoning about the engine's computations *)

Section Run.

Variable env : Env.

(** While the [try] block of [migrate] runs, [result.success] is still
    [false]: only the last statements of the block assign it. *)
Definition pending_success (st : Engine.state env) : Prop :=
  success (Engine.result env st) = false.

(** A computation that ends, and that leaves [result.success] alone. *)
Definition steady {A : Type} (m : M (Engine.state env) A) : Prop :=
  forall st,
    fst (m st) <> OutOfFuel /\ (pending_success st -> pending_success (snd (m st))).

Lemma steady_ret {A : Type} (a : A) : steady (ret a).
Proof. intros st; split; [discriminate | auto]. Qed.

Lemma steady_throw {A : Type} (e : jsError) : steady (@throw (Engine.state env) A e).
Proof. intros st; split; [discriminate | auto]. Qed.

Lemma steady_get : steady (@get (Engine.state env)).
Proof. intros st; split; [discriminate | auto]. Qed.


Lemma steady_clock : steady (Engine.clock env).
Proof. intros st; split; [discriminate | auto]. Qed.

Lemma steady_perform (c : call (cell env)) : steady (Engine.perform env c).
Proof.
  intros st. unfold Engine.perform.
  destruct (world env (Engine.history env st) c); split; try discriminate; auto.
Qed.

Lemma steady_modify (f : Engine.state env -> Engine.state env) :
  (forall st, pending_success st -> pending_success (f st)) -> steady (modify f).
Proof. intros Hf st; split; [discriminate | apply Hf]. Qed.

Lemma steady_bind {A B : Type} (m : M (Engine.state env) A) (k : A -> M (Engine.state env) B) :
  steady m -> (forall a, steady (k a)) -> steady (bindM m k).
Proof.
  intros Hm Hk st. unfold bindM. destruct (Hm st) as (Hend & Hkeep).
  destruct (m st) as [[a|e|] st1]; simpl in *.
  - destruct (Hk a st1) as (Hend' & Hkeep'). split; auto.
  - split; [discriminate | assumption].
  - exfalso. apply Hend. reflexivity.
Qed.

Lemma steady_tryCatch {A : Type} (m : M (Engine.state env) A) (handler : jsError -> M (Engine.state env) A) :
  steady m -> (forall e, steady (handler e)) -> steady (tryCatch m handler).
Proof.
  intros Hm Hh st. unfold tryCatch. destruct (Hm st) as (Hend & Hkeep).
  destruct (m st) as [[a|e|] st1]; simpl in *.
  - split; [discriminate | assumption].
  - destruct (Hh e st1) as (Hend' & Hkeep'). split; auto.
  - exfalso. apply Hend. reflexivity.
Qed.

Lemma steady_forEachM {A : Type} (body : A -> M (Engine.state env) unit) (l : list A) :
  (forall x, steady (body x)) -> steady (forEachM body l).
Proof.
  intros Hbody. induction l as [|x l IH]; simpl.
  - apply steady_ret.
  - apply steady_bind; [apply Hbody | intros _; exact IH].
Qed.

Lemma steady_cells {A : Type} (f : A -> reply (cell env)) (l : list A) :
  steady (Engine.cells env f l).
Proof.
  induction l as [|x l IH]; simpl.
  - apply steady_ret.
  - destruct (f x); [|apply steady_throw].
    apply steady_bind; [exact IH | intros; apply steady_ret].
Qed.

Lemma steady_pushError (message : jsstring) : steady (Engine.pushError env message).
Proof. apply steady_modify. intros st H; exact H. Qed.

Lemma steady_recordMigrated (name : jsstring) (count : Z) :
  steady (Engine.recordMigrated env name count).
Proof. apply steady_modify. intros st H; exact H. Qed.

(** The steps of a proof that a computation is [steady]. *)
Ltac steady_step :=
  match goal with
  | |- steady (bindM _ _) => apply steady_bind; [|intros ?]
  | |- steady (tryCatch _ _) => apply steady_tryCatch; [|intros ?]
  | |- steady (ret _) => apply steady_ret
  | |- steady (throw _) => apply steady_throw
  | |- steady get => apply steady_get
  | |- steady (Engine.perform _ ?c) => exact (steady_perform c)
  | |- steady (Engine.clock _) => apply steady_clock
  | |- steady (Engine.pushError _ _) => apply steady_pushError
  | |- steady (Engine.recordMigrated _ _ _) => apply steady_recordMigrated
  | |- steady (Engine.cells _ _ _) => apply steady_cells
  | |- steady (forEachM _ _) => apply steady_forEachM; intros ?
  | |- steady (modify _) => apply steady_modify; intros ? ?; assumption
  | |- steady (if ?b then _ else _) => destruct b
  | |- steady (match ?x with _ => _ end) => destruct x
  end.

Ltac steady_auto := repeat steady_step.


Lemma steady_mongoDisconnect : steady (Engine.mongoDisconnect env).
Proof. unfold Engine.mongoDisconnect. steady_auto. Qed.








Lemma steady_pgDisconnect : steady (Engine.pgDisconnect env).
Proof. unfold Engine.pgDisconnect. steady_auto. Qed.














(** *** The batch loops end when the batch size is positive *)

(** A batch size that is absent, zero (replaced by 1000) or positive. *)
Definition batch_ok (config : Engine.MigrationConfig) : Prop :=
  match Engine.batchSize config with
  | Some b => (0 <= b)%Z
  | None => True
  end.

Lemma batchSizeOf_pos (config : Engine.MigrationConfig) :
  batch_ok config -> (0 < Engine.batchSizeOf config)%Z.
Proof.
  unfold batch_ok, Engine.batchSizeOf.
  destruct (Engine.batchSize config) as [[|b|b]|]; lia.
Qed.










(** *** migrate *)






(** *** What a run records, and what it keeps *)










(** Relations between the state before a computation and the state after it
    that every call to the outside keeps. *)
Section Preserved.

Variable R : Engine.state env -> Engine.state env -> Prop.
Hypothesis R_refl : forall st, R st st.
Hypothesis R_trans : forall a b c, R a b -> R b c -> R a c.
Hypothesis R_logged : forall c st, R st (Engine.logged env c st).














End Preserved.




(** **** The steps that leave the result alone *)















(** **** The steps that only add to the result *)















(** **** The loops over the collections return normally *)







(** **** The [finally] block *)






End Run.

(** *** A run with a partial failure, a run whose cleanup fails, and a batch
    loop that does not end *)

Definition sampleDocument : value :=
  VObject [ (js "_id", VInstance ObjectIdInstance (js "507f1f77bcf86cd799439011") []);
            (js "name", VString (js "Ada")) ].

(** Two collections with one document each and a table for each; reading one
    document of [orders] fails; closing the document store fails when
    [closeFails] is set.  Every name is ASCII, where [toLowerCase] is
    [Utils.toLowerCase]. *)
Definition scenarioWorld (closeFails : bool) (h : list (call unit)) (c : call unit)
  : reply (response c) :=
  match c as c0 return reply (response c0) with
  | ParseUrl _ => Ok (js "shop")
  | MongoClose => if closeFails then Fails (Error (js "close failed")) else Ok tt
  | ListCollections => Ok [js "users"; js "orders"]
  | Sample _ _ => Ok [sampleDocument]
  | ListIndexes _ => Ok []
  | FindOne collection =>
      if jsstring_eqb collection (js "orders")
      then Fails (Error (js "cursor lost")) else Ok (Some sampleDocument)
  | CountDocuments _ => Ok 1%Z
  | Find _ skip _ => Ok (if Z.eqb skip 0 then [sampleDocument] else [])
  | QueryTableExists _ => Ok true
  | QueryColumns _ =>
      Ok [ {| column_name := js "id"; data_type := js "text"; is_nullable := js "NO" |};
           {| column_name := js "name"; data_type := js "text"; is_nullable := js "YES" |} ]
  | QueryPrimaryKey _ => Ok [js "id"]
  | FsReadFile _ => Ok []
  | AiInterpretSchema _ => Ok None
  | AiSuggestColumnMapping _ _ => Ok None
  | _ => Ok tt
  end.

Definition scenario (closeFails : bool) : Env :=
  {| cell := unit;
     columnValue := fun _ _ => Ok tt;
     mappedValue := fun _ _ => Ok tt;
     world := scenarioWorld closeFails;
     now := fun h => Z.of_nat (length h);
     toLowerCase := Utils.toLowerCase |}.

Definition scenarioConfig : Engine.MigrationConfig :=
  {| Engine.mongoUrl := js "mongodb://localhost:27017/shop";
     Engine.postgresUrl := js "postgresql://localhost:5432/shop";
     Engine.mode := Engine.PreExisting;
     Engine.openAiApiKey := None;
     Engine.postgresDDL := None;
     Engine.batchSize := None |}.


(** The stores of [scenarioWorld] with a count of [orders] that fails, for a
    run in auto-tables mode. *)
Definition partialWorld (closeFails : bool) (h : list (call unit)) (c : call unit)
  : reply (response c) :=
  match c as c0 return reply (response c0) with
  | CountDocuments collection =>
      if jsstring_eqb collection (js "orders")
      then Fails (Error (js "cursor lost")) else Ok 1%Z
  | c0 => scenarioWorld closeFails h c0
  end.

Definition partial (closeFails : bool) : Env :=
  {| cell := unit;
     columnValue := fun _ _ => Ok tt;
     mappedValue := fun _ _ => Ok tt;
     world := partialWorld closeFails;
     now := fun h => Z.of_nat (length h);
     toLowerCase := Utils.toLowerCase |}.

(** The configuration of [scenarioConfig] in auto-tables mode. *)
Definition autoConfig : Engine.MigrationConfig :=
  {| Engine.mongoUrl := js "mongodb://localhost:27017/shop";
     Engine.postgresUrl := js "postgresql://localhost:5432/shop";
     Engine.mode := Engine.AutoTables;
     Engine.openAiApiKey := None;
     Engine.postgresDDL := None;
     Engine.batchSize := None |}.

(** A run of [migrate] in which [users] is copied and [orders] fails: the
    collection that was copied and its document are reported next to the
    error. *)
Lemma migrate_partial_progress :
  fst (Engine.migrate (partial false) autoConfig
         (Engine.newEngine (partial false) autoConfig))
  = Returned {| success := false;
                migratedCollections := [js "users"];
                errors := [js "Failed to migrate collection orders: Error: cursor lost"];
                totalDocuments := 1;
                migrationTime := 19 |}.
Proof. vm_compute. reflexivity. Qed.







(** ** A collection none of whose mappings is usable *)

Definition isInsert {cell : Type} (c : call cell) : bool :=
  match c with QueryInsert _ _ _ _ => true | _ => false end.

(** The number of documents the batch loop fetches when the store answers
    the page at offset [skip] with [docsAt skip]. *)
Fixpoint fetchedCount (fuel : nat) (docsAt : Z -> list value) (batchSize totalDocs skip : Z)
  : Z :=
  if Z.ltb skip totalDocs then
    match fuel with
    | O => 0%Z
    | S fuel =>
        match docsAt skip with
        | [] => 0%Z
        | documents =>
            (Z.of_nat (length documents) +
             fetchedCount fuel docsAt batchSize totalDocs (skip + batchSize))%Z
        end
    end
  else 0%Z.

Section ZeroMappings.

Variable env : Env.
Variable mongoSchema : CollectionSchema.
Variable config : Engine.MigrationConfig.
Variable columnMappings : list ColumnMapping.
Variable totalDocs : Z.
Variable docsAt : Z -> list value.

Let name : jsstring := collectionName mongoSchema.
Let table : jsstring := Utils.sanitizeIdentifier name.

Hypothesis count_ok : forall h, world env h (CountDocuments name) = Ok totalDocs.
Hypothesis find_ok :
  forall h skip, world env h (Find name skip (Engine.batchSizeOf config)) = Ok (docsAt skip).
Hypothesis exists_ok : forall h, world env h (QueryTableExists table) = Ok true.
Hypothesis columns_ok :
  forall h, exists rows,
    world env h (QueryColumns table) = Ok rows /\
    forall mapping, In mapping columnMappings ->
                    ~ In (postgresColumn mapping) (map column_name rows).
Hypothesis primaryKey_ok :
  forall h, exists keys, world env h (QueryPrimaryKey table) = Ok keys.

(** Both stores are connected. *)
Definition connected (st : Engine.state env) : Prop :=
  Engine.mongoDb env st = true /\ Engine.pgClient env st = true.

(** From [st] to [st'] nothing was inserted and nothing but the history
    changed. *)
Definition quiet (st st' : Engine.state env) : Prop :=
  Engine.mongoDb env st' = Engine.mongoDb env st /\
  Engine.pgClient env st' = Engine.pgClient env st /\
  Engine.result env st' = Engine.result env st /\
  exists new, Engine.history env st' = Engine.history env st ++ new /\
              Forall (fun c => isInsert c = false) new.

Lemma quiet_refl (st : Engine.state env) : quiet st st.
Proof.
  repeat split. exists []. rewrite app_nil_r. split; [reflexivity | constructor].
Qed.

Lemma quiet_trans (a b c : Engine.state env) : quiet a b -> quiet b c -> quiet a c.
Proof.
  intros (A1 & A2 & A3 & n1 & A4 & A5) (B1 & B2 & B3 & n2 & B4 & B5).
  repeat split; try congruence.
  exists (n1 ++ n2). rewrite B4, A4, app_assoc. split; [reflexivity|].
  apply Forall_app; auto.
Qed.

Lemma quiet_logged (c : call (cell env)) (st : Engine.state env) :
  isInsert c = false -> quiet st (Engine.logged env c st).
Proof.
  intros Hc. repeat split. exists [c]. split; [reflexivity | repeat constructor; assumption].
Qed.

Lemma quiet_connected (st st' : Engine.state env) :
  quiet st st' -> connected st -> connected st'.
Proof. intros (A1 & A2 & _) (B1 & B2). split; congruence. Qed.

Lemma run_getDocumentCount (st : Engine.state env) :
  connected st ->
  Engine.getDocumentCount env name st
  = (Returned totalDocs, Engine.logged env (CountDocuments name) st).
Proof.
  intros (Hdb & _).
  unfold Engine.getDocumentCount, Engine.requireDb, bindM, get, ret, Engine.perform.
  rewrite Hdb, count_ok. reflexivity.
Qed.

Lemma run_getDocuments (skip : Z) (st : Engine.state env) :
  connected st ->
  Engine.getDocuments env name skip (Engine.batchSizeOf config) st
  = (Returned (docsAt skip),
     Engine.logged env (Find name skip (Engine.batchSizeOf config)) st).
Proof.
  intros (Hdb & _).
  unfold Engine.getDocuments, Engine.requireDb, bindM, get, ret, Engine.perform.
  rewrite Hdb, find_ok. reflexivity.
Qed.

Lemma no_valid_mapping (rows : list ColumnRow) (keys : list jsstring)
  (mappings : list ColumnMapping) :
  (forall mapping, In mapping mappings ->
                   ~ In (postgresColumn mapping) (map column_name rows)) ->
  filter (fun mapping =>
            JsSet.has
              (fold_left JsSet.add (map colName (map (Engine.columnOfRow keys) rows))
                 JsSet.empty)
              (postgresColumn mapping))
    mappings = [].
Proof.
  assert (Hnames : map colName (map (Engine.columnOfRow keys) rows) = map column_name rows).
  { rewrite map_map. reflexivity. }
  rewrite Hnames. clear Hnames.
  induction mappings as [|m ms IH]; intros Hnone; simpl; [reflexivity|].
  rewrite set_of_list_has. simpl JsSet.has. rewrite orb_false_l.
  assert (Hm : includes (map column_name rows) (postgresColumn m) = false).
  { apply includes_not_In. apply Hnone. left; reflexivity. }
  rewrite Hm. apply IH. intros mapping Hin. apply Hnone. right; assumption.
Qed.

Lemma bindM_returned {A B : Type} (m : M (Engine.state env) A)
  (k : A -> M (Engine.state env) B) (st st1 : Engine.state env) (a : A) :
  m st = (Returned a, st1) -> bindM m k st = k a st1.
Proof. intros H. unfold bindM. rewrite H. reflexivity. Qed.

Lemma run_requireClient (st : Engine.state env) :
  Engine.pgClient env st = true -> Engine.requireClient env st = (Returned tt, st).
Proof.
  intros Hpg. unfold Engine.requireClient.
  rewrite (bindM_returned get _ st st st eq_refl); cbv beta. rewrite Hpg. reflexivity.
Qed.

Lemma run_tableExists (st : Engine.state env) :
  Engine.pgClient env st = true ->
  Engine.tableExists env table st
  = (Returned true, Engine.logged env (QueryTableExists table) st).
Proof.
  intros Hpg. unfold Engine.tableExists.
  rewrite (bindM_returned _ _ _ _ _ (run_requireClient st Hpg)); cbv beta.
  unfold Engine.perform. rewrite exists_ok. reflexivity.
Qed.

Lemma run_getTableSchema (st : Engine.state env) :
  Engine.pgClient env st = true ->
  exists rows keys,
    (forall mapping, In mapping columnMappings ->
                     ~ In (postgresColumn mapping) (map column_name rows)) /\
    Engine.getTableSchema env table st
    = (Returned (Some {| pgTableName := table;
                         columns := map (Engine.columnOfRow keys) rows |}),
       Engine.logged env (QueryPrimaryKey table)
         (Engine.logged env (QueryColumns table)
            (Engine.logged env (QueryTableExists table) st))).
Proof.
  intros Hpg.
  destruct (columns_ok (Engine.history env
                          (Engine.logged env (QueryTableExists table) st)))
    as (rows & Hrows & Hnone).
  destruct (primaryKey_ok (Engine.history env
                             (Engine.logged env (QueryColumns table)
                                (Engine.logged env (QueryTableExists table) st))))
    as (keys & Hkeys).
  exists rows, keys. split; [exact Hnone|].
  unfold Engine.getTableSchema.
  rewrite (bindM_returned _ _ _ _ _ (run_requireClient st Hpg)); cbv beta.
  rewrite (bindM_returned _ _ _ _ _ (run_tableExists st Hpg)); cbv beta.
  cbn [negb].
  assert (Hc : Engine.perform env (QueryColumns table)
                 (Engine.logged env (QueryTableExists table) st)
               = (Returned rows,
                  Engine.logged env (QueryColumns table)
                    (Engine.logged env (QueryTableExists table) st))).
  { unfold Engine.perform. rewrite Hrows. reflexivity. }
  rewrite (bindM_returned _ _ _ _ _ Hc); cbv beta.
  assert (Hk : Engine.perform env (QueryPrimaryKey table)
                 (Engine.logged env (QueryColumns table)
                    (Engine.logged env (QueryTableExists table) st))
               = (Returned keys,
                  Engine.logged env (QueryPrimaryKey table)
                    (Engine.logged env (QueryColumns table)
                       (Engine.logged env (QueryTableExists table) st)))).
  { unfold Engine.perform. rewrite Hkeys. reflexivity. }
  rewrite (bindM_returned _ _ _ _ _ Hk); cbv beta. reflexivity.
Qed.

(** With no usable mapping [insertDocumentsWithMapping] reads the table's
    schema and returns without a single [INSERT]. *)
Lemma run_insert_nothing (documents : list value) (st : Engine.state env) :
  connected st ->
  exists st',
    Engine.insertDocumentsWithMapping env name documents columnMappings st
    = (Returned tt, st') /\ quiet st st'.
Proof.
  intros (Hdb & Hpg).
  unfold Engine.insertDocumentsWithMapping.
  rewrite (bindM_returned get _ st st st eq_refl); cbv beta. rewrite Hpg.
  destruct (Nat.eqb (length documents) 0) eqn:Elen; cbn [negb orb].
  { exists st. split; [reflexivity | apply quiet_refl]. }
  fold name table. cbv zeta.
  destruct (run_getTableSchema st Hpg) as (rows & keys & Hnone & Hschema).
  rewrite (bindM_returned _ _ _ _ _ Hschema); cbv beta. cbv zeta. cbn [columns].
  rewrite (no_valid_mapping rows keys columnMappings Hnone).
  eexists. split; [reflexivity|].
  eapply quiet_trans; [apply (quiet_logged (QueryTableExists table)); reflexivity|].
  eapply quiet_trans; [apply (quiet_logged (QueryColumns table)); reflexivity|].
  apply (quiet_logged (QueryPrimaryKey table)); reflexivity.
Qed.

Lemma run_mappedBatches (fuel : nat) :
  forall (skip count : Z) (st : Engine.state env),
    connected st ->
    (0 < Engine.batchSizeOf config)%Z ->
    (totalDocs - skip <= Z.of_nat fuel)%Z ->
    exists st',
      Engine.mappedBatches env fuel mongoSchema config columnMappings totalDocs skip count st
      = (Returned (count + fetchedCount fuel docsAt (Engine.batchSizeOf config)
                             totalDocs skip)%Z, st') /\
      quiet st st'.
Proof.
  induction fuel as [|fuel IH]; intros skip count st Hconn Hpos Hfuel;
    cbn [Engine.mappedBatches fetchedCount];
    destruct (Z.ltb_spec skip totalDocs); try lia;
    try (exists st; rewrite Z.add_0_r; split; [reflexivity | apply quiet_refl]).
  fold name.
  rewrite (bindM_returned _ _ _ _ _ (run_getDocuments skip st Hconn)); cbv beta.
  set (st1 := Engine.logged env (Find name skip (Engine.batchSizeOf config)) st).
  assert (Hq1 : quiet st st1) by (apply quiet_logged; reflexivity).
  destruct (docsAt skip) as [|doc docs] eqn:Edocs.
  - exists st1. rewrite Z.add_0_r. split; [reflexivity | assumption].
  - destruct (run_insert_nothing (doc :: docs) st1 (quiet_connected _ _ Hq1 Hconn))
      as (st2 & Hins & Hq2).
    rewrite (bindM_returned _ _ _ _ _ Hins); cbv beta.
    destruct (IH (skip + Engine.batchSizeOf config)%Z
                 (count + Z.of_nat (length (doc :: docs)))%Z st2)
      as (st3 & Hloop & Hq3).
    + eapply quiet_connected; [exact Hq2|]. eapply quiet_connected; eassumption.
    + assumption.
    + lia.
    + exists st3. rewrite Hloop. split.
      * rewrite Z.add_assoc. reflexivity.
      * eauto using quiet_trans.
Qed.

(** C10: in pre-existing-tables mode, when none of the column mappings that
    were resolved for a collection names a column of the destination table,
    [migrateCollectionToExistingTable] issues no [INSERT] at all, and still
    appends the collection's name to [migratedCollections] and adds the number
    of documents it fetched to [totalDocuments]: the result is updated exactly
    as for a collection whose rows were written. *)
Theorem migrateCollectionToExistingTable_skipped
  (pgSchema : PostgresTableSchema) (sampleDocument : value)
  (st st1 : Engine.state env) :
  Engine.resolveColumnMappings env mongoSchema pgSchema sampleDocument config st
  = (Returned columnMappings, st1) ->
  connected st1 ->
  batch_ok config ->
  exists st2 new,
    Engine.migrateCollectionToExistingTable env mongoSchema pgSchema sampleDocument config st
    = (Returned tt, st2) /\
    Engine.history env st2 = Engine.history env st1 ++ new /\
    Forall (fun c => isInsert c = false) new /\
    migratedCollections (Engine.result env st2)
    = migratedCollections (Engine.result env st1) ++ [collectionName mongoSchema] /\
    totalDocuments (Engine.result env st2)
    = (totalDocuments (Engine.result env st1) +
       fetchedCount (Z.to_nat totalDocs) docsAt (Engine.batchSizeOf config) totalDocs 0)%Z /\
    errors (Engine.result env st2) = errors (Engine.result env st1).
Proof.
  intros Hres Hconn Hb. apply batchSizeOf_pos in Hb.
  unfold Engine.migrateCollectionToExistingTable.
  unfold bindM at 1. rewrite Hres.
  fold name. unfold bindM at 1. rewrite (run_getDocumentCount st1 Hconn).
  set (st1' := Engine.logged env (CountDocuments name) st1).
  assert (Hq1 : quiet st1 st1') by (apply quiet_logged; reflexivity).
  destruct (run_mappedBatches (Z.to_nat totalDocs) 0 0 st1'
              (quiet_connected _ _ Hq1 Hconn) Hb) as (st2 & Hloop & Hq2); [lia|].
  unfold bindM at 1. rewrite Hloop.
  pose proof (quiet_trans _ _ _ Hq1 Hq2) as (_ & _ & Hresult & new & Hhist & Hnew).
  eexists. exists new. split; [reflexivity|].
  unfold Engine.recordMigrated, modify. simpl.
  rewrite Hresult. repeat split; auto.
Qed.

End ZeroMappings.

(** *** A collection whose suggested mapping names no column of its table *)

Definition suggestedMapping : ColumnMapping :=
  {| mongoField := js "name"; postgresColumn := js "full_name"; transformation := None |}.

(** The world of [scenarioWorld] with no failure and an advisor that maps
    [name] to a column [full_name], which the table does not have. *)
Definition advisedWorld (h : list (call unit)) (c : call unit) : reply (response c) :=
  match c as c0 return reply (response c0) with
  | AiSuggestColumnMapping _ _ => Ok (Some [suggestedMapping])
  | FindOne _ => Ok (Some sampleDocument)
  | ListCollections => Ok [js "users"]
  | c0 => scenarioWorld false h c0
  end.

Definition advised : Env :=
  {| cell := unit;
     columnValue := fun _ _ => Ok tt;
     mappedValue := fun _ _ => Ok tt;
     world := advisedWorld;
     now := fun h => Z.of_nat (length h);
     toLowerCase := Utils.toLowerCase |}.

Definition advisedConfig : Engine.MigrationConfig :=
  {| Engine.mongoUrl := js "mongodb://localhost:27017/shop";
     Engine.postgresUrl := js "postgresql://localhost:5432/shop";
     Engine.mode := Engine.PreExisting;
     Engine.openAiApiKey := Some (js "key");
     Engine.postgresDDL := None;
     Engine.batchSize := None |}.

Definition usersSchema : CollectionSchema :=
  {| collectionName := js "users";
     fields := [ {| fieldName := js "name"; fieldType := TString;
                    isRequired := true; isArray := false |} ];
     indexes := None |}.

Definition usersTable : PostgresTableSchema :=
  {| pgTableName := js "users";
     columns := [ {| colName := js "id"; colType := TEXT; nullable := false;
                     primaryKey := Some true; unique := None |};
                  {| colName := js "name"; colType := TEXT; nullable := true;
                     primaryKey := Some false; unique := None |} ] |}.

(** The engine once both stores are connected. *)
Definition connectedEngine : Engine.state advised :=
  {| Engine.history := []; Engine.mongoClient := true; Engine.mongoDb := true;
     Engine.pgClient := true; Engine.openai := true;
     Engine.tableRelationships := []; Engine.result := Engine.initialResult |}.

Definition firstPage (skip : Z) : list value :=
  if Z.eqb skip 0 then [sampleDocument] else [].

Lemma migrateCollectionToExistingTable_skipped_witness :
  exists st2 new,
    Engine.migrateCollectionToExistingTable advised usersSchema usersTable sampleDocument
      advisedConfig connectedEngine = (Returned tt, st2) /\
    Engine.history advised st2
    = [AiSuggestColumnMapping sampleDocument usersTable] ++ new /\
    Forall (fun c => isInsert c = false) new /\
    migratedCollections (Engine.result advised st2) = [] ++ [js "users"] /\
    totalDocuments (Engine.result advised st2)
    = (0 + fetchedCount (Z.to_nat 1) firstPage 1000 1 0)%Z /\
    errors (Engine.result advised st2) = [].
Proof.
  refine (migrateCollectionToExistingTable_skipped advised usersSchema advisedConfig
            [suggestedMapping] 1%Z firstPage
            (fun h => eq_refl) (fun h skip => eq_refl) (fun h => eq_refl) _ _
            usersTable sampleDocument connectedEngine
            (Engine.logged advised (AiSuggestColumnMapping sampleDocument usersTable)
               connectedEngine) _ _ _).
  - intros h. eexists. split; [reflexivity|].
    intros mapping [<- | []]. vm_compute. intuition discriminate.
  - intros h. eexists. reflexivity.
  - vm_compute. reflexivity.
  - split; reflexivity.
  - exact I.
Defined.

(** The whole run over that collection: no [INSERT] is issued, and the
    result reports the collection as migrated with its document counted. *)
Lemma migrate_skipped_collection_reported :
  let run := Engine.migrate advised advisedConfig (Engine.newEngine advised advisedConfig) in
  fst run = Returned {| success := true;
                        migratedCollections := [js "users"];
                        errors := [];
                        totalDocuments := 1;
                        migrationTime := 19 |} /\
  existsb isInsert (Engine.history advised (snd run)) = false.
Proof. vm_compute. split; reflexivity. Qed.

(** * Part III: further properties of the code *)

(** ** getInsertionOrder: relationships that leave the working set *)

Lemma addRelationship_keys (g : JsMap.t JsSet.t) (d : JsMap.t jsnum)
  (r : TableRelationship) :
  JsMap.keys (fst (DDLParser.addRelationship (g, d) r)) = JsMap.keys g.
Proof.
  unfold DDLParser.addRelationship.
  destruct (JsMap.has g (tableName r) && JsMap.has g (referencedTable r)) eqn:E;
    [|reflexivity].
  destruct (JsMap.get g (referencedTable r)) as [deps|] eqn:Eg; [|reflexivity].
  simpl. apply map_keys_set_present. eapply map_get_Some_In; eassumption.
Qed.

Lemma addRelationship_dangling (tables : list jsstring) (g : JsMap.t JsSet.t)
  (d : JsMap.t jsnum) (r : TableRelationship) :
  (forall t, In t (JsMap.keys g) <-> In t tables) ->
  kept tables r = false ->
  DDLParser.addRelationship (g, d) r = (g, d).
Proof.
  intros Hkeys Hkept. unfold DDLParser.addRelationship.
  assert (E : JsMap.has g (tableName r) && JsMap.has g (referencedTable r) = false).
  { apply andb_false_iff. unfold kept in Hkept. apply andb_false_iff in Hkept.
    destruct Hkept as [H|H]; [left | right];
      (destruct (JsMap.has g _) eqn:Eh; [|reflexivity]);
      apply map_has_In, Hkeys, includes_In in Eh; congruence. }
  rewrite E. reflexivity.
Qed.

Lemma fold_addRelationship_kept (tables : list jsstring) (rels : list TableRelationship) :
  forall (g : JsMap.t JsSet.t) (d : JsMap.t jsnum),
    (forall t, In t (JsMap.keys g) <-> In t tables) ->
    fold_left DDLParser.addRelationship rels (g, d)
    = fold_left DDLParser.addRelationship (filter (kept tables) rels) (g, d).
Proof.
  induction rels as [|r rels IH]; intros g d Hkeys; [reflexivity|].
  cbn [fold_left filter]. destruct (kept tables r) eqn:Ek.
  - cbn [fold_left].
    pose proof (addRelationship_keys g d r) as Hk.
    destruct (DDLParser.addRelationship (g, d) r) as [g1 d1]. simpl in Hk.
    apply IH. intros t. rewrite Hk. apply Hkeys.
  - rewrite (addRelationship_dangling tables g d r Hkeys Ek). apply IH, Hkeys.
Qed.

(** X1: a relationship with a table outside the list that is being ordered
    takes no part at all: dropping every such relationship beforehand gives
    the same outcome, for every list of tables and of relationships. *)
Theorem getInsertionOrder_ignores_dangling (tables : list jsstring)
  (relationships : list TableRelationship) :
  DDLParser.getInsertionOrder tables relationships
  = DDLParser.getInsertionOrder tables (filter (kept tables) relationships).
Proof.
  unfold DDLParser.getInsertionOrder, DDLParser.buildGraph.
  pose proof (initGraph_ok tables) as H.
  destruct (DDLParser.initGraph tables) as [g d].
  destruct H as (_ & _ & _ & _ & Hkeys & _).
  rewrite (fold_addRelationship_kept tables relationships g d Hkeys). reflexivity.
Qed.

(** ** getInsertionOrder: a list of tables with repeated names *)

(** X2: whatever the list of tables (a name may occur twice) and whatever the
    relationships, [getInsertionOrder] returns, and the names it returns are
    exactly the names it was given. *)
Theorem getInsertionOrder_same_names (tables : list jsstring)
  (relationships : list TableRelationship) :
  exists order,
    DDLParser.getInsertionOrder tables relationships = Returned order /\
    forall t, In t order <-> In t tables.
Proof.
  destruct (kahnLoop_of_build tables relationships) as (result & d' & Hout & Hinv & _).
  pose proof (buildGraph_ok tables relationships) as Hb.
  unfold DDLParser.getInsertionOrder.
  destruct (DDLParser.buildGraph tables relationships) as [g d]; simpl in *.
  rewrite Hout. eexists. split; [reflexivity|].
  destruct Hinv as (Hnd & Hincl & _). rewrite app_nil_r in *.
  assert (Hsub : incl result tables).
  { intros t Ht. apply (b_tables _ _ _ _ Hb), Hincl; assumption. }
  intros t. unfold DDLParser.appendRemaining.
  destruct (Nat.eqb_spec (length result) (length tables)) as [Hlen|Hlen]; simpl.
  - split; [apply Hsub|].
    apply (NoDup_length_incl Hnd); [lia | assumption].
  - rewrite in_app_iff, filter_In, negb_true_iff, includes_not_In.
    destruct (in_dec jsstring_eq_dec t result); intuition auto.
Qed.

(** ** getInsertionOrder: no relationship to follow *)

Lemma edgeCount_none (tables : list jsstring) (rels : list TableRelationship)
  (t : jsstring) :
  (forall r, In r rels -> kept tables r = false) -> edgeCount tables rels t = 0.
Proof.
  intros H. unfold edgeCount. apply length_zero_iff_nil.
  induction rels as [|r rels IH]; [reflexivity|]. cbn [filter].
  rewrite (H r (or_introl eq_refl)). simpl. apply IH.
  intros r' Hr'; apply H; right; assumption.
Qed.

Lemma NoDup_app_all (l rest : list jsstring) (tables : list jsstring) :
  NoDup (l ++ rest) -> incl (l ++ rest) tables -> length tables <= length l ->
  rest = [].
Proof.
  intros Hnd Hincl Hlen. pose proof (NoDup_incl_length Hnd Hincl) as H.
  rewrite length_app in H. destruct rest; [reflexivity | simpl in H; lia].
Qed.

(** X3: when the table names are distinct and no relationship links two
    tables of the list (none is given, or each has a table outside the list),
    the order returned is the list itself. *)
Theorem getInsertionOrder_unrelated (tables : list jsstring)
  (relationships : list TableRelationship) :
  NoDup tables ->
  (forall r, In r relationships -> kept tables r = false) ->
  DDLParser.getInsertionOrder tables relationships = Returned tables.
Proof.
  intros Hnd Hnone.
  destruct (kahnLoop_of_build tables relationships)
    as (result & d' & Hout & Hinv & rest & Hrest).
  pose proof (buildGraph_ok tables relationships) as Hb.
  unfold DDLParser.getInsertionOrder.
  destruct (DDLParser.buildGraph tables relationships) as [g d]; simpl in *.
  rewrite Hout. rewrite (initialQueue_ready tables relationships g d Hb Hnd) in Hrest.
  assert (Hready : readyTables tables relationships = tables).
  { unfold readyTables. apply forallb_filter_id, forallb_forall. intros t _.
    rewrite (edgeCount_none tables relationships t Hnone). reflexivity. }
  rewrite Hready in Hrest.
  destruct Hinv as (Hnd_res & Hincl & _). rewrite app_nil_r in *.
  assert (Hnil : rest = []).
  { apply (NoDup_app_all tables rest tables); [rewrite <- Hrest; assumption | | lia].
    rewrite <- Hrest. intros t Ht. apply (b_tables _ _ _ _ Hb), Hincl; assumption. }
  rewrite Hnil, app_nil_r in Hrest. subst result.
  unfold DDLParser.appendRemaining. rewrite Nat.eqb_refl. reflexivity.
Qed.

Lemma getInsertionOrder_unrelated_witness :
  DDLParser.getInsertionOrder [js "orders"; js "users"]
    [ {| tableName := js "orders"; referencedTable := js "customers";
         columnName := js "customer_id"; referencedColumn := js "id" |} ]
  = Returned [js "orders"; js "users"].
Proof.
  apply getInsertionOrder_unrelated.
  - repeat constructor; simpl; intuition discriminate.
  - intros r [<- | []]. reflexivity.
Defined.

(** ** getInsertionOrder: what the loop emits is in dependency order *)

Section OrderedLoop.

Variable graph : JsMap.t JsSet.t.
Hypothesis graph_wf : graph_ok graph.

Let atLeast : nat -> Z -> Prop := fun n z => (Z.of_nat n <= z)%Z.

(** A table leaves the queue only when its in-degree is zero, and the
    in-degree is never below the number of tables it still waits for: so
    everything it references was emitted before it.  This holds whether or
    not relationships are repeated. *)
Lemma kahnLoop_ordered_any (fuel : nat) :
  forall (queue result : list jsstring) (inDegree : JsMap.t jsnum) (out : list jsstring),
    loop_inv graph atLeast queue result inDegree ->
    ordered graph result ->
    DDLParser.kahnLoop fuel graph queue result inDegree = Returned out ->
    ordered graph out.
Proof.
  assert (Hle : forall n z, atLeast n z -> (Z.of_nat n <= z)%Z) by (intros n z H; exact H).
  assert (Hpred : forall n z, atLeast (S n) z -> atLeast n (z - 1)%Z)
    by (unfold atLeast; intros; lia).
  induction fuel as [|fuel IH]; intros queue result inDegree out Hinv Hord;
    destruct queue as [|table queue]; simpl; intros H; try discriminate.
  - inversion H; subst. assumption.
  - inversion H; subst. assumption.
  - assert (Hp : In table (JsMap.keys graph)).
    { destruct Hinv as (_ & Hincl & _).
      apply Hincl, in_or_app; right; left; reflexivity. }
    destruct (map_get_In _ _ Hp) as [deps Hdeps]. rewrite Hdeps in H.
    assert (Hsuccs : succs graph table = deps)
      by (unfold succs; rewrite Hdeps; reflexivity).
    assert (Hpre : forall p, In table (succs graph p) -> In p result).
    { intros p Hin. destruct Hinv as (_ & _ & _ & Hdeg).
      destruct (Hdeg table Hp) as (z & _ & HR & Hz0).
      assert (Hz : z = 0%Z) by (apply Hz0, in_or_app; right; left; reflexivity).
      unfold atLeast in HR. simpl in HR. rewrite Nat.add_0_r in HR.
      apply (pending_zero graph result table p); [lia | assumption |].
      eapply succs_key; eassumption. }
    pose proof (dequeue_inv graph graph_wf atLeast _ _ _ _ Hinv) as Hvisit.
    rewrite Hsuccs in Hvisit.
    destruct (visitDependents_inv graph atLeast Hle Hpred _ _ _ _ Hvisit)
      as (Hloop & _).
    { rewrite <- Hsuccs; apply (succs_NoDup _ graph_wf). }
    { rewrite <- Hsuccs; apply (succs_keys _ graph_wf). }
    destruct (fold_left DDLParser.visitDependent deps (inDegree, queue)) as [d1 q1].
    simpl in *. eapply IH; [exact Hloop | | exact H].
    apply ordered_snoc; assumption.
Qed.

End OrderedLoop.

(** The tables the [while] loop of [getInsertionOrder] emits, before the
    tables left over are appended. *)
Definition processed (tables : list jsstring) (rels : list TableRelationship)
  : list jsstring :=
  let '(graph, inDegree) := DDLParser.buildGraph tables rels in
  match DDLParser.kahnLoop (length tables) graph (DDLParser.initialQueue inDegree) []
          inDegree with
  | Returned result => result
  | _ => []
  end.

Lemma indexOf_not_In (l : list jsstring) (x : jsstring) :
  ~ In x l -> indexOf l x = (-1)%Z.
Proof.
  induction l as [|y l IH]; cbn [indexOf]; [reflexivity|]. intros Hn.
  assert (E : jsstring_eqb y x = false)
    by (apply jsstring_eqb_neq; intros ->; apply Hn; left; reflexivity).
  rewrite E, IH by (intros H; apply Hn; right; assumption). reflexivity.
Qed.

Lemma indexOf_app_not_In (l1 l2 : list jsstring) (x : jsstring) :
  ~ In x l1 -> In x l2 ->
  indexOf (l1 ++ l2) x = (Z.of_nat (length l1) + indexOf l2 x)%Z.
Proof.
  induction l1 as [|y l1 IH]; intros Hn Hin; [simpl; lia|].
  simpl app. cbn [indexOf].
  assert (E : jsstring_eqb y x = false)
    by (apply jsstring_eqb_neq; intros ->; apply Hn; left; reflexivity).
  rewrite E, IH by (auto; intros H; apply Hn; right; assumption).
  pose proof (indexOf_In l2 x Hin). cbv zeta.
  destruct (Z.ltb_spec (Z.of_nat (length l1) + indexOf l2 x) 0); simpl length; lia.
Qed.

Lemma ordered_indexOf (g : JsMap.t JsSet.t) (l : list jsstring) (p t : jsstring) :
  ordered g l -> NoDup l -> In t l -> In t (succs g p) ->
  (0 <= indexOf l p < indexOf l t)%Z.
Proof.
  intros Hord Hnd Hin Hedge.
  apply in_split in Hin. destruct Hin as (l1 & l2 & Hsplit).
  pose proof (Hord l1 t l2 p Hsplit Hedge) as Hp.
  rewrite Hsplit in Hnd. apply NoDup_remove_2 in Hnd. rewrite Hsplit.
  rewrite indexOf_app_head by (intros H; apply Hnd, in_or_app; auto).
  rewrite indexOf_app_In by assumption.
  pose proof (indexOf_range l1 p). pose proof (indexOf_In l1 p Hp). lia.
Qed.

Lemma filter_none {A : Type} (f : A -> bool) (l : list A) :
  (forall x, In x l -> f x = false) -> filter f l = [].
Proof.
  induction l as [|x l IH]; intros H; [reflexivity|]. simpl.
  rewrite (H x (or_introl eq_refl)). apply IH. intros y Hy; apply H; right; assumption.
Qed.

(** What [getInsertionOrder] does for every input with distinct table names:
    the order is the loop's output followed by the left-over tables in input
    order, and within the loop's output every relationship is respected. *)
Lemma getInsertionOrder_structure (tables : list jsstring)
  (rels : list TableRelationship) :
  NoDup tables ->
  let done := processed tables rels in
  DDLParser.getInsertionOrder tables rels
  = Returned (done ++ filter (fun t => negb (includes done t)) tables) /\
  NoDup done /\ incl done tables /\
  forall r, In r rels -> kept tables r = true -> In (tableName r) done ->
            (0 <= indexOf done (referencedTable r) < indexOf done (tableName r))%Z.
Proof.
  intros Hnd done. subst done. unfold processed.
  destruct (kahnLoop_of_build tables rels) as (result & d' & Hout & Hinv & _).
  pose proof (buildGraph_ok tables rels) as Hb.
  unfold DDLParser.getInsertionOrder.
  destruct (DDLParser.buildGraph tables rels) as [g d] eqn:Ebuild; simpl in *.
  rewrite Hout.
  pose proof Hb as [Ht Ho Hk Hg Hd He].
  assert (Hinit : loop_inv g (fun n z => (Z.of_nat n <= z)%Z) (DDLParser.initialQueue d) [] d).
  { apply (initial_loop_inv _ tables rels); [assumption|].
    intros t _. apply inj_le, (pending_le_edgeCount _ _ _ d); assumption. }
  assert (Hnil : ordered g []).
  { intros l1 t l2 p Hsplit. destruct l1; discriminate. }
  pose proof (kahnLoop_ordered_any g Hg _ _ _ _ _ Hinit Hnil Hout) as Hord.
  destruct Hinv as (Hnd_res & Hincl & _). rewrite app_nil_r in *.
  assert (Hsub : incl result tables).
  { intros t Hin. apply Ht, Hincl; assumption. }
  repeat split; auto.
  - f_equal. unfold DDLParser.appendRemaining.
    destruct (Nat.eqb_spec (length result) (length tables)) as [Hlen|Hlen]; simpl;
      [|reflexivity].
    assert (Hall : incl tables result)
      by (apply (NoDup_length_incl Hnd_res); [lia | assumption]).
    assert (Hf : filter (fun t => negb (includes result t)) tables = []).
    { apply filter_none. intros t Hin.
      apply negb_false_iff, includes_In, Hall; assumption. }
    rewrite Hf, app_nil_r. reflexivity.
  - apply (ordered_indexOf g result (referencedTable r) (tableName r) Hord Hnd_res H1).
    apply He. exists r; auto.
  - apply (ordered_indexOf g result (referencedTable r) (tableName r) Hord Hnd_res H1).
    apply He. exists r; auto.
Qed.

Lemma indexOf_nonneg_In (l : list jsstring) (x : jsstring) :
  (0 <= indexOf l x)%Z -> In x l.
Proof.
  intros H. destruct (in_dec jsstring_eq_dec x l) as [Hin|Hn]; [assumption|].
  rewrite (indexOf_not_In l x Hn) in H. lia.
Qed.

Lemma leftover_permutation (tables done : list jsstring) :
  NoDup tables -> NoDup done -> incl done tables ->
  Permutation tables (done ++ filter (fun t => negb (includes done t)) tables).
Proof.
  intros Hnd Hdone Hincl. apply NoDup_Permutation; [assumption| |].
  - apply NoDup_app; [assumption | apply NoDup_filter; assumption |].
    intros x Hx Hf. apply filter_In in Hf. destruct Hf as (_ & Hf).
    apply negb_true_iff, includes_not_In in Hf. contradiction.
  - intros x. rewrite in_app_iff, filter_In, negb_true_iff, includes_not_In.
    destruct (in_dec jsstring_eq_dec x done); intuition auto.
Qed.

(** X4: for distinct table names and any relationships (cyclic, repeated,
    dangling), the order returned is made of the tables the loop could emit,
    followed by the tables left over in input order; and every relationship
    between listed tables whose referencing table was emitted by the loop is
    respected: the referenced table comes strictly before it. *)
Theorem getInsertionOrder_emitted_in_order (tables : list jsstring)
  (relationships : list TableRelationship) :
  NoDup tables ->
  exists order,
    DDLParser.getInsertionOrder tables relationships = Returned order /\
    order = processed tables relationships ++
            filter (fun t => negb (includes (processed tables relationships) t)) tables /\
    Permutation tables order /\
    forall r, In r relationships -> kept tables r = true ->
      In (tableName r) (processed tables relationships) ->
      (0 <= indexOf order (referencedTable r) < indexOf order (tableName r))%Z.
Proof.
  intros Hnd.
  destruct (getInsertionOrder_structure tables relationships Hnd)
    as (Heq & Hdone & Hincl & Hord).
  eexists. split; [exact Heq|]. split; [reflexivity|]. split.
  - apply leftover_permutation; assumption.
  - intros r Hr Hkept Hin. specialize (Hord r Hr Hkept Hin).
    rewrite !indexOf_app_In; [exact Hord | assumption | apply indexOf_nonneg_In; lia].
Qed.

Lemma getInsertionOrder_emitted_in_order_witness :
  exists order,
    DDLParser.getInsertionOrder [js "b"; js "a"; js "y"; js "x"]
      [ {| tableName := js "a"; referencedTable := js "b";
           columnName := js "b_id"; referencedColumn := js "id" |};
        {| tableName := js "b"; referencedTable := js "a";
           columnName := js "a_id"; referencedColumn := js "id" |};
        {| tableName := js "y"; referencedTable := js "x";
           columnName := js "x_id"; referencedColumn := js "id" |} ]
    = Returned order /\
    order = [js "x"; js "y"; js "b"; js "a"] /\
    (0 <= indexOf order (js "x") < indexOf order (js "y"))%Z.
Proof.
  pose (tables := [js "b"; js "a"; js "y"; js "x"]).
  pose (r := {| tableName := js "y"; referencedTable := js "x";
                columnName := js "x_id"; referencedColumn := js "id" |}).
  destruct (getInsertionOrder_emitted_in_order tables
              [ {| tableName := js "a"; referencedTable := js "b";
                   columnName := js "b_id"; referencedColumn := js "id" |};
                {| tableName := js "b"; referencedTable := js "a";
                   columnName := js "a_id"; referencedColumn := js "id" |}; r ])
    as (order & Heq & Horder & _ & Hord).
  { repeat constructor; simpl; intuition discriminate. }
  exists order. split; [exact Heq|]. split; [rewrite Horder; reflexivity|].
  apply (Hord r).
  - simpl; auto.
  - reflexivity.
  - vm_compute. auto.
Defined.

(** ** getInsertionOrder: a table that references itself *)

Lemma indexOf_cons_other (y x : jsstring) (l : list jsstring) :
  y <> x -> In x l -> indexOf (y :: l) x = (indexOf l x + 1)%Z.
Proof.
  intros Hne Hin. cbn [indexOf].
  apply jsstring_eqb_neq in Hne. rewrite Hne. cbv zeta.
  pose proof (indexOf_In l x Hin).
  destruct (Z.ltb_spec (indexOf l x) 0); lia.
Qed.

Lemma indexOf_cons_same (x : jsstring) (l : list jsstring) : indexOf (x :: l) x = 0%Z.
Proof. cbn [indexOf]. rewrite jsstring_eqb_refl. reflexivity. Qed.

(** [filter] keeps the relative order of what it keeps. *)
Lemma indexOf_filter_lt (f : jsstring -> bool) (l : list jsstring) (x y : jsstring) :
  In x l -> In y l -> f x = true -> f y = true ->
  ((indexOf (filter f l) x < indexOf (filter f l) y)%Z <->
   (indexOf l x < indexOf l y)%Z).
Proof.
  intros Hx Hy Fx Fy. induction l as [|z l IH]; [destruct Hx|].
  assert (Hfx : forall l', In x l' -> In x (filter f l'))
    by (intros l' H; apply filter_In; auto).
  assert (Hfy : forall l', In y l' -> In y (filter f l'))
    by (intros l' H; apply filter_In; auto).
  destruct (jsstring_eq_dec z x) as [-> | Hzx]; destruct (jsstring_eq_dec x y) as [Exy | Hxy].
  - subst y. lia.
  - destruct Hy as [Hy | Hy]; [congruence|].
    cbn [filter]. rewrite Fx, !indexOf_cons_same.
    rewrite !indexOf_cons_other by auto.
    pose proof (indexOf_In l y Hy). pose proof (indexOf_In _ y (Hfy l Hy)). lia.
  - subst y. lia.
  - destruct Hx as [Hx | Hx]; [congruence|].
    destruct (jsstring_eq_dec z y) as [-> | Hzy].
    + cbn [filter]. rewrite Fy, !indexOf_cons_same.
      rewrite !indexOf_cons_other by auto.
      pose proof (indexOf_In l x Hx). pose proof (indexOf_In _ x (Hfx l Hx)). lia.
    + destruct Hy as [Hy | Hy]; [congruence|].
      specialize (IH Hx Hy). cbn [filter]. destruct (f z).
      * rewrite !indexOf_cons_other by auto. lia.
      * rewrite !indexOf_cons_other by auto. lia.
Qed.

(** X5: a table that references itself is never emitted by the loop, and
    neither is a table that references it: both are left over and keep their
    input order.  So a table is placed before the self-referencing table it
    references exactly when it comes before it in the input. *)
Theorem getInsertionOrder_self_reference (tables : list jsstring)
  (relationships : list TableRelationship) (self r : TableRelationship) :
  NoDup tables ->
  In self relationships -> tableName self = referencedTable self ->
  In (tableName self) tables ->
  In r relationships -> referencedTable r = tableName self -> In (tableName r) tables ->
  exists order,
    DDLParser.getInsertionOrder tables relationships = Returned order /\
    ~ In (tableName self) (processed tables relationships) /\
    ~ In (tableName r) (processed tables relationships) /\
    ((indexOf order (tableName r) < indexOf order (tableName self))%Z <->
     (indexOf tables (tableName r) < indexOf tables (tableName self))%Z).
Proof.
  intros Hnd Hself Eself Ht Hr Er Hu.
  destruct (getInsertionOrder_structure tables relationships Hnd)
    as (Heq & Hdone & Hincl & Hord).
  set (done := processed tables relationships) in *.
  assert (Hkept_self : kept tables self = true).
  { unfold kept. rewrite <- Eself.
    assert (includes tables (tableName self) = true) as -> by (apply includes_In; assumption).
    reflexivity. }
  assert (Hkept_r : kept tables r = true).
  { unfold kept. rewrite Er.
    assert (includes tables (tableName r) = true) as -> by (apply includes_In; assumption).
    assert (includes tables (tableName self) = true) as -> by (apply includes_In; assumption).
    reflexivity. }
  assert (Hn_self : ~ In (tableName self) done).
  { intros Hin. specialize (Hord self Hself Hkept_self Hin). rewrite <- Eself in Hord. lia. }
  assert (Hn_r : ~ In (tableName r) done).
  { intros Hin. specialize (Hord r Hr Hkept_r Hin). rewrite Er in Hord.
    apply Hn_self, indexOf_nonneg_In. lia. }
  eexists. split; [exact Heq|]. split; [assumption|]. split; [assumption|].
  assert (Hleft : forall x, In x tables -> ~ In x done ->
            In x (filter (fun t => negb (includes done t)) tables)).
  { intros x Hx Hn. apply filter_In. split; [assumption|].
    apply negb_true_iff, includes_not_In; assumption. }
  rewrite !indexOf_app_not_In by auto.
  rewrite <- (indexOf_filter_lt (fun t => negb (includes done t)) tables
                (tableName r) (tableName self)); auto;
    try (apply negb_true_iff, includes_not_In; assumption).
  lia.
Qed.

Lemma getInsertionOrder_self_reference_witness :
  exists order,
    DDLParser.getInsertionOrder [js "tasks"; js "employees"]
      [ {| tableName := js "employees"; referencedTable := js "employees";
           columnName := js "manager_id"; referencedColumn := js "id" |};
        {| tableName := js "tasks"; referencedTable := js "employees";
           columnName := js "owner_id"; referencedColumn := js "id" |} ]
    = Returned order /\
    (indexOf order (js "tasks") < indexOf order (js "employees"))%Z.
Proof.
  pose (self := {| tableName := js "employees"; referencedTable := js "employees";
                   columnName := js "manager_id"; referencedColumn := js "id" |}).
  pose (r := {| tableName := js "tasks"; referencedTable := js "employees";
                columnName := js "owner_id"; referencedColumn := js "id" |}).
  destruct (getInsertionOrder_self_reference [js "tasks"; js "employees"] [self; r] self r)
    as (order & Heq & _ & _ & Hiff).
  - repeat constructor; simpl; intuition discriminate.
  - simpl; auto.
  - reflexivity.
  - simpl; auto.
  - simpl; auto.
  - reflexivity.
  - simpl; auto.
  - exists order. split; [exact Heq|]. apply Hiff. reflexivity.
Defined.

(** ** getInsertionOrder: when the order is a topological order *)

(** X6: with distinct table names, no pair of tables linked by two
    relationships and no cycle among the relationships between listed tables,
    the order returned is a permutation of the tables in which every
    referenced table comes strictly before the table that references it. *)
Theorem getInsertionOrder_topological (tables : list jsstring)
  (relationships : list TableRelationship) :
  NoDup tables -> distinct_edges tables relationships -> acyclic tables relationships ->
  exists order,
    DDLParser.getInsertionOrder tables relationships = Returned order /\
    Permutation tables order /\
    forall r, In r relationships -> kept tables r = true ->
      (0 <= indexOf order (referencedTable r) < indexOf order (tableName r))%Z.
Proof.
  intros Hnd Hdist Hacyclic.
  destruct (getInsertionOrder_topological_distinct_edges tables relationships
              Hnd Hdist Hacyclic) as (order & Heq & Hord).
  destruct (getInsertionOrder_structure tables relationships Hnd)
    as (Heq' & Hdone & Hincl & _).
  exists order. split; [exact Heq|]. split; [|exact Hord].
  rewrite Heq in Heq'. injection Heq' as ->.
  apply leftover_permutation; assumption.
Qed.

Lemma getInsertionOrder_topological_witness :
  exists order,
    DDLParser.getInsertionOrder [js "order_items"; js "orders"; js "users"]
      [ {| tableName := js "order_items"; referencedTable := js "orders";
           columnName := js "order_id"; referencedColumn := js "id" |};
        {| tableName := js "orders"; referencedTable := js "users";
           columnName := js "user_id"; referencedColumn := js "id" |} ]
    = Returned order /\
    Permutation [js "order_items"; js "orders"; js "users"] order /\
    (0 <= indexOf order (js "users") < indexOf order (js "orders"))%Z.
Proof.
  pose (tables := [js "order_items"; js "orders"; js "users"]).
  pose (r1 := {| tableName := js "order_items"; referencedTable := js "orders";
                 columnName := js "order_id"; referencedColumn := js "id" |}).
  pose (r2 := {| tableName := js "orders"; referencedTable := js "users";
                 columnName := js "user_id"; referencedColumn := js "id" |}).
  destruct (getInsertionOrder_topological tables [r1; r2]) as (order & Heq & Hperm & Hord).
  - repeat constructor; simpl; intuition discriminate.
  - unfold distinct_edges. vm_compute.
    repeat constructor; simpl; intuition discriminate.
  - exists (fun t => if jsstring_eqb t (js "users") then 0
                     else if jsstring_eqb t (js "orders") then 1 else 2).
    intros r [<- | [<- | []]] _; vm_compute; lia.
  - exists order. split; [exact Heq|]. split; [exact Hperm|].
    apply (Hord r2); [simpl; auto | reflexivity].
Defined.

(** ** sanitizeIdentifier: the names it leaves alone *)

(** The shape of an unquoted identifier: code units of [[a-z0-9_]], the first
    of which is no digit. *)
Definition leadingDigit (name : jsstring) : bool :=
  match name with
  | c :: _ => Utils.isDigit c
  | [] => false
  end.

Definition isCanonical (name : jsstring) : bool :=
  forallb isCanonChar name && negb (leadingDigit name).

Lemma prefixLeadingDigit_length (name : jsstring) :
  length (Utils.prefixLeadingDigit name)
  = length name + (if leadingDigit name then 1 else 0).
Proof.
  destruct name as [|c name]; simpl; [reflexivity|].
  destruct (Utils.isDigit c); simpl; lia.
Qed.

Lemma replaceInvalid_leadingDigit (name : jsstring) :
  leadingDigit (Utils.replaceInvalid name) = leadingDigit name.
Proof.
  destruct name as [|c name]; simpl; [reflexivity|].
  destruct (Utils.isIdentChar c) eqn:E; [reflexivity|].
  revert E. char_classes.
Qed.

Lemma sanitizeIdentifier_fixed (name : jsstring) :
  isCanonical name = true -> Utils.sanitizeIdentifier name = name.
Proof.
  unfold isCanonical. intros H. apply andb_true_iff in H. destruct H as (Hall & Hhead).
  assert (Hcanon : Forall (fun c => isCanonChar c = true) name)
    by (apply Forall_forall, forallb_forall; assumption).
  unfold Utils.sanitizeIdentifier. rewrite (canon_replaceInvalid name Hcanon).
  assert (Hpre : Utils.prefixLeadingDigit name = name).
  { destruct name as [|c s]; simpl in *; [reflexivity|].
    apply negb_true_iff in Hhead. rewrite Hhead. reflexivity. }
  rewrite Hpre. apply canon_toLowerCase; assumption.
Qed.

Lemma sanitizeIdentifier_shape (name : jsstring) :
  isCanonical (Utils.sanitizeIdentifier name) = true.
Proof.
  unfold isCanonical. apply andb_true_iff. split.
  - apply forallb_forall. apply Forall_forall, sanitizeIdentifier_canon.
  - pose proof (sanitizeIdentifier_head name) as H.
    destruct (Utils.sanitizeIdentifier name) as [|c s]; simpl; [reflexivity|].
    rewrite H. reflexivity.
Qed.

(** X7: [sanitizeIdentifier] always returns a name of the shape of an
    unquoted identifier, at most one code unit longer than its argument (the
    underscore put before a leading digit), and it leaves a name unchanged
    exactly when the name has that shape already. *)
Theorem sanitizeIdentifier_canonical (name : jsstring) :
  isCanonical (Utils.sanitizeIdentifier name) = true /\
  length (Utils.sanitizeIdentifier name)
  = length name + (if leadingDigit name then 1 else 0) /\
  (Utils.sanitizeIdentifier name = name <-> isCanonical name = true).
Proof.
  pose proof (sanitizeIdentifier_shape name) as Hshape.
  split; [exact Hshape|]. split.
  - unfold Utils.sanitizeIdentifier, Utils.toLowerCase.
    rewrite length_map, prefixLeadingDigit_length, replaceInvalid_leadingDigit.
    unfold Utils.replaceInvalid. rewrite length_map. reflexivity.
  - split.
    + intros H. rewrite <- H. exact Hshape.
    + apply sanitizeIdentifier_fixed.
Qed.

(** ** From a field to its column and back *)

(** The code units that survive the way from a field name to its column name
    and back: [[a-z0-9.]]. *)
Definition isPlainChar (c : code_unit) : bool :=
  Utils.isLower c || Utils.isDigit c || N.eqb c Utils.dot.

(** A field name that [insertDocuments] finds again from its column. *)
Definition roundTrips (name : jsstring) : bool :=
  forallb isPlainChar name && negb (leadingDigit name).

(** What becomes of one code unit of a field name. *)
Definition thereAndBack (c : code_unit) : code_unit :=
  let column := Utils.lowerUnit (if Utils.isIdentChar c then c else Utils.underscore) in
  if N.eqb column Utils.underscore then Utils.dot else column.

Ltac plain_chars :=
  unfold thereAndBack, isPlainChar, isCanonChar, Utils.isIdentChar, Utils.lowerUnit,
    Utils.isLower, Utils.isUpper, Utils.isDigit, Utils.underscore, Utils.dot in *;
  repeat (match goal with
          | H : context [N.leb ?a ?b] |- _ => destruct (N.leb_spec a b)
          | H : context [N.eqb ?a ?b] |- _ => destruct (N.eqb_spec a b)
          | |- context [N.leb ?a ?b] => destruct (N.leb_spec a b)
          | |- context [N.eqb ?a ?b] => destruct (N.eqb_spec a b)
          end;
          simpl in *; try discriminate; try (exfalso; lia));
  simpl in *; try reflexivity; try discriminate; try lia.

Lemma thereAndBack_fixed (c : code_unit) :
  thereAndBack c = c <-> isPlainChar c = true.
Proof. split; intros H; plain_chars. Qed.

(** The dots need not be replaced before [sanitizeIdentifier]: it replaces
    them itself. *)
Lemma columnNameOf_sanitize (name : jsstring) :
  PostgresManager.columnNameOf name = Utils.sanitizeIdentifier name.
Proof.
  unfold PostgresManager.columnNameOf, Utils.sanitizeIdentifier.
  assert (E : Utils.replaceInvalid (Utils.replaceDots name) = Utils.replaceInvalid name).
  { unfold Utils.replaceInvalid, Utils.replaceDots. rewrite map_map.
    apply map_ext. intros c. plain_chars. }
  rewrite E. reflexivity.
Qed.

Lemma fieldNameOfColumn_columnNameOf (name : jsstring) :
  PostgresManager.fieldNameOfColumn (PostgresManager.columnNameOf name)
  = (if leadingDigit name then [Utils.dot] else []) ++ map thereAndBack name.
Proof.
  rewrite columnNameOf_sanitize.
  unfold PostgresManager.fieldNameOfColumn, Utils.sanitizeIdentifier, Utils.toLowerCase.
  rewrite map_map.
  assert (Hpre : Utils.prefixLeadingDigit (Utils.replaceInvalid name)
                 = (if leadingDigit name then [Utils.underscore] else []) ++
                   Utils.replaceInvalid name).
  { rewrite <- (replaceInvalid_leadingDigit name).
    destruct (Utils.replaceInvalid name) as [|c s]; simpl; [reflexivity|].
    destruct (Utils.isDigit c); reflexivity. }
  rewrite Hpre, map_app. f_equal.
  - destruct (leadingDigit name); reflexivity.
  - unfold Utils.replaceInvalid. rewrite map_map. apply map_ext. intros c. reflexivity.
Qed.

Lemma map_fixed {A : Type} (f : A -> A) (l : list A) :
  map f l = l <-> Forall (fun x => f x = x) l.
Proof.
  induction l as [|x l IH]; simpl.
  - split; [constructor | reflexivity].
  - split.
    + intros H. injection H as Hx Hl. constructor; [assumption | apply IH; assumption].
    + intros H. inversion H as [|? ? Hx Hl]; subst. rewrite Hx. f_equal. apply IH; assumption.
Qed.

(** X8: [createTableFromSchema] names the column of a field
    [sanitizeIdentifier(name.replace(/\./g, '_'))] and [insertDocuments] looks
    for the field [column.replace(/_/g, '.')].  The second undoes the first
    exactly for the field names made of [[a-z0-9.]] that do not start with a
    digit: a name with an upper-case letter, an underscore or any other code
    unit is not found again. *)
Theorem fieldNameOfColumn_round_trip (name : jsstring) :
  PostgresManager.fieldNameOfColumn (PostgresManager.columnNameOf name) = name
  <-> roundTrips name = true.
Proof.
  rewrite fieldNameOfColumn_columnNameOf. unfold roundTrips.
  destruct (leadingDigit name) eqn:Ed; simpl.
  - rewrite andb_false_r. split; [|discriminate].
    intros H. apply (f_equal (@length code_unit)) in H.
    simpl in H. rewrite length_map in H. lia.
  - rewrite andb_true_r. split.
    + intros H. apply (proj1 (map_fixed _ _)) in H. rewrite Forall_forall in H.
      apply forallb_forall. intros c Hc. apply thereAndBack_fixed, H; assumption.
    + intros H. apply (proj2 (map_fixed _ _)), Forall_forall. intros c Hc.
      apply thereAndBack_fixed. revert c Hc. apply forallb_forall; assumption.
Qed.

(** ** getNestedValue *)

Lemma splitOn_app (separator : code_unit) (p q : jsstring) :
  forall current,
    Engine.splitOn separator (p ++ separator :: q) current
    = Engine.splitOn separator p current ++ Engine.splitOn separator q [].
Proof.
  induction p as [|c p IH]; intros current; simpl.
  - rewrite N.eqb_refl. reflexivity.
  - destruct (N.eqb c separator); [rewrite IH; reflexivity | apply IH].
Qed.

Lemma splitOn_whole (separator : code_unit) (s : jsstring) :
  Forall (fun c => c <> separator) s ->
  forall current, Engine.splitOn separator s current = [rev current ++ s].
Proof.
  induction 1 as [|c s Hc _ IH]; intros current; simpl.
  - rewrite app_nil_r. reflexivity.
  - apply N.eqb_neq in Hc. rewrite Hc, IH. simpl. rewrite <- app_assoc. reflexivity.
Qed.

Lemma splitOn_cons (separator : code_unit) (s current : jsstring) :
  exists first rest, Engine.splitOn separator s current = first :: rest.
Proof.
  revert current. induction s as [|c s IH]; intros current; simpl.
  - eexists; eexists; reflexivity.
  - destruct (N.eqb c separator); [eexists; eexists; reflexivity | apply IH].
Qed.

Section Nested.

Variable inherited : value -> jsstring -> option value.

Lemma walk_not_object (v : value) (key : jsstring) (keys : list jsstring) :
  isObject v = false -> PostgresManager.walk inherited v (key :: keys) = VNull.
Proof. intros H. simpl. rewrite H. reflexivity. Qed.

Lemma walk_app (keys1 keys2 : list jsstring) :
  forall obj,
    PostgresManager.walk inherited obj (keys1 ++ keys2)
    = PostgresManager.walk inherited (PostgresManager.walk inherited obj keys1) keys2.
Proof.
  induction keys1 as [|key keys1 IH]; intros obj; [reflexivity|].
  simpl. destruct (isObject obj).
  - destruct (PostgresManager.property inherited obj key) as [v|]; [apply IH|].
    destruct keys2; reflexivity.
  - destruct keys2; reflexivity.
Qed.

Lemma getNestedValue_key (obj : value) (key : jsstring) :
  Forall (fun c => c <> Utils.dot) key -> isObject obj = true ->
  PostgresManager.getNestedValue inherited obj key
  = match PostgresManager.property inherited obj key with
    | Some v => v
    | None => VNull
    end.
Proof.
  intros Hkey Hobj. unfold PostgresManager.getNestedValue.
  rewrite Hobj, (splitOn_whole _ key Hkey). simpl.
  rewrite Hobj. destruct (PostgresManager.property inherited obj key); reflexivity.
Qed.

Lemma getNestedValue_compose (obj : value) (p q : jsstring) :
  PostgresManager.getNestedValue inherited obj (p ++ Utils.dot :: q)
  = PostgresManager.getNestedValue inherited
      (PostgresManager.getNestedValue inherited obj p) q.
Proof.
  unfold PostgresManager.getNestedValue.
  destruct (isObject obj) eqn:Hobj; [|reflexivity].
  rewrite splitOn_app, walk_app.
  destruct (splitOn_cons Utils.dot q []) as (first & rest & ->).
  destruct (isObject (PostgresManager.walk inherited obj (Engine.splitOn Utils.dot p [])))
    eqn:E; [reflexivity|].
  apply walk_not_object; assumption.
Qed.

(** X9: [getNestedValue] follows a path key by key.  On a value that is no
    object it answers [null] for every path; for a key without a dot it
    answers the property of that name, or [null] when there is none; and a
    path [p.q] is resolved by resolving [q] in what [p] resolves to. *)
Theorem getNestedValue_path (obj : value) :
  (forall path, isObject obj = false ->
     PostgresManager.getNestedValue inherited obj path = VNull) /\
  (forall key, Forall (fun c => c <> Utils.dot) key -> isObject obj = true ->
     PostgresManager.getNestedValue inherited obj key
     = match PostgresManager.property inherited obj key with
       | Some v => v
       | None => VNull
       end) /\
  (forall p q,
     PostgresManager.getNestedValue inherited obj (p ++ Utils.dot :: q)
     = PostgresManager.getNestedValue inherited
         (PostgresManager.getNestedValue inherited obj p) q).
Proof.
  split; [|split].
  - intros path H. unfold PostgresManager.getNestedValue. rewrite H. reflexivity.
  - apply getNestedValue_key.
  - apply getNestedValue_compose.
Qed.

(** *** What [insertDocuments] reads for the column of a field *)

Definition isAlnumLower (c : code_unit) : bool := Utils.isLower c || Utils.isDigit c.

Definition isAlnum (c : code_unit) : bool :=
  Utils.isLower c || Utils.isUpper c || Utils.isDigit c.

Lemma alnum_no_dot (s : jsstring) :
  forallb isAlnum s = true -> Forall (fun c => c <> Utils.dot) s.
Proof.
  intros H. apply Forall_forall. intros c Hc.
  pose proof (proj1 (forallb_forall _ _) H c Hc) as Ha.
  unfold isAlnum in Ha. intros ->. revert Ha. plain_chars.
Qed.

Lemma alnum_column (name : jsstring) :
  forallb isAlnum name = true -> leadingDigit name = false ->
  PostgresManager.fieldNameOfColumn (PostgresManager.columnNameOf name)
  = Utils.toLowerCase name.
Proof.
  intros Hall Hhead. rewrite fieldNameOfColumn_columnNameOf, Hhead. simpl.
  unfold Utils.toLowerCase. apply map_ext_in. intros c Hc.
  pose proof (proj1 (forallb_forall _ _) Hall c Hc) as Ha.
  unfold isAlnum in Ha. revert Ha. plain_chars.
Qed.

Lemma toLowerCase_alnum (name : jsstring) :
  forallb isAlnum name = true -> forallb isAlnum (Utils.toLowerCase name) = true.
Proof.
  intros H. unfold Utils.toLowerCase. apply forallb_forall. intros c Hc.
  apply in_map_iff in Hc. destruct Hc as (c0 & <- & Hc0).
  pose proof (proj1 (forallb_forall _ _) H c0 Hc0) as Ha.
  unfold isAlnum in *. revert Ha. plain_chars.
Qed.

Variable mongoIdOf : value -> outcome value.
Variable stringify : value -> outcome value.

Lemma alnum_not_with_underscore (name : jsstring) (s : string) :
  forallb isAlnum name = true -> existsb (N.eqb Utils.underscore) (js s) = true ->
  jsstring_eqb name (js s) = false.
Proof.
  intros Hall Hs. apply jsstring_eqb_neq. intros ->.
  apply existsb_exists in Hs. destruct Hs as (c & Hin & Hc).
  apply N.eqb_eq in Hc. subst c.
  pose proof (proj1 (forallb_forall _ _) Hall _ Hin) as Ha. discriminate Ha.
Qed.

(** X10: a top-level field whose name is made of letters and digits and has
    an upper-case letter (as [createdAt]) is not read back by
    [insertDocuments]: the column is named by the lower-cased name and, unless
    that name is [id], it is listed in the [INSERT]; the document is asked for
    a property of the lower-cased name, and unless it happens to have one the
    value bound is [null], although the field is there under its own name. *)
Theorem columnSource_mixed_case (entries : list (jsstring * value)) (name : jsstring)
  (v : value) :
  forallb isAlnum name = true -> leadingDigit name = false ->
  PostgresManager.columnNameOf name <> js "id" ->
  JsMap.get entries name = Some v ->
  PostgresManager.property inherited (VObject entries) (Utils.toLowerCase name) = None ->
  PostgresManager.getNestedValue inherited (VObject entries) name = v /\
  PostgresManager.listedColumns [PostgresManager.columnNameOf name]
  = [PostgresManager.columnNameOf name] /\
  PostgresManager.columnSource inherited mongoIdOf stringify (VObject entries)
    (PostgresManager.columnNameOf name) = Returned VNull.
Proof.
  intros Hall Hhead Hid Hget Hnone. split; [|split].
  - rewrite getNestedValue_key by (auto using alnum_no_dot).
    unfold PostgresManager.property. simpl. rewrite Hget. reflexivity.
  - unfold PostgresManager.listedColumns. cbn [filter].
    apply jsstring_eqb_neq in Hid. rewrite Hid. reflexivity.
  - assert (Hcolumn : PostgresManager.columnNameOf name = Utils.toLowerCase name).
    { rewrite columnNameOf_sanitize. unfold Utils.sanitizeIdentifier.
      assert (Hkeep : Utils.replaceInvalid name = name).
      { unfold Utils.replaceInvalid. rewrite <- (map_id name) at 2.
        apply map_ext_in. intros c Hc.
        pose proof (proj1 (forallb_forall _ _) Hall c Hc) as Ha.
        unfold isAlnum in Ha. revert Ha. plain_chars. }
      rewrite Hkeep. destruct name as [|c name]; [reflexivity|].
      simpl in Hhead. simpl. rewrite Hhead. reflexivity. }
    unfold PostgresManager.columnSource.
    rewrite Hcolumn at 1.
    rewrite (alnum_not_with_underscore (Utils.toLowerCase name) "mongo_id")
      by (auto using toLowerCase_alnum).
    cbv zeta. rewrite (alnum_column name Hall Hhead).
    rewrite getNestedValue_key, Hnone; auto.
    apply alnum_no_dot, toLowerCase_alnum; assumption.
Qed.

Lemma fieldNameOfColumn_plain (s : jsstring) :
  forallb isAlnumLower s = true -> PostgresManager.fieldNameOfColumn s = s.
Proof.
  intros H. unfold PostgresManager.fieldNameOfColumn.
  rewrite <- (map_id s) at 2. apply map_ext_in. intros c Hc.
  pose proof (proj1 (forallb_forall _ _) H c Hc) as Ha.
  unfold isAlnumLower in Ha. revert Ha. plain_chars.
Qed.

Lemma alnumLower_canon (s : jsstring) :
  forallb isAlnumLower s = true -> forallb isCanonChar s = true.
Proof.
  intros H. apply forallb_forall. intros c Hc.
  pose proof (proj1 (forallb_forall _ _) H c Hc) as Ha.
  unfold isAlnumLower in Ha. revert Ha. plain_chars.
Qed.

Lemma with_underscore_not (a b : jsstring) (s : string) :
  existsb (N.eqb Utils.underscore) (js s) = false ->
  jsstring_eqb (a ++ Utils.underscore :: b) (js s) = false.
Proof.
  intros Hs. apply jsstring_eqb_neq. intros Heq.
  assert (Hin : existsb (N.eqb Utils.underscore) (js s) = true).
  { rewrite <- Heq. apply existsb_exists. exists Utils.underscore. split.
    - apply in_or_app. right. left. reflexivity.
    - apply N.eqb_refl. }
  congruence.
Qed.

(** X11: a field whose name has an underscore between two lower-case
    alphanumeric parts (as [created_at]) gets a column of the same name,
    which is listed in the [INSERT]; unless the column is [mongo_id],
    [insertDocuments] fills it from the sub-document named by the first part:
    it reads [doc.created.at], not [doc.created_at], and binds that value (as
    JSON text when it is an object). *)
Theorem columnSource_snake_case (doc : value) (a b : jsstring) :
  forallb isAlnumLower a = true -> forallb isAlnumLower b = true ->
  leadingDigit a = false ->
  a ++ Utils.underscore :: b <> js "mongo_id" ->
  PostgresManager.columnNameOf (a ++ Utils.underscore :: b) = a ++ Utils.underscore :: b /\
  PostgresManager.listedColumns [PostgresManager.columnNameOf (a ++ Utils.underscore :: b)]
  = [a ++ Utils.underscore :: b] /\
  PostgresManager.columnSource inherited mongoIdOf stringify doc
    (PostgresManager.columnNameOf (a ++ Utils.underscore :: b))
  = PostgresManager.jsonIfObject stringify
      (PostgresManager.getNestedValue inherited
         (PostgresManager.getNestedValue inherited doc a) b).
Proof.
  intros Ha Hb Hhead Hmongo.
  assert (Hname : PostgresManager.columnNameOf (a ++ Utils.underscore :: b)
                  = a ++ Utils.underscore :: b).
  { rewrite columnNameOf_sanitize. apply sanitizeIdentifier_fixed.
    unfold isCanonical. apply andb_true_iff. split.
    - rewrite forallb_app. simpl.
      rewrite (alnumLower_canon a Ha), (alnumLower_canon b Hb). reflexivity.
    - destruct a as [|c a]; simpl in *; [reflexivity|]. rewrite Hhead. reflexivity. }
  split; [exact Hname|]. rewrite Hname. split.
  - unfold PostgresManager.listedColumns. cbn [filter].
    rewrite (with_underscore_not a b "id") by reflexivity. reflexivity.
  - unfold PostgresManager.columnSource.
    apply jsstring_eqb_neq in Hmongo. rewrite Hmongo. cbv zeta.
    assert (Hpath : PostgresManager.fieldNameOfColumn (a ++ Utils.underscore :: b)
                    = a ++ Utils.dot :: b).
    { rewrite <- (fieldNameOfColumn_plain a Ha) at 2.
      rewrite <- (fieldNameOfColumn_plain b Hb) at 2.
      unfold PostgresManager.fieldNameOfColumn. rewrite map_app. reflexivity. }
    rewrite Hpath. f_equal. apply getNestedValue_compose.
Qed.

End Nested.

Lemma getNestedValue_path_witness :
  PostgresManager.getNestedValue (fun _ _ => None)
    (VObject [(js "address", VObject [(js "city", VString (js "Oslo"))])])
    (js "address")
  = VObject [(js "city", VString (js "Oslo"))].
Proof.
  apply (proj1 (proj2 (getNestedValue_path (fun _ _ => None)
                         (VObject [(js "address",
                                    VObject [(js "city", VString (js "Oslo"))])])))
           (js "address")).
  - repeat constructor; discriminate.
  - reflexivity.
Defined.

Lemma columnSource_mixed_case_witness :
  PostgresManager.getNestedValue (fun _ _ => None)
    (VObject [(js "createdAt", VString (js "2023-01-15"))]) (js "createdAt")
  = VString (js "2023-01-15") /\
  PostgresManager.listedColumns [PostgresManager.columnNameOf (js "createdAt")]
  = [PostgresManager.columnNameOf (js "createdAt")] /\
  PostgresManager.columnSource (fun _ _ => None) (fun _ => Returned VNull)
    (fun _ => Returned (VString (js "{}")))
    (VObject [(js "createdAt", VString (js "2023-01-15"))])
    (PostgresManager.columnNameOf (js "createdAt")) = Returned VNull.
Proof.
  apply (columnSource_mixed_case (fun _ _ => None) (fun _ => Returned VNull)
           (fun _ => Returned (VString (js "{}")))
           [(js "createdAt", VString (js "2023-01-15"))] (js "createdAt")
           (VString (js "2023-01-15"))); try reflexivity.
  vm_compute. discriminate.
Defined.

Lemma columnSource_snake_case_witness :
  PostgresManager.columnNameOf (js "created_at") = js "created_at" /\
  PostgresManager.listedColumns [PostgresManager.columnNameOf (js "created_at")]
  = [js "created_at"] /\
  PostgresManager.columnSource (fun _ _ => None) (fun _ => Returned VNull)
    (fun _ => Returned (VString (js "{}")))
    (VObject [(js "created_at", VString (js "2023-01-15"))])
    (PostgresManager.columnNameOf (js "created_at"))
  = PostgresManager.jsonIfObject (fun _ => Returned (VString (js "{}")))
      (PostgresManager.getNestedValue (fun _ _ => None)
         (PostgresManager.getNestedValue (fun _ _ => None)
            (VObject [(js "created_at", VString (js "2023-01-15"))]) (js "created"))
         (js "at")).
Proof.
  apply (columnSource_snake_case (fun _ _ => None) (fun _ => Returned VNull)
           (fun _ => Returned (VString (js "{}")))
           (VObject [(js "created_at", VString (js "2023-01-15"))])
           (js "created") (js "at")); try reflexivity.
  vm_compute. discriminate.
Defined.

(** ** chunkArray *)

Section Chunking.

Context {A : Type}.
Variable array : list A.
Variable chunkSize : Z.

Let len : Z := Z.of_nat (length array).

(** A slice that starts inside the array and is cut by a positive chunk
    size. *)
Lemma slice_chunk (i : Z) :
  (1 <= chunkSize)%Z -> (0 <= i < len)%Z ->
  Chunks.slice array i (i + chunkSize)
  = firstn (Z.to_nat chunkSize) (skipn (Z.to_nat i) array).
Proof.
  intros Hn Hi. unfold Chunks.slice, Chunks.relativeIndex. fold len. cbv zeta.
  destruct (Z.ltb_spec i 0); [lia|].
  destruct (Z.ltb_spec (i + chunkSize) 0); [lia|].
  rewrite (Z.min_l i len) by lia.
  destruct (Z.le_ge_cases (i + chunkSize) len) as [Hle|Hge].
  - rewrite Z.min_l by lia. f_equal. lia.
  - rewrite Z.min_r by lia.
    assert (Hlen : length (skipn (Z.to_nat i) array) = Z.to_nat (len - i)).
    { rewrite length_skipn. unfold len. lia. }
    rewrite !firstn_all2; [reflexivity | rewrite Hlen; lia | rewrite Hlen; lia].
Qed.

Lemma slice_chunk_length (i : Z) :
  (1 <= chunkSize)%Z -> (0 <= i < len)%Z ->
  Z.of_nat (length (Chunks.slice array i (i + chunkSize))) = Z.min chunkSize (len - i).
Proof.
  intros Hn Hi. rewrite slice_chunk by assumption.
  rewrite length_firstn, length_skipn. unfold len in *. lia.
Qed.

(** From position [i] on, the loop cuts what is left of the array into chunks
    of [chunkSize] elements, the last one possibly shorter. *)
Lemma chunkLoop_chunks (fuel : nat) :
  (1 <= chunkSize)%Z ->
  forall (i : Z) (chunks : list (list A)),
    (0 <= i < len + chunkSize)%Z -> (len - i <= Z.of_nat fuel)%Z ->
    exists more,
      Chunks.chunkLoop fuel array chunkSize i chunks = Returned (chunks ++ more) /\
      concat more = skipn (Z.to_nat i) array /\
      Forall (fun c => (1 <= Z.of_nat (length c) <= chunkSize)%Z) more /\
      Forall (fun c => Z.of_nat (length c) = chunkSize) (removelast more) /\
      Z.of_nat (length more) = ((len - i + chunkSize - 1) / chunkSize)%Z.
Proof.
  intros Hn. induction fuel as [|fuel IH]; intros i chunks Hi Hfuel.
  - exists []. simpl. fold len. destruct (Z.ltb_spec i len); [lia|].
    rewrite app_nil_r. repeat split; try constructor.
    + symmetry. apply skipn_all2. unfold len in *. lia.
    + symmetry. apply Z.div_small. lia.
  - cbn [Chunks.chunkLoop]. fold len. destruct (Z.ltb_spec i len) as [Hlt|Hge].
    + destruct (IH (i + chunkSize)%Z (chunks ++ [Chunks.slice array i (i + chunkSize)]))
        as (more & Hloop & Hconcat & Hsizes & Hfull & Hcount); [lia | lia |].
      exists (Chunks.slice array i (i + chunkSize) :: more).
      pose proof (slice_chunk_length i Hn (conj (proj1 Hi) Hlt)) as Hslice.
      repeat split.
      * rewrite Hloop, <- app_assoc. reflexivity.
      * simpl. rewrite Hconcat, slice_chunk by lia.
        replace (Z.to_nat (i + chunkSize)) with (Z.to_nat chunkSize + Z.to_nat i) by lia.
        rewrite <- skipn_skipn. apply firstn_skipn.
      * constructor; [lia | assumption].
      * destruct more as [|c more]; [constructor|].
        change (removelast (Chunks.slice array i (i + chunkSize) :: c :: more))
          with (Chunks.slice array i (i + chunkSize) :: removelast (c :: more)).
        constructor; [|assumption].
        assert (Hpos : (0 < (len - (i + chunkSize) + chunkSize - 1) / chunkSize)%Z)
          by (rewrite <- Hcount; simpl; lia).
        assert (Hmore : (i + chunkSize < len)%Z).
        { destruct (Z.lt_ge_cases (i + chunkSize) len) as [?|Hover]; [assumption|].
          rewrite Z.div_small in Hpos by lia. lia. }
        lia.
      * cbn [length]. rewrite Nat2Z.inj_succ, Hcount.
        replace (len - i + chunkSize - 1)%Z
          with (len - (i + chunkSize) + chunkSize - 1 + 1 * chunkSize)%Z by lia.
        rewrite Z.div_add by lia. lia.
    + exists []. rewrite app_nil_r. repeat split; try constructor.
      * symmetry. apply skipn_all2. unfold len in *. lia.
      * symmetry. apply Z.div_small. lia.
Qed.

(** With a chunk size of zero or less the loop makes no progress. *)
Lemma chunkLoop_stuck (fuel : nat) :
  (chunkSize <= 0)%Z ->
  forall (i : Z) (chunks : list (list A)),
    (i < len)%Z -> Chunks.chunkLoop fuel array chunkSize i chunks = OutOfFuel.
Proof.
  intros Hn. induction fuel as [|fuel IH]; intros i chunks Hi; cbn [Chunks.chunkLoop];
    fold len; destruct (Z.ltb_spec i len); try lia; [reflexivity|].
  apply IH. lia.
Qed.

End Chunking.

(** X12: for a chunk size of at least one, [chunkArray] returns chunks that,
    put end to end, are the array again; every chunk holds between one and
    [chunkSize] elements and every chunk but the last exactly [chunkSize]; and
    there are [ceil(length / chunkSize)] chunks. *)
Theorem chunkArray_chunks {A : Type} (array : list A) (chunkSize : Z) :
  (1 <= chunkSize)%Z ->
  exists chunks,
    Chunks.chunkArray array chunkSize = Returned chunks /\
    concat chunks = array /\
    Forall (fun c => (1 <= Z.of_nat (length c) <= chunkSize)%Z) chunks /\
    Forall (fun c => Z.of_nat (length c) = chunkSize) (removelast chunks) /\
    Z.of_nat (length chunks)
    = ((Z.of_nat (length array) + chunkSize - 1) / chunkSize)%Z.
Proof.
  intros Hn. unfold Chunks.chunkArray.
  destruct (chunkLoop_chunks array chunkSize (length array) Hn 0 [])
    as (chunks & Hloop & Hconcat & Hsizes & Hfull & Hcount); [lia | lia |].
  exists chunks. simpl in Hloop. rewrite Z.sub_0_r in Hcount.
  repeat split; assumption.
Qed.

Lemma chunkArray_chunks_witness :
  exists chunks,
    Chunks.chunkArray [1; 2; 3; 4; 5] 2 = Returned chunks /\
    concat chunks = [1; 2; 3; 4; 5] /\
    Forall (fun c => (1 <= Z.of_nat (length c) <= 2)%Z) chunks /\
    Forall (fun c => Z.of_nat (length c) = 2%Z) (removelast chunks) /\
    Z.of_nat (length chunks) = 3%Z.
Proof.
  apply (chunkArray_chunks [1; 2; 3; 4; 5] 2). lia.
Defined.

(** X13: with a chunk size of zero or less, [chunkArray] does not return for
    an array that is not empty: the index never gets past the first element,
    so however many iterations the loop is granted, it has not ended.  (An
    empty array gives no chunk, whatever the chunk size.) *)
Theorem chunkArray_no_progress {A : Type} (array : list A) (chunkSize : Z) :
  (chunkSize <= 0)%Z -> array <> [] ->
  (forall fuel chunks, Chunks.chunkLoop fuel array chunkSize 0 chunks = OutOfFuel) /\
  Chunks.chunkArray array chunkSize = OutOfFuel /\
  Chunks.chunkArray (@nil A) chunkSize = Returned [].
Proof.
  intros Hn Hne.
  assert (Hlen : (0 < Z.of_nat (length array))%Z) by (destruct array; [congruence | simpl; lia]).
  repeat split.
  - intros fuel chunks. apply chunkLoop_stuck; assumption.
  - apply chunkLoop_stuck; assumption.
Qed.

Lemma chunkArray_no_progress_witness :
  (forall fuel chunks, Chunks.chunkLoop fuel [1; 2; 3] 0 0 chunks = OutOfFuel) /\
  Chunks.chunkArray [1; 2; 3] 0 = OutOfFuel /\
  Chunks.chunkArray (@nil nat) 0 = Returned [].
Proof.
  apply (chunkArray_no_progress [1; 2; 3] 0); [lia | discriminate].
Defined.

(** ** analyzeDocument: the steps of the loop body *)

Lemma register_cases (m m' : MongoAnalyzer.FieldMap) (name : jsstring) (v : value) :
  MongoAnalyzer.register m name v = Returned m' ->
  (JsMap.has m name = true /\ m' = m) \/
  (JsMap.has m name = false /\
   exists t, Infer.inferTypeFromValue v = Returned t /\
             m' = JsMap.set m name {| fieldName := name; fieldType := t;
                                      isRequired := false; isArray := isArrayValue v |}).
Proof.
  unfold MongoAnalyzer.register. destruct (JsMap.has m name) eqn:E.
  - intros [= <-]. left; auto.
  - destruct (Infer.inferTypeFromValue v) as [t| |]; try discriminate.
    intros [= <-]. right. split; [reflexivity|]. exists t; auto.
Qed.

Lemma promote_cases (m m' : MongoAnalyzer.FieldMap) (name : jsstring) (v : value) :
  MongoAnalyzer.promote m name v = Returned m' ->
  m' = m \/
  exists t field,
    Infer.inferTypeFromValue v = Returned t /\ JsMap.get m name = Some field /\
    fieldType field = TNull /\ m' = MongoAnalyzer.setType m name t.
Proof.
  unfold MongoAnalyzer.promote.
  assert (Hgen : match Infer.inferTypeFromValue v with
                 | Returned currentType =>
                     match JsMap.get m name with
                     | Some field =>
                         match fieldType field with
                         | TNull => Returned (MongoAnalyzer.setType m name currentType)
                         | _ => Returned m
                         end
                     | None => Returned m
                     end
                 | Thrown e => Thrown e
                 | OutOfFuel => OutOfFuel
                 end = Returned m' ->
                 m' = m \/
                 exists t field,
                   Infer.inferTypeFromValue v = Returned t /\ JsMap.get m name = Some field /\
                   fieldType field = TNull /\ m' = MongoAnalyzer.setType m name t).
  { destruct (Infer.inferTypeFromValue v) as [t| |]; try discriminate.
    destruct (JsMap.get m name) as [f|] eqn:E; [|intros [= <-]; auto].
    destruct (fieldType f) eqn:Et; intros [= <-]; auto.
    right. exists t, f. auto. }
  destruct v; try exact Hgen; intros [= <-]; auto.
Qed.

Section Kept.

(** A relation between the field map before and after, kept by each of the
    three updates the loop body makes. *)
Variable R : MongoAnalyzer.FieldMap -> MongoAnalyzer.FieldMap -> Prop.
Hypothesis R_refl : forall m, R m m.
Hypothesis R_trans : forall a b c, R a b -> R b c -> R a c.
Hypothesis R_register :
  forall m name v m', MongoAnalyzer.register m name v = Returned m' -> R m m'.
Hypothesis R_promote :
  forall m name v m', MongoAnalyzer.promote m name v = Returned m' -> R m m'.
Hypothesis R_setIsArray : forall m name, R m (MongoAnalyzer.setIsArray m name).

Lemma analyzeEntry_kept
  (recur : value -> MongoAnalyzer.FieldMap -> jsstring -> outcome MongoAnalyzer.FieldMap)
  (prefix : jsstring) (m m' : MongoAnalyzer.FieldMap) (entry : jsstring * value) :
  (forall v a b p, recur v a p = Returned b -> R a b) ->
  MongoAnalyzer.analyzeEntry recur prefix m entry = Returned m' -> R m m'.
Proof.
  intros Hrecur. destruct entry as [key v]. unfold MongoAnalyzer.analyzeEntry.
  cbv zeta. intros H.
  apply bind_Returned in H. destruct H as (a1 & H1 & H).
  apply bind_Returned in H. destruct H as (a2 & H2 & H).
  apply bind_Returned in H. destruct H as (a3 & H3 & H).
  apply R_register in H1. apply R_promote in H2.
  assert (K3 : R a2 a3).
  { destruct (isObject v && negb (isArrayValue v) && negb (isDate v)).
    - eapply Hrecur; eassumption.
    - inversion H3; subst. apply R_refl. }
  assert (K4 : R a3 m').
  { destruct v as [| | | | | |[|firstItem items]| | |];
      try (inversion H; subst; apply R_refl).
    apply R_trans with (MongoAnalyzer.setIsArray a3 (MongoAnalyzer.fieldNameOf prefix key)).
    - apply R_setIsArray.
    - destruct (isObject firstItem && negb (isDate firstItem)).
      + eapply Hrecur; eassumption.
      + inversion H; subst. apply R_refl. }
  eauto.
Qed.

Lemma analyzeDocument_kept (fuel : nat) :
  forall (doc : value) (m m' : MongoAnalyzer.FieldMap) (prefix : jsstring),
    MongoAnalyzer.analyzeDocument fuel doc m prefix = Returned m' -> R m m'.
Proof.
  induction fuel as [|fuel IH]; intros doc m m' prefix; simpl; [discriminate|].
  apply (forEach_preserves R); auto.
  intros s x s' _. apply analyzeEntry_kept. intros v a b p. apply IH.
Qed.

Lemma analyzeDocuments_kept (documents : list value) (m m' : MongoAnalyzer.FieldMap) :
  MongoAnalyzer.analyzeDocuments documents m = Returned m' -> R m m'.
Proof.
  apply (forEach_preserves R); auto.
  intros s doc s' _. apply analyzeDocument_kept.
Qed.

End Kept.

(** A loop that returned went through each of its elements; what its body keeps
    holds from there to the end. *)
Lemma forEach_visit {A S : Type} (R : S -> S -> Prop) (body : S -> A -> outcome S)
  (l : list A) :
  (forall s, R s s) -> (forall a b c, R a b -> R b c -> R a c) ->
  (forall s x s', body s x = Returned s' -> R s s') ->
  forall s s' x, forEach body l s = Returned s' -> In x l ->
  exists s1 s2, R s s1 /\ body s1 x = Returned s2 /\ R s2 s'.
Proof.
  intros Hrefl Htrans Hbody. induction l as [|y l IH]; intros s s' x H Hin; [destruct Hin|].
  simpl in H. apply bind_Returned in H. destruct H as (s1 & H1 & H2).
  destruct Hin as [-> | Hin].
  - exists s, s1. split; [apply Hrefl|]. split; [exact H1|].
    apply (forEach_preserves R body l Hrefl Htrans); [|exact H2].
    intros t z t' _. apply Hbody.
  - destruct (IH s1 s' x H2 Hin) as (t1 & t2 & Ha & Hb & Hc).
    exists t1, t2. repeat split; auto. apply Htrans with s1; eauto.
Qed.

(** ** analyzeDocument: fields are only ever added, at the end *)

Definition grows (before after : MongoAnalyzer.FieldMap) : Prop :=
  exists more, JsMap.keys after = JsMap.keys before ++ more.

Lemma grows_refl (m : MongoAnalyzer.FieldMap) : grows m m.
Proof. exists []. rewrite app_nil_r. reflexivity. Qed.

Lemma grows_trans (a b c : MongoAnalyzer.FieldMap) : grows a b -> grows b c -> grows a c.
Proof.
  intros [m1 H1] [m2 H2]. exists (m1 ++ m2). rewrite H2, H1, app_assoc. reflexivity.
Qed.

Lemma grows_set (m : MongoAnalyzer.FieldMap) (name : jsstring) (f : FieldSchema) :
  grows m (JsMap.set m name f).
Proof.
  unfold grows. destruct (in_dec jsstring_eq_dec name (JsMap.keys m)) as [Hin|Hn].
  - rewrite (map_keys_set_present m name f Hin). exists []. rewrite app_nil_r. reflexivity.
  - exists [name]. apply map_keys_set_absent; assumption.
Qed.

Lemma grows_setType (m : MongoAnalyzer.FieldMap) (name : jsstring) (t : MongoFieldType) :
  grows m (MongoAnalyzer.setType m name t).
Proof.
  unfold MongoAnalyzer.setType. destruct (JsMap.get m name); [apply grows_set | apply grows_refl].
Qed.

Lemma grows_setIsArray (m : MongoAnalyzer.FieldMap) (name : jsstring) :
  grows m (MongoAnalyzer.setIsArray m name).
Proof.
  unfold MongoAnalyzer.setIsArray.
  destruct (JsMap.get m name); [apply grows_set | apply grows_refl].
Qed.

Lemma grows_register (m : MongoAnalyzer.FieldMap) (name : jsstring) (v : value)
  (m' : MongoAnalyzer.FieldMap) :
  MongoAnalyzer.register m name v = Returned m' -> grows m m'.
Proof.
  intros H. apply register_cases in H.
  destruct H as [(_ & ->) | (_ & t & _ & ->)]; [apply grows_refl | apply grows_set].
Qed.

Lemma grows_promote (m : MongoAnalyzer.FieldMap) (name : jsstring) (v : value)
  (m' : MongoAnalyzer.FieldMap) :
  MongoAnalyzer.promote m name v = Returned m' -> grows m m'.
Proof.
  intros H. apply promote_cases in H.
  destruct H as [-> | (t & f & _ & _ & _ & ->)]; [apply grows_refl | apply grows_setType].
Qed.

Lemma grows_has (a b : MongoAnalyzer.FieldMap) (name : jsstring) :
  grows a b -> JsMap.has a name = true -> JsMap.has b name = true.
Proof.
  intros [more H] Ha. apply map_has_In. rewrite H. apply in_or_app. left.
  apply map_has_In; assumption.
Qed.

(** X14: analysing documents never removes a field from the field map and
    never moves one: the names the map had come first, in the order they had,
    and the names met for the first time follow them.  The schema therefore
    lists the fields in the order in which they were first seen. *)
Theorem analyzeDocuments_appends_fields (documents : list value)
  (fieldMap fieldMap' : MongoAnalyzer.FieldMap) :
  MongoAnalyzer.analyzeDocuments documents fieldMap = Returned fieldMap' ->
  exists added, JsMap.keys fieldMap' = JsMap.keys fieldMap ++ added.
Proof.
  apply (analyzeDocuments_kept grows).
  - apply grows_refl.
  - apply grows_trans.
  - apply grows_register.
  - apply grows_promote.
  - apply grows_setIsArray.
Qed.

Lemma analyzeDocuments_appends_fields_witness :
  exists added,
    JsMap.keys
      (match MongoAnalyzer.analyzeDocuments
               [VObject [(js "b", VNumber 1); (js "a", VNumber 2)];
                VObject [(js "c", VNull); (js "a", VNull)]]
               JsMap.empty
       with Returned m => m | _ => [] end)
    = JsMap.keys (@JsMap.empty FieldSchema) ++ added /\
    added = [js "b"; js "a"; js "c"].
Proof.
  destruct (analyzeDocuments_appends_fields
              [VObject [(js "b", VNumber 1); (js "a", VNumber 2)];
               VObject [(js "c", VNull); (js "a", VNull)]]
              JsMap.empty
              (match MongoAnalyzer.analyzeDocuments
                       [VObject [(js "b", VNumber 1); (js "a", VNumber 2)];
                        VObject [(js "c", VNull); (js "a", VNull)]]
                       JsMap.empty
               with Returned m => m | _ => [] end) eq_refl) as [added H].
  exists added. split; [exact H|]. simpl in H. rewrite <- H. reflexivity.
Defined.

(** ** analyzeDocument: the descriptors it builds *)

Lemma inferTypeFromValue_not_binary (v : value) (t : MongoFieldType) :
  Infer.inferTypeFromValue v = Returned t -> t <> TBinary.
Proof.
  destruct v; simpl; try (intros [= <-]; discriminate).
  - destruct (JsMap.get entries (js "toString")); [discriminate|].
    destruct (Infer.isObjectIdText _); intros [= <-]; discriminate.
  - destruct (Infer.isObjectIdText _); intros [= <-]; discriminate.
Qed.

Lemma map_set_In {V : Type} (m : JsMap.t V) (k k' : jsstring) (v v' : V) :
  In (k', v') (JsMap.set m k v) -> (k' = k /\ v' = v) \/ In (k', v') m.
Proof.
  induction m as [|[k0 v0] m IH]; simpl.
  - intros [[= <- <-] | []]. auto.
  - destruct (jsstring_eqb k k0) eqn:E; simpl.
    + apply jsstring_eqb_eq in E. subst k0.
      intros [[= <- <-] | H]; auto.
    + intros [H | H]; [auto | destruct (IH H); auto].
Qed.

Lemma map_set_NoDup {V : Type} (m : JsMap.t V) (k : jsstring) (v : V) :
  NoDup (JsMap.keys m) -> NoDup (JsMap.keys (JsMap.set m k v)).
Proof.
  intros Hnd. destruct (in_dec jsstring_eq_dec k (JsMap.keys m)) as [Hin|Hn].
  - rewrite map_keys_set_present; assumption.
  - rewrite map_keys_set_absent by assumption.
    apply NoDup_app; [assumption | repeat constructor; simpl; tauto |].
    intros y Hy [<- | []]; contradiction.
Qed.

Lemma map_get_In_pair {V : Type} (m : JsMap.t V) (k : jsstring) (v : V) :
  JsMap.get m k = Some v -> In (k, v) m.
Proof.
  induction m as [|[k0 v0] m IH]; simpl; [discriminate|].
  destruct (jsstring_eqb k k0) eqn:E.
  - apply jsstring_eqb_eq in E. subst k0. intros [= <-]. auto.
  - auto.
Qed.

(** A field map as [analyzeDocument] builds it: one descriptor per name, which
    carries that name, is not marked required and has no binary type. *)
Definition wellFormed (m : MongoAnalyzer.FieldMap) : Prop :=
  NoDup (JsMap.keys m) /\
  forall k f, In (k, f) m ->
    fieldName f = k /\ isRequired f = false /\ fieldType f <> TBinary.

Lemma wellFormed_set (m : MongoAnalyzer.FieldMap) (k : jsstring) (f : FieldSchema) :
  wellFormed m -> fieldName f = k -> isRequired f = false -> fieldType f <> TBinary ->
  wellFormed (JsMap.set m k f).
Proof.
  intros (Hnd & Hall) H1 H2 H3. split; [apply map_set_NoDup; assumption|].
  intros k' f' Hin. apply map_set_In in Hin.
  destruct Hin as [(-> & ->) | Hin]; auto.
Qed.

Lemma wellFormed_register (m : MongoAnalyzer.FieldMap) (name : jsstring) (v : value)
  (m' : MongoAnalyzer.FieldMap) :
  MongoAnalyzer.register m name v = Returned m' -> wellFormed m -> wellFormed m'.
Proof.
  intros H Hwf. apply register_cases in H.
  destruct H as [(_ & ->) | (_ & t & Ht & ->)]; [assumption|].
  apply wellFormed_set; auto. simpl. eapply inferTypeFromValue_not_binary; eassumption.
Qed.

Lemma wellFormed_setType (m : MongoAnalyzer.FieldMap) (name : jsstring)
  (t : MongoFieldType) :
  t <> TBinary -> wellFormed m -> wellFormed (MongoAnalyzer.setType m name t).
Proof.
  intros Ht Hwf. unfold MongoAnalyzer.setType.
  destruct (JsMap.get m name) as [f|] eqn:E; [|assumption].
  apply map_get_In_pair in E. destruct (proj2 Hwf _ _ E) as (H1 & H2 & _).
  apply wellFormed_set; auto.
Qed.

Lemma wellFormed_promote (m : MongoAnalyzer.FieldMap) (name : jsstring) (v : value)
  (m' : MongoAnalyzer.FieldMap) :
  MongoAnalyzer.promote m name v = Returned m' -> wellFormed m -> wellFormed m'.
Proof.
  intros H Hwf. apply promote_cases in H.
  destruct H as [-> | (t & f & Ht & _ & _ & ->)]; [assumption|].
  apply wellFormed_setType; [|assumption].
  eapply inferTypeFromValue_not_binary; eassumption.
Qed.

Lemma wellFormed_setIsArray (m : MongoAnalyzer.FieldMap) (name : jsstring) :
  wellFormed m -> wellFormed (MongoAnalyzer.setIsArray m name).
Proof.
  intros Hwf. unfold MongoAnalyzer.setIsArray.
  destruct (JsMap.get m name) as [f|] eqn:E; [|assumption].
  apply map_get_In_pair in E. destruct (proj2 Hwf _ _ E) as (H1 & H2 & H3).
  apply wellFormed_set; auto.
Qed.

Lemma analyzeDocuments_wellFormed (documents : list value)
  (m m' : MongoAnalyzer.FieldMap) :
  MongoAnalyzer.analyzeDocuments documents m = Returned m' ->
  wellFormed m -> wellFormed m'.
Proof.
  apply (analyzeDocuments_kept (fun a b => wellFormed a -> wellFormed b)).
  - auto.
  - auto.
  - apply wellFormed_register.
  - apply wellFormed_promote.
  - intros a name. apply wellFormed_setIsArray.
Qed.

Lemma wellFormed_names (m : MongoAnalyzer.FieldMap) :
  wellFormed m -> map fieldName (JsMap.values m) = JsMap.keys m.
Proof.
  intros (_ & Hall). unfold JsMap.values, JsMap.keys. rewrite map_map.
  apply map_ext_in. intros [k f] Hin. simpl. apply (Hall k f Hin).
Qed.

Lemma columnType_not_bytea (t : MongoFieldType) (array : bool) :
  t <> TBinary -> Types.mapMongoTypeToPostgres t array <> BYTEA.
Proof. destruct t, array; simpl; intros H; try discriminate. congruence. Qed.

Lemma bindM_inv {S A B : Type} (m : M S A) (k : A -> M S B) (st st' : S) (b : B) :
  bindM m k st = (Returned b, st') ->
  exists a st1, m st = (Returned a, st1) /\ k a st1 = (Returned b, st').
Proof.
  unfold bindM. destruct (m st) as [[a|e|] st1]; try discriminate.
  intros H. exists a, st1. auto.
Qed.

(** X15: the schema [analyzeCollection] returns for a collection carries the
    collection's name; its fields have distinct names; no field is marked
    required and none has the binary type, so that [createTableFromSchema]
    declares every column [NULL] and none [BYTEA]; the index named [_id_] is
    left out; and a schema without [indexes] (the one returned for an empty
    sample) has no fields either. *)
Theorem analyzeCollection_schema (env : Env) (name : jsstring)
  (st st' : Engine.state env) (schema : CollectionSchema) :
  Engine.analyzeCollection env name st = (Returned schema, st') ->
  collectionName schema = name /\
  NoDup (map fieldName (fields schema)) /\
  Forall (fun f => isRequired f = false /\ fieldType f <> TBinary /\
                   Types.mapMongoTypeToPostgres (fieldType f) (isArray f) <> BYTEA)
    (fields schema) /\
  match indexes schema with
  | Some l => Forall (fun idx => indexName idx <> Some (js "_id_")) l
  | None => fields schema = []
  end.
Proof.
  unfold Engine.analyzeCollection. intros H.
  apply bindM_inv in H. destruct H as ([] & st1 & _ & H).
  apply bindM_inv in H. destruct H as (documents & st2 & _ & H).
  destruct documents as [|doc documents].
  - injection H as <- _. simpl. repeat split; constructor.
  - apply bindM_inv in H. destruct H as (fieldMap & st3 & Hmap & H).
    apply bindM_inv in H. destruct H as (idxs & st4 & _ & H).
    injection H as <- _. cbn [collectionName fields indexes].
    unfold lift in Hmap. injection Hmap as Hmap _.
    assert (Hwf : wellFormed fieldMap).
    { apply (analyzeDocuments_wellFormed _ _ _ Hmap). split; [constructor | intros k f []]. }
    split; [reflexivity|]. split; [|split].
    + rewrite (wellFormed_names fieldMap Hwf). apply Hwf.
    + apply Forall_forall. intros f Hf. unfold JsMap.values in Hf.
      apply in_map_iff in Hf. destruct Hf as ([k f'] & <- & Hin). simpl.
      destruct (proj2 Hwf k f' Hin) as (_ & H2 & H3).
      repeat split; auto using columnType_not_bytea.
    + apply Forall_forall. intros idx Hidx. apply in_map_iff in Hidx.
      destruct Hidx as (info & <- & Hinfo). apply filter_In in Hinfo.
      destruct Hinfo as (_ & Hne). apply negb_true_iff, jsstring_eqb_neq in Hne.
      simpl. congruence.
Qed.

Definition sampledSchema : CollectionSchema :=
  {| collectionName := js "users";
     fields := [ {| fieldName := js "_id"; fieldType := TObjectId;
                    isRequired := false; isArray := false |};
                 {| fieldName := js "name"; fieldType := TString;
                    isRequired := false; isArray := false |} ];
     indexes := Some [] |}.

Lemma analyzeCollection_schema_witness :
  collectionName sampledSchema = js "users" /\
  NoDup (map fieldName (fields sampledSchema)) /\
  Forall (fun f => isRequired f = false /\ fieldType f <> TBinary /\
                   Types.mapMongoTypeToPostgres (fieldType f) (isArray f) <> BYTEA)
    (fields sampledSchema) /\
  match indexes sampledSchema with
  | Some l => Forall (fun idx => indexName idx <> Some (js "_id_")) l
  | None => fields sampledSchema = []
  end.
Proof.
  apply (analyzeCollection_schema advised (js "users") connectedEngine
           (snd (Engine.analyzeCollection advised (js "users") connectedEngine))
           sampledSchema).
  vm_compute. reflexivity.
Defined.

(** ** analyzeDocument: every field of a document is registered *)

(** The names [analyzeDocument] comes across in a document: the name of each
    entry, and the names met in the sub-documents and in the first element of
    the arrays it walks into. *)
Inductive reaches : value -> jsstring -> jsstring -> Prop :=
| reaches_entry (doc : value) (prefix key : jsstring) (v : value) :
    In (key, v) (entriesOf doc) ->
    reaches doc prefix (MongoAnalyzer.fieldNameOf prefix key)
| reaches_nested (doc : value) (prefix key : jsstring) (v : value) (name : jsstring) :
    In (key, v) (entriesOf doc) ->
    isObject v && negb (isArrayValue v) && negb (isDate v) = true ->
    reaches v (MongoAnalyzer.fieldNameOf prefix key) name ->
    reaches doc prefix name
| reaches_item (doc : value) (prefix key : jsstring) (firstItem : value)
    (items : list value) (name : jsstring) :
    In (key, VArray (firstItem :: items)) (entriesOf doc) ->
    isObject firstItem && negb (isDate firstItem) = true ->
    reaches firstItem (MongoAnalyzer.fieldNameOf prefix key) name ->
    reaches doc prefix name.

Lemma register_has (m m' : MongoAnalyzer.FieldMap) (name : jsstring) (v : value) :
  MongoAnalyzer.register m name v = Returned m' -> JsMap.has m' name = true.
Proof.
  intros H. apply register_cases in H.
  destruct H as [(Hhas & ->) | (_ & t & _ & ->)]; [assumption|].
  unfold JsMap.has. rewrite map_get_set_same. reflexivity.
Qed.

Lemma analyzeDocument_grows (fuel : nat) (doc : value) (m m' : MongoAnalyzer.FieldMap)
  (prefix : jsstring) :
  MongoAnalyzer.analyzeDocument fuel doc m prefix = Returned m' -> grows m m'.
Proof.
  apply (analyzeDocument_kept grows); auto using grows_refl, grows_setIsArray.
  - apply grows_trans.
  - apply grows_register.
  - apply grows_promote.
Qed.

Lemma analyzeEntry_grows (fuel : nat) (prefix : jsstring) (m m' : MongoAnalyzer.FieldMap)
  (entry : jsstring * value) :
  MongoAnalyzer.analyzeEntry (MongoAnalyzer.analyzeDocument fuel) prefix m entry
  = Returned m' -> grows m m'.
Proof.
  apply (analyzeEntry_kept grows); auto using grows_refl, grows_setIsArray.
  - apply grows_trans.
  - apply grows_register.
  - apply grows_promote.
  - intros v a b p. apply analyzeDocument_grows.
Qed.

(** The steps of the loop body, taken apart. *)
Lemma analyzeEntry_steps
  (recur : value -> MongoAnalyzer.FieldMap -> jsstring -> outcome MongoAnalyzer.FieldMap)
  (prefix key : jsstring) (v : value) (m m' : MongoAnalyzer.FieldMap) :
  MongoAnalyzer.analyzeEntry recur prefix m (key, v) = Returned m' ->
  let name := MongoAnalyzer.fieldNameOf prefix key in
  exists a1 a2 a3,
    MongoAnalyzer.register m name v = Returned a1 /\
    MongoAnalyzer.promote a1 name v = Returned a2 /\
    (if isObject v && negb (isArrayValue v) && negb (isDate v)
     then recur v a2 name else Returned a2) = Returned a3 /\
    match v with
    | VArray (firstItem :: _) =>
        if isObject firstItem && negb (isDate firstItem)
        then recur firstItem (MongoAnalyzer.setIsArray a3 name) name
        else Returned (MongoAnalyzer.setIsArray a3 name)
    | _ => Returned a3
    end = Returned m'.
Proof.
  unfold MongoAnalyzer.analyzeEntry. cbv zeta. intros H.
  apply bind_Returned in H. destruct H as (a1 & H1 & H).
  apply bind_Returned in H. destruct H as (a2 & H2 & H).
  apply bind_Returned in H. destruct H as (a3 & H3 & H).
  exists a1, a2, a3. auto.
Qed.

(** X16: when the analysis of a document returns, the field map has a
    descriptor for every name the analysis came across: for each entry of the
    document, and, under the dotted name, for each entry of the sub-documents
    and of the first element of each array of documents. *)
Theorem analyzeDocument_registers (doc : value) (prefix name : jsstring) :
  reaches doc prefix name ->
  forall (fuel : nat) (fieldMap fieldMap' : MongoAnalyzer.FieldMap),
    MongoAnalyzer.analyzeDocument fuel doc fieldMap prefix = Returned fieldMap' ->
    JsMap.has fieldMap' name = true.
Proof.
  induction 1 as [doc prefix key v Hin
                 | doc prefix key v name Hin Hcond _ IH
                 | doc prefix key firstItem items name Hin Hcond _ IH];
    intros fuel m m' Hrun; (destruct fuel as [|fuel]; [discriminate|]); simpl in Hrun.
  - destruct (forEach_visit grows _ _ grows_refl grows_trans
                (fun s x s' => analyzeEntry_grows fuel prefix s s' x)
                _ _ _ Hrun Hin) as (s1 & s2 & _ & Hbody & Hrest).
    destruct (analyzeEntry_steps _ _ _ _ _ _ Hbody) as (a1 & a2 & a3 & H1 & H2 & H3 & H4).
    apply (grows_has s2 m'); [assumption|].
    assert (Hsame : grows a1 s2).
    { apply grows_trans with a2; [eapply grows_promote; eassumption|].
      apply grows_trans with a3.
      - destruct (isObject v && negb (isArrayValue v) && negb (isDate v));
          [eapply analyzeDocument_grows; eassumption | injection H3 as <-; apply grows_refl].
      - destruct v as [| | | | | |[|firstItem items]| | |];
          try (injection H4 as <-; apply grows_refl).
        apply grows_trans with (MongoAnalyzer.setIsArray a3 (MongoAnalyzer.fieldNameOf prefix key));
          [apply grows_setIsArray|].
        destruct (isObject firstItem && negb (isDate firstItem));
          [eapply analyzeDocument_grows; eassumption | injection H4 as <-; apply grows_refl]. }
    apply (grows_has a1 s2 _ Hsame). eapply register_has; eassumption.
  - destruct (forEach_visit grows _ _ grows_refl grows_trans
                (fun s x s' => analyzeEntry_grows fuel prefix s s' x)
                _ _ _ Hrun Hin) as (s1 & s2 & _ & Hbody & Hrest).
    destruct (analyzeEntry_steps _ _ _ _ _ _ Hbody) as (a1 & a2 & a3 & H1 & H2 & H3 & H4).
    rewrite Hcond in H3. apply IH in H3.
    apply (grows_has s2 m'); [assumption|].
    apply (grows_has a3 s2); [|assumption].
    destruct v as [| | | | | |[|firstItem items]| | |];
      try (injection H4 as <-; apply grows_refl); discriminate.
  - destruct (forEach_visit grows _ _ grows_refl grows_trans
                (fun s x s' => analyzeEntry_grows fuel prefix s s' x)
                _ _ _ Hrun Hin) as (s1 & s2 & _ & Hbody & Hrest).
    destruct (analyzeEntry_steps _ _ _ _ _ _ Hbody) as (a1 & a2 & a3 & H1 & H2 & H3 & H4).
    rewrite Hcond in H4. apply IH in H4.
    apply (grows_has s2 m'); assumption.
Qed.

Lemma analyzeDocument_registers_witness :
  JsMap.has
    (match MongoAnalyzer.analyzeDocument 2
             (VObject [(js "address", VObject [(js "city", VString (js "Oslo"))])])
             JsMap.empty []
     with Returned m => m | _ => [] end)
    (js "address.city") = true.
Proof.
  apply (analyzeDocument_registers
           (VObject [(js "address", VObject [(js "city", VString (js "Oslo"))])])
           [] (js "address.city")) with (fuel := 2) (fieldMap := JsMap.empty);
    [|reflexivity].
  apply (reaches_nested _ [] (js "address") (VObject [(js "city", VString (js "Oslo"))]));
    [left; reflexivity | reflexivity |].
  apply (reaches_entry _ (js "address") (js "city") (VString (js "Oslo"))).
  left; reflexivity.
Defined.

(** ** analyzeDocument: arrays *)

Definition keeps_arrays (before after : MongoAnalyzer.FieldMap) : Prop :=
  forall name field,
    JsMap.get before name = Some field -> isArray field = true ->
    exists field', JsMap.get after name = Some field' /\ isArray field' = true.

Lemma keeps_arrays_refl (m : MongoAnalyzer.FieldMap) : keeps_arrays m m.
Proof. intros name f H Ha. exists f; auto. Qed.

Lemma keeps_arrays_trans (a b c : MongoAnalyzer.FieldMap) :
  keeps_arrays a b -> keeps_arrays b c -> keeps_arrays a c.
Proof.
  intros Hab Hbc name f H Ha.
  destruct (Hab name f H Ha) as (f1 & H1 & A1). apply (Hbc name f1 H1 A1).
Qed.

Lemma keeps_arrays_set (m : MongoAnalyzer.FieldMap) (name : jsstring) (f : FieldSchema) :
  (forall f0, JsMap.get m name = Some f0 -> isArray f0 = true -> isArray f = true) ->
  keeps_arrays m (JsMap.set m name f).
Proof.
  intros Hf n f0 Hn Ha. destruct (jsstring_eq_dec name n) as [<- | Hne].
  - rewrite map_get_set_same. exists f. split; [reflexivity | eauto].
  - rewrite map_get_set_other by assumption. exists f0; auto.
Qed.

Lemma keeps_arrays_register (m : MongoAnalyzer.FieldMap) (name : jsstring) (v : value)
  (m' : MongoAnalyzer.FieldMap) :
  MongoAnalyzer.register m name v = Returned m' -> keeps_arrays m m'.
Proof.
  intros H. apply register_cases in H.
  destruct H as [(_ & ->) | (Hhas & t & _ & ->)]; [apply keeps_arrays_refl|].
  apply keeps_arrays_set. intros f0 Hget. unfold JsMap.has in Hhas.
  rewrite Hget in Hhas. discriminate.
Qed.

Lemma keeps_arrays_setType (m : MongoAnalyzer.FieldMap) (name : jsstring)
  (t : MongoFieldType) : keeps_arrays m (MongoAnalyzer.setType m name t).
Proof.
  unfold MongoAnalyzer.setType. destruct (JsMap.get m name) as [f|] eqn:E;
    [|apply keeps_arrays_refl].
  apply keeps_arrays_set. intros f0 Hget. simpl. congruence.
Qed.

Lemma keeps_arrays_promote (m : MongoAnalyzer.FieldMap) (name : jsstring) (v : value)
  (m' : MongoAnalyzer.FieldMap) :
  MongoAnalyzer.promote m name v = Returned m' -> keeps_arrays m m'.
Proof.
  intros H. apply promote_cases in H.
  destruct H as [-> | (t & f & _ & _ & _ & ->)];
    [apply keeps_arrays_refl | apply keeps_arrays_setType].
Qed.

Lemma keeps_arrays_setIsArray (m : MongoAnalyzer.FieldMap) (name : jsstring) :
  keeps_arrays m (MongoAnalyzer.setIsArray m name).
Proof.
  unfold MongoAnalyzer.setIsArray. destruct (JsMap.get m name) as [f|] eqn:E;
    [|apply keeps_arrays_refl].
  apply keeps_arrays_set. reflexivity.
Qed.

Lemma analyzeDocument_keeps_arrays (fuel : nat) (doc : value)
  (m m' : MongoAnalyzer.FieldMap) (prefix : jsstring) :
  MongoAnalyzer.analyzeDocument fuel doc m prefix = Returned m' -> keeps_arrays m m'.
Proof.
  apply (analyzeDocument_kept keeps_arrays);
    auto using keeps_arrays_refl, keeps_arrays_setIsArray.
  - apply keeps_arrays_trans.
  - apply keeps_arrays_register.
  - apply keeps_arrays_promote.
Qed.

Lemma analyzeEntry_keeps_arrays (fuel : nat) (prefix : jsstring)
  (m m' : MongoAnalyzer.FieldMap) (entry : jsstring * value) :
  MongoAnalyzer.analyzeEntry (MongoAnalyzer.analyzeDocument fuel) prefix m entry
  = Returned m' -> keeps_arrays m m'.
Proof.
  apply (analyzeEntry_kept keeps_arrays);
    auto using keeps_arrays_refl, keeps_arrays_setIsArray.
  - apply keeps_arrays_trans.
  - apply keeps_arrays_register.
  - apply keeps_arrays_promote.
  - intros v a b p. apply analyzeDocument_keeps_arrays.
Qed.

(** X17: a field that holds a non-empty array in one of the analysed
    documents is marked [isArray] in the field map, whatever the other
    documents hold for it and whatever type was recorded for it first; its
    column is therefore declared [JSONB]. *)
Theorem analyzeDocuments_array_field (documents : list value)
  (fieldMap fieldMap' : MongoAnalyzer.FieldMap) (doc : value) (key : jsstring)
  (firstItem : value) (items : list value) :
  MongoAnalyzer.analyzeDocuments documents fieldMap = Returned fieldMap' ->
  In doc documents -> In (key, VArray (firstItem :: items)) (entriesOf doc) ->
  exists field,
    JsMap.get fieldMap' key = Some field /\ isArray field = true /\
    Types.mapMongoTypeToPostgres (fieldType field) (isArray field) = JSONB.
Proof.
  intros Hrun Hdoc Hentry. unfold MongoAnalyzer.analyzeDocuments in Hrun.
  destruct (forEach_visit keeps_arrays _ _ keeps_arrays_refl keeps_arrays_trans
              (fun s x s' => analyzeDocument_keeps_arrays (S (depth x)) x s s' [])
              _ _ _ Hrun Hdoc) as (s1 & s2 & _ & Hbody & Hrest).
  simpl in Hbody.
  destruct (forEach_visit keeps_arrays _ _ keeps_arrays_refl keeps_arrays_trans
              (fun s x s' => analyzeEntry_keeps_arrays (depth doc) [] s s' x)
              _ _ _ Hbody Hentry) as (t1 & t2 & _ & Hstep & Hafter).
  destruct (analyzeEntry_steps _ _ _ _ _ _ Hstep) as (a1 & a2 & a3 & H1 & H2 & H3 & H4).
  simpl MongoAnalyzer.fieldNameOf in *. simpl in H3.
  injection H3 as <-.
  assert (Hhas : JsMap.has a2 key = true).
  { apply (grows_has a1 a2); [eapply grows_promote; eassumption|].
    eapply register_has; eassumption. }
  unfold JsMap.has in Hhas. destruct (JsMap.get a2 key) as [f0|] eqn:Eget; [|discriminate].
  assert (Hset : exists f1, JsMap.get (MongoAnalyzer.setIsArray a2 key) key = Some f1 /\
                            isArray f1 = true).
  { unfold MongoAnalyzer.setIsArray. rewrite Eget, map_get_set_same.
    eexists; split; reflexivity. }
  destruct Hset as (f1 & Hf1 & Ha1).
  assert (Ht2 : exists f2, JsMap.get t2 key = Some f2 /\ isArray f2 = true).
  { destruct (isObject firstItem && negb (isDate firstItem)).
    - apply (analyzeDocument_keeps_arrays _ _ _ _ _ H4 key f1 Hf1 Ha1).
    - injection H4 as <-. exists f1; auto. }
  destruct Ht2 as (f2 & Hf2 & Ha2).
  destruct (Hafter key f2 Hf2 Ha2) as (f3 & Hf3 & Ha3).
  destruct (Hrest key f3 Hf3 Ha3) as (f4 & Hf4 & Ha4).
  exists f4. repeat split; auto. rewrite Ha4. destruct (fieldType f4); reflexivity.
Qed.

Lemma analyzeDocuments_array_field_witness :
  exists field,
    JsMap.get
      (match MongoAnalyzer.analyzeDocuments
               [VObject [(js "tags", VString (js "none"))];
                VObject [(js "tags", VArray [VString (js "a")])]]
               JsMap.empty
       with Returned m => m | _ => [] end) (js "tags") = Some field /\
    isArray field = true /\
    Types.mapMongoTypeToPostgres (fieldType field) (isArray field) = JSONB.
Proof.
  apply (analyzeDocuments_array_field
           [VObject [(js "tags", VString (js "none"))];
            VObject [(js "tags", VArray [VString (js "a")])]]
           JsMap.empty _ (VObject [(js "tags", VArray [VString (js "a")])])
           (js "tags") (VString (js "a")) []).
  - reflexivity.
  - right; left; reflexivity.
  - left; reflexivity.
Defined.

(** ** The calls a run can make *)

(** A statement that changes the schema of the destination: the
    [CREATE TABLE] of [createTableFromSchema] and the statements of a script
    run by [executeDDL]. *)
Definition isDDL {cell : Type} (c : call cell) : bool :=
  match c with
  | QueryCreateTable _ _ | QueryStatement _ => true
  | _ => false
  end.

(** A request to the advisor's API. *)
Definition isAdvisorCall {cell : Type} (c : call cell) : bool :=
  match c with
  | AiInterpretSchema _ | AiSuggestColumnMapping _ _
  | AiSuggestDataTransformation _ _ | AiAnalyzeRelationships _ => true
  | _ => false
  end.

(** A call to the destination store. *)
Definition isPostgresCall {cell : Type} (c : call cell) : bool :=
  match c with
  | NewPgClient _ | PgConnect | PgEnd | QueryTableExists _ | QueryColumns _
  | QueryPrimaryKey _ | QueryCreateTable _ _ | QueryInsert _ _ _ _
  | QueryStatement _ => true
  | _ => false
  end.

Section Safety.

Variable env : Env.

(** The calls that are let through. *)
Variable allowed : call (cell env) -> bool.

(** What is known of the advisor's client, a field that no method assigns
    after the constructor. *)
Variable advisor : bool -> Prop.

(** From [st] to [st'] only allowed calls were made, and the advisor's client
    is the same. *)
Definition only_allowed (st st' : Engine.state env) : Prop :=
  Engine.openai env st' = Engine.openai env st /\
  exists new, Engine.history env st' = Engine.history env st ++ new /\
              Forall (fun c => allowed c = true) new.

Definition safe_at {A : Type} (m : M (Engine.state env) A) (st : Engine.state env)
  : Prop :=
  advisor (Engine.openai env st) -> only_allowed st (snd (m st)).

(** A computation that makes only allowed calls, however it ends. *)
Definition safe {A : Type} (m : M (Engine.state env) A) : Prop :=
  forall st, safe_at m st.

Lemma only_allowed_refl (st : Engine.state env) : only_allowed st st.
Proof.
  split; [reflexivity|]. exists []. rewrite app_nil_r. split; [reflexivity | constructor].
Qed.

Lemma only_allowed_trans (a b c : Engine.state env) :
  only_allowed a b -> only_allowed b c -> only_allowed a c.
Proof.
  intros (A1 & n1 & A2 & A3) (B1 & n2 & B2 & B3). split; [congruence|].
  exists (n1 ++ n2). rewrite B2, A2, app_assoc. split; [reflexivity|].
  apply Forall_app; auto.
Qed.

Lemma safe_at_of_safe {A : Type} (m : M (Engine.state env) A) (st : Engine.state env) :
  safe m -> safe_at m st.
Proof. intros H. apply H. Qed.

Lemma safe_ret {A : Type} (a : A) : safe (ret a).
Proof. intros st _. apply only_allowed_refl. Qed.

Lemma safe_throw {A : Type} (e : jsError) : safe (@throw (Engine.state env) A e).
Proof. intros st _. apply only_allowed_refl. Qed.

Lemma safe_lift {A : Type} (o : outcome A) : safe (@lift (Engine.state env) A o).
Proof. intros st _. apply only_allowed_refl. Qed.

Lemma safe_get : safe (@get (Engine.state env)).
Proof. intros st _. apply only_allowed_refl. Qed.

Lemma safe_clock : safe (Engine.clock env).
Proof. intros st _. apply only_allowed_refl. Qed.

Lemma safe_modify (f : Engine.state env -> Engine.state env) :
  (forall st, Engine.openai env (f st) = Engine.openai env st) ->
  (forall st, Engine.history env (f st) = Engine.history env st) ->
  safe (modify f).
Proof.
  intros Ho Hh st _. split; [apply Ho|]. exists []. simpl.
  rewrite Hh, app_nil_r. split; [reflexivity | constructor].
Qed.

Lemma safe_perform (c : call (cell env)) : allowed c = true -> safe (Engine.perform env c).
Proof.
  intros Hc st _. unfold Engine.perform.
  destruct (world env (Engine.history env st) c); simpl;
    (split; [reflexivity|]; exists [c]; split; [reflexivity | repeat constructor; assumption]).
Qed.

Lemma safe_bind {A B : Type} (m : M (Engine.state env) A)
  (k : A -> M (Engine.state env) B) :
  safe m -> (forall a, safe (k a)) -> safe (bindM m k).
Proof.
  intros Hm Hk st Hadv. unfold bindM. specialize (Hm st Hadv).
  destruct (m st) as [[a|e|] st1]; simpl in *; try assumption.
  apply only_allowed_trans with st1; [assumption|].
  apply Hk. destruct Hm as (-> & _). assumption.
Qed.

Lemma safe_bind_get {B : Type} (k : Engine.state env -> M (Engine.state env) B) :
  (forall st, advisor (Engine.openai env st) -> safe_at (k st) st) ->
  safe (bindM get k).
Proof. intros Hk st Hadv. unfold bindM, get. apply Hk; assumption. Qed.

Lemma safe_tryCatch {A : Type} (m : M (Engine.state env) A)
  (handler : jsError -> M (Engine.state env) A) :
  safe m -> (forall e, safe (handler e)) -> safe (tryCatch m handler).
Proof.
  intros Hm Hh st Hadv. unfold tryCatch. specialize (Hm st Hadv).
  destruct (m st) as [[a|e|] st1]; simpl in *; try assumption.
  apply only_allowed_trans with st1; [assumption|].
  apply Hh. destruct Hm as (-> & _). assumption.
Qed.

Lemma safe_tryFinally {A : Type} (m : M (Engine.state env) A)
  (cleanup : M (Engine.state env) unit) :
  safe m -> safe cleanup -> safe (tryFinally m cleanup).
Proof.
  intros Hm Hc st Hadv. unfold tryFinally. specialize (Hm st Hadv).
  assert (Hclean : only_allowed st (snd (cleanup (snd (m st))))).
  { apply only_allowed_trans with (snd (m st)); [assumption|].
    apply Hc. destruct Hm as (-> & _). assumption. }
  destruct (m st) as [[a|e|] st1]; simpl in *; try assumption;
    destruct (cleanup st1) as [[[]|e'|] st2]; simpl in *; assumption.
Qed.

Lemma safe_forEachM {A : Type} (body : A -> M (Engine.state env) unit) (l : list A) :
  (forall x, safe (body x)) -> safe (forEachM body l).
Proof.
  intros Hbody. induction l as [|x l IH]; simpl.
  - apply safe_ret.
  - apply safe_bind; [apply Hbody | intros _; exact IH].
Qed.

Lemma safe_cells {A : Type} (f : A -> reply (cell env)) (l : list A) :
  safe (Engine.cells env f l).
Proof.
  induction l as [|x l IH]; simpl.
  - apply safe_ret.
  - destruct (f x); [|apply safe_throw].
    apply safe_bind; [exact IH | intros; apply safe_ret].
Qed.

End Safety.

(** The methods without a loop of their own, opened up. *)
Ltac open_methods :=
  progress unfold
    Engine.mongoConnect, Engine.mongoDisconnect, Engine.requireDb, Engine.getCollections,
    Engine.analyzeCollection, Engine.getSingleDocument, Engine.getDocumentCount,
    Engine.getDocuments, Engine.pgConnect, Engine.pgDisconnect, Engine.requireClient,
    Engine.tableExists, Engine.getTableSchema, Engine.createTableFromSchema,
    Engine.insertDocuments, Engine.insertDocumentsWithMapping, Engine.executeDDL,
    Engine.interpretSchema, Engine.suggestColumnMapping, Engine.suggestDataTransformation,
    Engine.analyzeRelationships, Engine.pushError, Engine.recordMigrated,
    Engine.parseDDLForRelationships, Engine.executeDDLScript, Engine.migrateCollection,
    Engine.resolveColumnMappings, Engine.migrateCollectionToExistingTable,
    Engine.migrateExisting.

(** One step of a proof that a computation is [safe]: [allow] proves that a
    call is allowed, [known] uses what is known of the state that [get]
    returned. *)
Ltac safe_step allow known :=
  match goal with
  | |- safe _ _ _ (bindM get _) => apply safe_bind_get; intros ? ?
  | |- safe _ _ _ (bindM _ _) => apply safe_bind; [|intros ?]
  | |- safe _ _ _ (tryCatch _ _) => apply safe_tryCatch; [|intros ?]
  | |- safe _ _ _ (tryFinally _ _) => apply safe_tryFinally
  | |- safe _ _ _ (ret _) => apply safe_ret
  | |- safe _ _ _ (throw _) => apply safe_throw
  | |- safe _ _ _ (lift _) => apply safe_lift
  | |- safe _ _ _ get => apply safe_get
  | |- safe _ _ _ (Engine.clock _) => apply safe_clock
  | |- safe _ _ _ (Engine.perform _ ?c) => refine (safe_perform _ _ _ c _); allow
  | |- safe _ _ _ (Engine.cells _ _ _) => apply safe_cells
  | |- safe _ _ _ (forEachM _ _) => apply safe_forEachM; intros ?
  | |- safe _ _ _ (modify _) => apply safe_modify; intros; reflexivity
  | |- safe_at _ _ _ _ _ => known; apply safe_at_of_safe
  | |- safe _ _ _ (if ?b then _ else _) => destruct b
  | |- safe _ _ _ (match ?x with _ => _ end) => destruct x
  | |- safe _ _ _ (let _ := _ in _) => cbv zeta
  | |- safe _ _ _ _ => open_methods
  end.

Ltac safe_auto allow known := repeat (safe_step allow known).

(** ** Pre-existing tables: the schema of the destination is not touched *)

Section NoDDL.

Variable env : Env.
Variable config : Engine.MigrationConfig.
Hypothesis preExisting : Engine.mode config = Engine.PreExisting.

Let allowed (c : call (cell env)) : bool := negb (isDDL c).
Let advisor (b : bool) : Prop := True.

Lemma noDDL_mappedBatches (schema : CollectionSchema) (mappings : list ColumnMapping)
  (totalDocs : Z) :
  forall fuel skip count,
    safe env allowed advisor
      (Engine.mappedBatches env fuel schema config mappings totalDocs skip count).
Proof.
  induction fuel as [|fuel IH]; intros skip count; simpl;
    destruct (Z.ltb skip totalDocs); try apply safe_ret; [apply safe_lift|].
  safe_auto ltac:(reflexivity) idtac. apply IH.
Qed.

Lemma noDDL_migrate : safe env allowed advisor (Engine.migrate env config).
Proof.
  unfold Engine.migrate, Engine.migrateBody, Engine.migrateWithExistingTables.
  rewrite preExisting.
  safe_auto ltac:(reflexivity) idtac; apply noDDL_mappedBatches.
Qed.

End NoDDL.

(** X18: in pre-existing-tables mode a run never changes the schema of the
    destination, whatever the stores, the file system and the advisor answer:
    it issues no [CREATE TABLE] and runs no statement of a script (a script
    that is configured is only read, for its relationships). *)
Theorem preExisting_issues_no_ddl (env : Env) (config : Engine.MigrationConfig) :
  Engine.mode config = Engine.PreExisting ->
  Forall (fun c => isDDL c = false)
    (Engine.history env
       (snd (Engine.migrate env config (Engine.newEngine env config)))).
Proof.
  intros Hmode.
  destruct (noDDL_migrate env config Hmode (Engine.newEngine env config) I)
    as (_ & new & Hnew & Hall).
  rewrite Hnew. simpl. eapply Forall_impl; [|exact Hall].
  intros c Hc. apply negb_true_iff in Hc. exact Hc.
Qed.

Lemma preExisting_issues_no_ddl_witness :
  Forall (fun c => isDDL c = false)
    (Engine.history (scenario false)
       (snd (Engine.migrate (scenario false) scenarioConfig
               (Engine.newEngine (scenario false) scenarioConfig)))) /\
  existsb isInsert
    (Engine.history (scenario false)
       (snd (Engine.migrate (scenario false) scenarioConfig
               (Engine.newEngine (scenario false) scenarioConfig)))) = true.
Proof.
  split.
  - apply (preExisting_issues_no_ddl (scenario false) scenarioConfig). reflexivity.
  - vm_compute. reflexivity.
Defined.

(** ** Without a key the advisor is never asked *)

(** What a method body learns from [if (!this.openai) return null]. *)
Ltac advisor_off :=
  idtac;
  match goal with
  | H : _ |- safe_at ?env _ _ _ ?st =>
      let E := fresh "E" in
      assert (E : Engine.openai env st = false) by exact H;
      rewrite ?E; cbn [negb orb]
  end.

Section NoAdvisor.

Variable env : Env.
Variable config : Engine.MigrationConfig.

Let allowed (c : call (cell env)) : bool := negb (isAdvisorCall c).
Let advisor (b : bool) : Prop := b = false.

Lemma noAdvisor_mappedBatches (schema : CollectionSchema) (mappings : list ColumnMapping)
  (totalDocs : Z) :
  forall fuel skip count,
    safe env allowed advisor
      (Engine.mappedBatches env fuel schema config mappings totalDocs skip count).
Proof.
  induction fuel as [|fuel IH]; intros skip count; simpl;
    destruct (Z.ltb skip totalDocs); try apply safe_ret; [apply safe_lift|].
  safe_auto ltac:(reflexivity) advisor_off. apply IH.
Qed.

Lemma noAdvisor_autoBatches (schema : CollectionSchema)
  (targetSchema : option PostgresTableSchema) (totalDocs : Z) :
  forall fuel skip count,
    safe env allowed advisor
      (Engine.autoBatches env fuel schema config targetSchema totalDocs skip count).
Proof.
  induction fuel as [|fuel IH]; intros skip count; simpl;
    destruct (Z.ltb skip totalDocs); try apply safe_ret; [apply safe_lift|].
  safe_auto ltac:(reflexivity) advisor_off; apply IH.
Qed.

Lemma noAdvisor_analyzeAll (collections : list jsstring) :
  forall schemas, safe env allowed advisor (Engine.analyzeAll env collections schemas).
Proof.
  induction collections as [|name collections IH]; intros schemas; simpl.
  - apply safe_ret.
  - safe_auto ltac:(reflexivity) advisor_off; apply IH.
Qed.

Lemma noAdvisor_migrate : safe env allowed advisor (Engine.migrate env config).
Proof.
  unfold Engine.migrate, Engine.migrateBody, Engine.migrateWithExistingTables,
    Engine.migrateWithAutoTables.
  safe_auto ltac:(reflexivity) advisor_off;
    first [apply noAdvisor_mappedBatches | apply noAdvisor_autoBatches
          | apply noAdvisor_analyzeAll].
Qed.

End NoAdvisor.

(** X19: an engine built from a configuration without an API key (the key
    missing or the empty string) never sends a request to the advisor during
    a run, in either mode and whatever the stores answer. *)
Theorem migrate_without_key_no_advisor (env : Env) (config : Engine.MigrationConfig) :
  Engine.given (Engine.openAiApiKey config) = false ->
  Forall (fun c => isAdvisorCall c = false)
    (Engine.history env
       (snd (Engine.migrate env config (Engine.newEngine env config)))).
Proof.
  intros Hkey.
  destruct (noAdvisor_migrate env config (Engine.newEngine env config) Hkey)
    as (_ & new & Hnew & Hall).
  rewrite Hnew. simpl. eapply Forall_impl; [|exact Hall].
  intros c Hc. apply negb_true_iff in Hc. exact Hc.
Qed.

Lemma migrate_without_key_no_advisor_witness :
  Forall (fun c => isAdvisorCall c = false)
    (Engine.history (scenario false)
       (snd (Engine.migrate (scenario false) scenarioConfig
               (Engine.newEngine (scenario false) scenarioConfig)))).
Proof.
  apply (migrate_without_key_no_advisor (scenario false) scenarioConfig). reflexivity.
Defined.

(** ** Auto-tables mode: the statements that are sent *)

(** [ON CONFLICT (mongo_id)] goes with a listed column [mongo_id]. *)
Definition conflictOnMongoId (columnNames : list jsstring) (conflictColumn : option jsstring)
  : bool :=
  match conflictColumn with
  | Some column =>
      jsstring_eqb column (js "mongo_id") && includes columnNames (js "mongo_id")
  | None => negb (includes columnNames (js "mongo_id"))
  end.

(** What the engine and the manager compose themselves in auto-tables mode:
    a table is named by a sanitized identifier; a [CREATE TABLE] starts with
    the serial key and the column for the document's [_id]; an [INSERT] does
    not list [id].  A statement of a script is none of these. *)
Definition autoStatement {cell : Type} (c : call cell) : bool :=
  match c with
  | QueryTableExists table | QueryColumns table | QueryPrimaryKey table =>
      isCanonical table
  | QueryCreateTable table columnDefinitions =>
      isCanonical table &&
      match columnDefinitions with
      | first :: second :: _ =>
          jsstring_eqb first (js "id SERIAL PRIMARY KEY") &&
          jsstring_eqb second (js "mongo_id TEXT UNIQUE")
      | _ => false
      end
  | QueryInsert table columnNames _ conflictColumn =>
      isCanonical table && negb (includes columnNames (js "id")) &&
      conflictOnMongoId columnNames conflictColumn
  | QueryStatement _ => false
  | _ => true
  end.

(** A statement of the configured script, which [executeDDL] sends as it
    read it. *)
Definition isScriptStatement {cell : Type} (c : call cell) : bool :=
  match c with QueryStatement _ => true | _ => false end.

Lemma includes_filter_out (l : list jsstring) (x : jsstring) :
  includes (filter (fun name => negb (jsstring_eqb name x)) l) x = false.
Proof.
  unfold includes. induction l as [|y l IH]; simpl; [reflexivity|].
  destruct (jsstring_eqb y x) eqn:E; simpl; [exact IH|].
  rewrite jsstring_eqb_sym, E. exact IH.
Qed.

Ltac auto_statement :=
  idtac;
  first
    [ reflexivity
    | cbn [autoStatement]; rewrite ?sanitizeIdentifier_shape; reflexivity
    | cbn [autoStatement]; rewrite sanitizeIdentifier_shape, includes_filter_out;
      unfold conflictOnMongoId;
      match goal with
      | |- context [if ?b then Some _ else None] => destruct b eqn:E; rewrite ?E; reflexivity
      end ].

Section AutoStatements.

Variable env : Env.
Variable config : Engine.MigrationConfig.
Hypothesis autoTables : Engine.mode config = Engine.AutoTables.

Let advisor (b : bool) : Prop := True.

(** The calls let through: all of them when [script] is set, all but the
    statements of a script otherwise. *)
Variable script : bool.

Let allowed (c : call (cell env)) : bool :=
  autoStatement c || (script && isScriptStatement c).

Hypothesis script_given : Engine.given (Engine.postgresDDL config) = true -> script = true.

Lemma auto_autoBatches (schema : CollectionSchema)
  (targetSchema : option PostgresTableSchema) (totalDocs : Z) :
  forall fuel skip count,
    safe env allowed advisor
      (Engine.autoBatches env fuel schema config targetSchema totalDocs skip count).
Proof.
  induction fuel as [|fuel IH]; intros skip count; simpl;
    destruct (Z.ltb skip totalDocs); try apply safe_ret; [apply safe_lift|].
  safe_auto ltac:(unfold allowed; auto_statement) idtac; apply IH.
Qed.

Lemma auto_analyzeAll (collections : list jsstring) :
  forall schemas, safe env allowed advisor (Engine.analyzeAll env collections schemas).
Proof.
  induction collections as [|name collections IH]; intros schemas; simpl.
  - apply safe_ret.
  - safe_auto ltac:(unfold allowed; auto_statement) idtac; apply IH.
Qed.

Lemma auto_migrate : safe env allowed advisor (Engine.migrate env config).
Proof.
  unfold Engine.migrate, Engine.migrateBody, Engine.migrateWithAutoTables.
  rewrite autoTables.
  destruct (Engine.postgresDDL config) as [[|c path]|];
    try (assert (Hscript : script = true) by (apply script_given; reflexivity));
    safe_auto ltac:(unfold allowed; rewrite ?Hscript; auto_statement) idtac;
    first [apply auto_autoBatches | apply auto_analyzeAll].
Qed.

End AutoStatements.

(** X20: in auto-tables mode every call of a run to the destination is either
    a statement of the configured script, sent as it was read, or one the
    engine composed itself, and those are well formed: every table they
    name -- in a [CREATE TABLE], an [INSERT] or a look-up of a table's
    columns -- is a sanitized identifier; every [CREATE TABLE] starts with
    [id SERIAL PRIMARY KEY] and [mongo_id TEXT UNIQUE]; no [INSERT] lists the
    column [id]; and an [INSERT] has [ON CONFLICT (mongo_id)] exactly when it
    lists [mongo_id].  When no script is configured, no statement of a script
    is sent, so every call of the run is of the second kind. *)
Theorem autoTables_statements (env : Env) (config : Engine.MigrationConfig) :
  Engine.mode config = Engine.AutoTables ->
  Forall (fun c => autoStatement c = true \/ isScriptStatement c = true)
    (Engine.history env
       (snd (Engine.migrate env config (Engine.newEngine env config)))) /\
  (Engine.given (Engine.postgresDDL config) = false ->
   Forall (fun c => autoStatement c = true)
     (Engine.history env
        (snd (Engine.migrate env config (Engine.newEngine env config))))).
Proof.
  intros Hmode. split.
  - destruct (auto_migrate env config Hmode true (fun _ => eq_refl)
                (Engine.newEngine env config) I) as (_ & new & Hnew & Hall).
    rewrite Hnew. simpl. eapply Forall_impl; [|exact Hall].
    intros c Hc. simpl in Hc. apply orb_true_iff in Hc. exact Hc.
  - intros Hnone.
    assert (Hscript : Engine.given (Engine.postgresDDL config) = true -> false = true)
      by (rewrite Hnone; intros H; exact H).
    destruct (auto_migrate env config Hmode false Hscript
                (Engine.newEngine env config) I) as (_ & new & Hnew & Hall).
    rewrite Hnew. simpl. eapply Forall_impl; [|exact Hall].
    intros c Hc. simpl in Hc. rewrite orb_false_r in Hc. exact Hc.
Qed.

(** The configuration of [autoConfig] with a script. *)
Definition scriptedConfig : Engine.MigrationConfig :=
  {| Engine.mongoUrl := js "mongodb://localhost:27017/shop";
     Engine.postgresUrl := js "postgresql://localhost:5432/shop";
     Engine.mode := Engine.AutoTables;
     Engine.openAiApiKey := None;
     Engine.postgresDDL := Some (js "schema.sql");
     Engine.batchSize := None |}.

(** The stores of [scenarioWorld] and a script that creates a table whose
    name is no sanitized identifier. *)
Definition scripted : Env :=
  {| cell := unit;
     columnValue := fun _ _ => Ok tt;
     mappedValue := fun _ _ => Ok tt;
     world := fun h c =>
       match c as c0 return reply (response c0) with
       | FsReadFile _ => Ok (js "CREATE TABLE Order-Items (sku TEXT);")
       | c0 => scenarioWorld false h c0
       end;
     now := fun h => Z.of_nat (length h);
     toLowerCase := Utils.toLowerCase |}.

Lemma autoTables_statements_witness :
  (Forall (fun c => autoStatement c = true)
     (Engine.history (scenario false)
        (snd (Engine.migrate (scenario false) autoConfig
                (Engine.newEngine (scenario false) autoConfig)))) /\
   filter (fun c => isDDL c || isInsert c)
     (Engine.history (scenario false)
        (snd (Engine.migrate (scenario false) autoConfig
                (Engine.newEngine (scenario false) autoConfig))))
   = [ QueryCreateTable (js "users")
         [js "id SERIAL PRIMARY KEY"; js "mongo_id TEXT UNIQUE"; js "name TEXT NULL"];
       QueryInsert (js "users") [js "name"] [tt] None;
       QueryCreateTable (js "orders")
         [js "id SERIAL PRIMARY KEY"; js "mongo_id TEXT UNIQUE"; js "name TEXT NULL"];
       QueryInsert (js "orders") [js "name"] [tt] None ]) /\
  (Forall (fun c => autoStatement c = true \/ isScriptStatement c = true)
     (Engine.history scripted
        (snd (Engine.migrate scripted scriptedConfig
                (Engine.newEngine scripted scriptedConfig)))) /\
   filter isScriptStatement
     (Engine.history scripted
        (snd (Engine.migrate scripted scriptedConfig
                (Engine.newEngine scripted scriptedConfig))))
   = [ QueryStatement (js "CREATE TABLE Order-Items (sku TEXT)") ]).
Proof.
  split; split.
  - apply (proj2 (autoTables_statements (scenario false) autoConfig eq_refl)).
    reflexivity.
  - vm_compute. reflexivity.
  - apply (proj1 (autoTables_statements scripted scriptedConfig eq_refl)).
  - vm_compute. reflexivity.
Defined.

(** ** Pre-existing tables: a collection without a table *)

Section MissingTables.

Variable env : Env.
Variable config : Engine.MigrationConfig.
Hypothesis no_table : forall h table, world env h (QueryTableExists table) = Ok false.

(** The state after the look-ups of the tables of [order]. *)
Definition lookedUp (order : list jsstring) (st : Engine.state env) : Engine.state env :=
  fold_left (fun st table => Engine.logged env (QueryTableExists table) st) order st.

Lemma lookedUp_fields (order : list jsstring) :
  forall st,
    Engine.history env (lookedUp order st)
    = Engine.history env st ++ map QueryTableExists order /\
    Engine.result env (lookedUp order st) = Engine.result env st /\
    Engine.pgClient env (lookedUp order st) = Engine.pgClient env st.
Proof.
  induction order as [|table order IH]; intros st; simpl.
  - rewrite app_nil_r. repeat split.
  - destruct (IH (Engine.logged env (QueryTableExists table) st)) as (Hh & Hr & Hc).
    rewrite Hh, Hr, Hc. simpl. rewrite <- app_assoc. repeat split.
Qed.

Lemma run_tableExists_missing (table : jsstring) (st : Engine.state env) :
  Engine.pgClient env st = true ->
  Engine.tableExists env table st
  = (Returned false, Engine.logged env (QueryTableExists table) st).
Proof.
  intros Hpg. unfold Engine.tableExists.
  rewrite (bindM_returned env _ _ _ _ _ (run_requireClient env st Hpg)); cbv beta.
  unfold Engine.perform. rewrite no_table. reflexivity.
Qed.

Lemma run_migrateExisting_missing (name : jsstring) (st : Engine.state env) :
  Engine.pgClient env st = true ->
  Engine.migrateExisting env name config st
  = (Returned tt, Engine.logged env (QueryTableExists name) st).
Proof.
  intros Hpg. unfold Engine.migrateExisting.
  rewrite (bindM_returned env _ _ _ _ _ (run_tableExists_missing name st Hpg)).
  reflexivity.
Qed.

Lemma run_existing_loop (order : list jsstring) :
  forall st,
    Engine.pgClient env st = true ->
    forEachM
      (fun collectionName =>
         tryCatch (Engine.migrateExisting env collectionName config)
           (fun error =>
              Engine.pushError env
                (js "Failed to migrate collection " ++ collectionName ++
                 js ": " ++ errorText error)))
      order st
    = (Returned tt, lookedUp order st).
Proof.
  induction order as [|name order IH]; intros st Hpg; [reflexivity|].
  cbn [forEachM]. unfold bindM at 1, tryCatch at 1.
  rewrite (run_migrateExisting_missing name st Hpg).
  apply IH. exact Hpg.
Qed.

End MissingTables.

(** X21: in pre-existing-tables mode a collection whose table does not exist
    is passed over in silence.  When the destination has none of the tables,
    [migrateWithExistingTables] asks once for each collection, in insertion
    order, whether its table exists, and does nothing else: it reads no
    document, writes nothing, and leaves the result as it was -- no
    collection is reported as migrated and no error is recorded. *)
Theorem migrateWithExistingTables_missing_tables (env : Env)
  (config : Engine.MigrationConfig) (collections : list jsstring)
  (st : Engine.state env) :
  Engine.pgClient env st = true ->
  (forall h table, world env h (QueryTableExists table) = Ok false) ->
  exists order st',
    DDLParser.getInsertionOrder collections (Engine.tableRelationships env st)
    = Returned order /\
    Engine.migrateWithExistingTables env collections config st = (Returned tt, st') /\
    Engine.history env st' = Engine.history env st ++ map QueryTableExists order /\
    Engine.result env st' = Engine.result env st.
Proof.
  intros Hpg Hnone.
  destruct (getInsertionOrder_returns collections (Engine.tableRelationships env st))
    as (order & Horder).
  exists order, (lookedUp env order st). split; [exact Horder|].
  destruct (lookedUp_fields env order st) as (Hh & Hr & _).
  split; [|split; assumption].
  unfold Engine.migrateWithExistingTables.
  rewrite (bindM_returned env get _ st st st eq_refl); cbv beta.
  rewrite Horder. unfold bindM at 1, lift.
  apply run_existing_loop; assumption.
Qed.

(** The world of [scenarioWorld] with a destination that has no table. *)
Definition emptyDestination : Env :=
  {| cell := unit;
     columnValue := fun _ _ => Ok tt;
     mappedValue := fun _ _ => Ok tt;
     world := fun h c =>
       match c as c0 return reply (response c0) with
       | QueryTableExists _ => Ok false
       | c0 => scenarioWorld false h c0
       end;
     now := fun h => Z.of_nat (length h);
     toLowerCase := Utils.toLowerCase |}.

Definition connectedToEmpty : Engine.state emptyDestination :=
  {| Engine.history := []; Engine.mongoClient := true; Engine.mongoDb := true;
     Engine.pgClient := true; Engine.openai := false;
     Engine.tableRelationships := []; Engine.result := Engine.initialResult |}.

Lemma migrateWithExistingTables_missing_tables_witness :
  exists order st',
    DDLParser.getInsertionOrder [js "users"; js "orders"]
      (Engine.tableRelationships emptyDestination connectedToEmpty)
    = Returned order /\
    Engine.migrateWithExistingTables emptyDestination [js "users"; js "orders"]
      scenarioConfig connectedToEmpty = (Returned tt, st') /\
    Engine.history emptyDestination st'
    = Engine.history emptyDestination connectedToEmpty ++ map QueryTableExists order /\
    Engine.result emptyDestination st' = Engine.result emptyDestination connectedToEmpty.
Proof.
  apply (migrateWithExistingTables_missing_tables emptyDestination scenarioConfig
           [js "users"; js "orders"] connectedToEmpty).
  - reflexivity.
  - intros h table. reflexivity.
Defined.

(** The whole run against that destination succeeds with nothing migrated. *)
Lemma migrate_missing_tables_reported :
  fst (Engine.migrate emptyDestination scenarioConfig
         (Engine.newEngine emptyDestination scenarioConfig))
  = Returned {| success := true; migratedCollections := []; errors := [];
                totalDocuments := 0; migrationTime := 8 |}.
Proof. vm_compute. reflexivity. Qed.

(** ** Connections *)

(** X22: when the connection to the document store cannot be opened, the run
    stops there.  [migrate] resolves to a result with [success] false, the
    driver's message as its only error, nothing migrated and a
    [migrationTime] of 0 (the time is only taken at the end of a run that
    gets that far); the client that was created is closed, and the
    destination is never contacted. *)
Theorem migrate_mongo_unreachable (env : Env) (config : Engine.MigrationConfig)
  (e : jsError) :
  world env [] (NewMongoClient (Engine.mongoUrl config)) = Ok tt ->
  world env [NewMongoClient (Engine.mongoUrl config)] MongoConnect = Fails e ->
  world env [NewMongoClient (Engine.mongoUrl config); MongoConnect] MongoClose = Ok tt ->
  exists st',
    Engine.migrate env config (Engine.newEngine env config)
    = (Returned {| success := false; migratedCollections := [];
                   errors := [errorMessage e]; totalDocuments := 0;
                   migrationTime := 0 |}, st') /\
    Engine.history env st'
    = [NewMongoClient (Engine.mongoUrl config); MongoConnect; MongoClose] /\
    existsb isPostgresCall (Engine.history env st') = false.
Proof.
  intros Hnew Hconnect Hclose. eexists.
  unfold Engine.migrate, Engine.migrateBody, Engine.mongoConnect, Engine.mongoDisconnect,
    Engine.pgDisconnect, Engine.pushError, Engine.clock, Engine.perform, Engine.newEngine,
    bindM, tryCatch, tryFinally, modify, get, ret, throw.
  cbn [Engine.history Engine.logged Engine.setResult Engine.setMongoClient
       Engine.mongoClient Engine.pgClient app].
  rewrite Hnew. cbn [Engine.history Engine.logged Engine.setResult Engine.setMongoClient
                     Engine.mongoClient Engine.pgClient app].
  rewrite Hconnect. cbn [Engine.history Engine.logged Engine.setResult
                         Engine.setMongoClient Engine.mongoClient Engine.pgClient app].
  rewrite Hclose. cbn [Engine.history Engine.logged Engine.setResult
                       Engine.setMongoClient Engine.mongoClient Engine.pgClient
                       Engine.result app Engine.initialResult errors success
                       migratedCollections totalDocuments migrationTime].
  repeat split.
Qed.

(** A document store that refuses the connection. *)
Definition unreachable : Env :=
  {| cell := unit;
     columnValue := fun _ _ => Ok tt;
     mappedValue := fun _ _ => Ok tt;
     world := fun h c =>
       match c as c0 return reply (response c0) with
       | MongoConnect => Fails (Error (js "connect ECONNREFUSED 127.0.0.1:27017"))
       | c0 => scenarioWorld false h c0
       end;
     now := fun h => Z.of_nat (length h);
     toLowerCase := Utils.toLowerCase |}.

Lemma migrate_mongo_unreachable_witness :
  exists st',
    Engine.migrate unreachable scenarioConfig (Engine.newEngine unreachable scenarioConfig)
    = (Returned {| success := false; migratedCollections := [];
                   errors := [js "connect ECONNREFUSED 127.0.0.1:27017"];
                   totalDocuments := 0; migrationTime := 0 |}, st') /\
    Engine.history unreachable st'
    = [NewMongoClient (Engine.mongoUrl scenarioConfig); MongoConnect; MongoClose] /\
    existsb isPostgresCall (Engine.history unreachable st') = false.
Proof.
  apply (migrate_mongo_unreachable unreachable scenarioConfig
           (Error (js "connect ECONNREFUSED 127.0.0.1:27017"))); reflexivity.
Defined.

Lemma cleanup_closes (env : Env) (st st' : Engine.state env) :
  (Engine.mongoDisconnect env ;;; Engine.pgDisconnect env) st = (Returned tt, st') ->
  (Engine.mongoClient env st' = true -> In MongoClose (Engine.history env st')) /\
  (Engine.pgClient env st' = true -> In PgEnd (Engine.history env st')).
Proof.
  unfold Engine.mongoDisconnect, Engine.pgDisconnect, Engine.perform, bindM, get, ret.
  destruct (Engine.mongoClient env st) eqn:Hmongo;
    [destruct (world env (Engine.history env st) MongoClose); [|discriminate]|];
    cbn [Engine.pgClient Engine.logged Engine.history];
    (destruct (Engine.pgClient env st) eqn:Hpg;
     [match goal with
      | |- context [world env ?h PgEnd] => destruct (world env h PgEnd); [|discriminate]
      end|]);
    intros H; apply (f_equal snd) in H; simpl in H; subst st'; simpl;
    rewrite ?Hmongo, ?Hpg;
    (split; [try discriminate | try discriminate]); intros _;
    rewrite ?in_app_iff; simpl; auto.
Qed.

(** X23: a run that resolves has closed what it opened: when [migrate]
    returns its result, a document-store client that was created has been
    asked to close and a destination client that was created has been ended,
    whether the run succeeded or failed, and even when the connection itself
    was what failed. *)
Theorem migrate_closes_connections (env : Env) (config : Engine.MigrationConfig)
  (st st' : Engine.state env) (res : MigrationResult) :
  Engine.migrate env config st = (Returned res, st') ->
  (Engine.mongoClient env st' = true -> In MongoClose (Engine.history env st')) /\
  (Engine.pgClient env st' = true -> In PgEnd (Engine.history env st')).
Proof.
  unfold Engine.migrate.
  unfold bindM at 1, Engine.clock at 1. unfold bindM at 1, modify at 1.
  unfold bindM at 1.
  match goal with
  | |- context [tryFinally ?body ?cleanup ?s] =>
      generalize s; intros st1;
      destruct (tryFinally body cleanup st1) as [[[]|e|] st2] eqn:Hfinally;
      try discriminate;
      unfold tryFinally in Hfinally;
      destruct (body st1) as [[[]|e|] st3]; try discriminate;
      destruct (cleanup st3) as [[[]|e'|] st4] eqn:Hcleanup; try discriminate;
      injection Hfinally as <-
  end;
  unfold bindM, get, ret; intros H; injection H as _ <-;
    exact (cleanup_closes env st3 st4 Hcleanup).
Qed.

Lemma migrate_closes_connections_witness :
  (Engine.mongoClient (scenario false)
     (snd (Engine.migrate (scenario false) scenarioConfig
             (Engine.newEngine (scenario false) scenarioConfig))) = true ->
   In MongoClose
     (Engine.history (scenario false)
        (snd (Engine.migrate (scenario false) scenarioConfig
                (Engine.newEngine (scenario false) scenarioConfig))))) /\
  (Engine.pgClient (scenario false)
     (snd (Engine.migrate (scenario false) scenarioConfig
             (Engine.newEngine (scenario false) scenarioConfig))) = true ->
   In PgEnd
     (Engine.history (scenario false)
        (snd (Engine.migrate (scenario false) scenarioConfig
                (Engine.newEngine (scenario false) scenarioConfig))))).
Proof.
  apply (migrate_closes_connections (scenario false) scenarioConfig
           (Engine.newEngine (scenario false) scenarioConfig) _
           {| success := false;
              migratedCollections := [js "users"];
              errors := [js "Failed to migrate collection orders: Error: cursor lost"];
              totalDocuments := 1;
              migrationTime := 26 |}).
  vm_compute. reflexivity.
Defined.

(** ** createBasicColumnMappings: what the fallback maps *)

(** A field that the loop of [createBasicColumnMappings] gives a mapping. *)
Definition isMapped (toLowerCase : jsstring -> jsstring) (pgSchema : PostgresTableSchema)
  (field : FieldSchema) : bool :=
  let sanitizedFieldName := toLowerCase (Utils.replaceDots (fieldName field)) in
  negb (jsstring_eqb (fieldName field) (js "_id")) &&
  (includes (map colName (columns pgSchema)) sanitizedFieldName ||
   match find (Mapping.partialMatch toLowerCase sanitizedFieldName) (columns pgSchema) with
   | Some _ => true
   | None => false
   end).

Lemma mapField_cases (toLowerCase : jsstring -> jsstring) (pgSchema : PostgresTableSchema)
  (field : FieldSchema) :
  let pgColumns := fold_left JsSet.add (map colName (columns pgSchema)) JsSet.empty in
  (isMapped toLowerCase pgSchema field = false /\
   Mapping.mapField toLowerCase pgSchema pgColumns [] field = []) \/
  (isMapped toLowerCase pgSchema field = true /\
   exists column,
     In column (map colName (columns pgSchema)) /\
     Mapping.mapField toLowerCase pgSchema pgColumns [] field
     = [Mapping.mapping (fieldName field) column]).
Proof.
  cbv zeta. unfold Mapping.mapField, isMapped.
  destruct (jsstring_eqb (fieldName field) (js "_id")); [left; split; reflexivity|].
  cbv zeta. rewrite set_of_list_has. simpl JsSet.has. rewrite orb_false_l.
  cbn [negb andb app].
  destruct (includes (map colName (columns pgSchema)) _) eqn:Einc.
  - right. split; [reflexivity|]. eexists. split; [|reflexivity].
    apply includes_In. exact Einc.
  - cbn [orb]. destruct (find _ (columns pgSchema)) as [col|] eqn:Efind.
    + right. split; [reflexivity|]. exists (colName col). split; [|reflexivity].
      apply in_map. apply find_some in Efind. apply Efind.
    + left. split; reflexivity.
Qed.

Lemma filter_all {A : Type} (f : A -> bool) (l : list A) :
  Forall (fun x => f x = true) l -> filter f l = l.
Proof.
  induction 1 as [|x l Hx _ IH]; simpl; [reflexivity|]. rewrite Hx, IH. reflexivity.
Qed.

(** X24: the fallback mapping only names columns that the table has, so the
    validation of [insertDocumentsWithMapping] against the table's columns
    keeps all of it; [_id] is mapped only to the identifier column, and comes
    first; after it the mapped fields come in the order of the collection's
    fields, each at most once, and never [_id] again.  This holds whatever
    [toLowerCase] does to the names, so for the built-in. *)
Theorem createBasicColumnMappings_valid (toLowerCase : jsstring -> jsstring)
  (mongoSchema : CollectionSchema)
  (pgSchema : PostgresTableSchema) :
  Forall (fun mapping => In (postgresColumn mapping) (map colName (columns pgSchema)))
    (Mapping.createBasicColumnMappings toLowerCase mongoSchema pgSchema) /\
  filter
    (fun mapping =>
       JsSet.has (fold_left JsSet.add (map colName (columns pgSchema)) JsSet.empty)
         (postgresColumn mapping))
    (Mapping.createBasicColumnMappings toLowerCase mongoSchema pgSchema)
  = Mapping.createBasicColumnMappings toLowerCase mongoSchema pgSchema /\
  map mongoField (Mapping.createBasicColumnMappings toLowerCase mongoSchema pgSchema)
  = match find (Mapping.isIdColumn toLowerCase) (columns pgSchema) with
    | Some _ => [js "_id"]
    | None => []
    end ++ map fieldName (filter (isMapped toLowerCase pgSchema) (fields mongoSchema)) /\
  Forall (fun field => fieldName field <> js "_id")
    (filter (isMapped toLowerCase pgSchema) (fields mongoSchema)).
Proof.
  assert (Hfields :
    forall fs,
      Forall (fun mapping => In (postgresColumn mapping) (map colName (columns pgSchema)))
        (flat_map (Mapping.mapField toLowerCase pgSchema
                     (fold_left JsSet.add (map colName (columns pgSchema)) JsSet.empty) [])
           fs) /\
      map mongoField
        (flat_map (Mapping.mapField toLowerCase pgSchema
                     (fold_left JsSet.add (map colName (columns pgSchema)) JsSet.empty) [])
           fs)
      = map fieldName (filter (isMapped toLowerCase pgSchema) fs)).
  { induction fs as [|f fs (IH1 & IH2)]; simpl; [split; [constructor | reflexivity]|].
    destruct (mapField_cases toLowerCase pgSchema f) as [(Hno & ->) | (Hyes & column & Hin & ->)].
    - rewrite Hno. split; assumption.
    - rewrite Hyes. simpl. split; [constructor; assumption | rewrite IH2; reflexivity]. }
  assert (Htargets :
    Forall (fun mapping => In (postgresColumn mapping) (map colName (columns pgSchema)))
      (Mapping.createBasicColumnMappings toLowerCase mongoSchema pgSchema)).
  { unfold Mapping.createBasicColumnMappings. cbv zeta. rewrite fold_mapField.
    apply Forall_app. split; [|apply Hfields].
    destruct (find (Mapping.isIdColumn toLowerCase) (columns pgSchema)) as [col|] eqn:Efind;
      [|constructor].
    constructor; [|constructor]. simpl. apply in_map.
    apply find_some in Efind. apply Efind. }
  split; [exact Htargets|]. split; [|split].
  - apply filter_all. eapply Forall_impl; [|exact Htargets].
    intros mapping Hin. cbv beta. rewrite set_of_list_has. simpl JsSet.has.
    rewrite orb_false_l. apply includes_In. exact Hin.
  - unfold Mapping.createBasicColumnMappings. cbv zeta. rewrite fold_mapField, map_app.
    rewrite (proj2 (Hfields (fields mongoSchema))).
    destruct (find (Mapping.isIdColumn toLowerCase) (columns pgSchema)); reflexivity.
  - apply Forall_forall. intros field Hin. apply filter_In in Hin.
    destruct Hin as (_ & Hmapped). unfold isMapped in Hmapped. cbv zeta in Hmapped.
    apply andb_true_iff in Hmapped. destruct Hmapped as (Hid & _).
    apply negb_true_iff in Hid. apply jsstring_eqb_neq. exact Hid.
Qed.

(** ** PostgresManager without a connection *)

Definition notConnectedToPostgres : jsError := Error (js "Not connected to PostgreSQL").

(** X25: on a manager that has no client, the methods that read or change the
    schema ([tableExists], [getTableSchema], [createTableFromSchema],
    [executeDDL]) raise [Not connected to PostgreSQL], but the two methods
    that write documents return normally: the documents are dropped without
    an error.  None of them contacts anything, and [disconnect] does nothing.
    With a client, an empty batch of documents is a no-op as well. *)
Theorem postgresManager_without_client (env : Env) (st : Engine.state env)
  (tableName ddlPath : jsstring) (schema : CollectionSchema) (documents : list value)
  (columnMappings : list ColumnMapping) :
  Engine.pgClient env st = false ->
  Engine.insertDocuments env tableName documents st = (Returned tt, st) /\
  Engine.insertDocumentsWithMapping env tableName documents columnMappings st
  = (Returned tt, st) /\
  Engine.tableExists env tableName st = (Thrown notConnectedToPostgres, st) /\
  Engine.getTableSchema env tableName st = (Thrown notConnectedToPostgres, st) /\
  Engine.createTableFromSchema env schema st = (Thrown notConnectedToPostgres, st) /\
  Engine.executeDDL env ddlPath st = (Thrown notConnectedToPostgres, st) /\
  Engine.pgDisconnect env st = (Returned tt, st) /\
  (forall st', Engine.insertDocuments env tableName [] st' = (Returned tt, st')) /\
  (forall st', Engine.insertDocumentsWithMapping env tableName [] columnMappings st'
               = (Returned tt, st')).
Proof.
  intros Hpg.
  assert (Hguard : Engine.requireClient env st = (Thrown notConnectedToPostgres, st)).
  { unfold Engine.requireClient, bindM, get. rewrite Hpg. reflexivity. }
  repeat split.
  - unfold Engine.insertDocuments, bindM, get. rewrite Hpg. reflexivity.
  - unfold Engine.insertDocumentsWithMapping, bindM, get. rewrite Hpg. reflexivity.
  - unfold Engine.tableExists, bindM. rewrite Hguard. reflexivity.
  - unfold Engine.getTableSchema, bindM. rewrite Hguard. reflexivity.
  - unfold Engine.createTableFromSchema, bindM. rewrite Hguard. reflexivity.
  - unfold Engine.executeDDL, bindM. rewrite Hguard. reflexivity.
  - unfold Engine.pgDisconnect, bindM, get. rewrite Hpg. reflexivity.
  - intros st'. unfold Engine.insertDocuments, bindM, get. cbn [length Nat.eqb].
    rewrite orb_true_r. reflexivity.
  - intros st'. unfold Engine.insertDocumentsWithMapping, bindM, get.
    cbn [length Nat.eqb]. rewrite orb_true_r. reflexivity.
Qed.

Lemma postgresManager_without_client_witness :
  Engine.insertDocuments (scenario false) (js "users") [sampleDocument]
    (Engine.newEngine (scenario false) scenarioConfig)
  = (Returned tt, Engine.newEngine (scenario false) scenarioConfig) /\
  Engine.tableExists (scenario false) (js "users")
    (Engine.newEngine (scenario false) scenarioConfig)
  = (Thrown notConnectedToPostgres, Engine.newEngine (scenario false) scenarioConfig).
Proof.
  destruct (postgresManager_without_client (scenario false)
              (Engine.newEngine (scenario false) scenarioConfig)
              (js "users") (js "schema.sql") usersSchema [sampleDocument] [] eq_refl)
    as (Hinsert & _ & Hexists & _).
  split; assumption.
Defined.
